(** * dapple: lib/dependency.js

    A shallow embedding of the [Dependency] class: the specifier parser
    ([fromDependencyString] and the constructor), the fetch strategies
    ([pull], [_pullGit], [_pullIPFS]) and the installer ([install]).

    JavaScript strings are sequences of UTF-16 code units; they are modelled
    as lists of code units, [list N].  The regular expressions of the source
    are kept as syntax and run by a backtracking matcher written after the
    ECMAScript pattern semantics (continuation passing, greedy quantifiers,
    capture groups).  The collaborators the class calls into (the file
    system wrapper, child_process, the IPFS client, the workspace reader,
    os and Math.random) are an environment the installer is parametrised
    over; every call into it is logged. *)

From Stdlib Require Import String Ascii NArith List Lia.
From Stdlib Require DecimalString.
From stdpp Require Import base option list gmap.

Open Scope N_scope.
Open Scope list_scope.

(** ** Strings *)

Abbreviation jstring := (list N).

(** A string literal of the source, as code units. *)
Fixpoint str (s : string) : jstring :=
  match s with
  | EmptyString => []
  | String a s' => N_of_ascii a :: str s'
  end.

(** A JavaScript value that is [undefined] or a string. *)
Abbreviation jvalue := (option jstring).

(** ToBoolean on such a value: [undefined] and [''] are falsy. *)
Definition truthy (v : jvalue) : bool :=
  match v with
  | Some (_ :: _) => true
  | _ => false
  end.

(** [a || b] where [b] is a string. *)
Definition or_str (a : jvalue) (b : jstring) : jstring :=
  match a with
  | Some (c :: s) => c :: s
  | _ => b
  end.

(** [a || b] where both may be [undefined]. *)
Definition or_val (a b : jvalue) : jvalue :=
  if truthy a then a else b.

(** ToString, as applied by [RegExp.prototype.test] to its argument. *)
Definition ToString (v : jvalue) : jstring :=
  match v with
  | Some s => s
  | None => str "undefined"
  end.

(** ** Regular expressions *)

(** Single-character atoms: a pattern character, [.], and a class
    [[...]] or [[^...]] given by its ranges. *)
Inductive cls :=
| Chr (c : N)
| Dot
| Class (invert : bool) (ranges : list (N * N)).

(** The patterns of dependency.js: every quantifier [+] is applied to a
    single-character atom, every [?] to a group or a character. *)
Inductive regex :=
| Empty
| Char (c : cls)
| Seq (r1 r2 : regex)
| Plus (c : cls)
| Opt (r : regex)
| Group (n : nat) (r : regex)
| Bol
| Eol.

Declare Scope regex_scope.
Delimit Scope regex_scope with re.
Infix "+++" := Seq (at level 60, right associativity) : regex_scope.

Definition chr (a : ascii) : regex := Char (Chr (N_of_ascii a)).

Fixpoint lit (s : string) : regex :=
  match s with
  | EmptyString => Empty
  | String a EmptyString => chr a
  | String a s' => Seq (chr a) (lit s')
  end.

Record RegExp := {
  source : regex;
  ignoreCase : bool;
  ngroups : nat
}.

(** Canonicalize of the pattern semantics without the unicode flag: with
    [ignoreCase] a character is compared by its upper-case form, except that
    a character at or above 128 is never mapped below 128.  Every pattern
    character of this file is ASCII, so whether a character at or above 128
    is mapped to another one at or above 128 does not change any
    comparison, and such characters are left as they are. *)
Definition Canonicalize (ignoreCase : bool) (ch : N) : N :=
  if ignoreCase && (97 <=? ch) && (ch <=? 122) then ch - 32 else ch.

(** LineTerminator: LF, CR, LS, PS. *)
Definition LineTerminator (ch : N) : bool :=
  (ch =? 10) || (ch =? 13) || (ch =? 8232) || (ch =? 8233).

Definition range_members (r : N * N) : list N :=
  map (fun k => fst r + N.of_nat k) (seq 0 (N.to_nat (snd r + 1 - fst r))).

Definition cls_match (i : bool) (c : cls) (ch : N) : bool :=
  match c with
  | Chr a => Canonicalize i a =? Canonicalize i ch
  | Dot => negb (LineTerminator ch)
  | Class invert ranges =>
      xorb invert
        (existsb (fun a => Canonicalize i a =? Canonicalize i ch)
           (concat (map range_members ranges)))
  end.

Abbreviation captures := (list (option jstring)).
Abbreviation MatchResult := (option (jstring * captures)).

(** The text between two positions, each given by the input that remains. *)
Definition between (s s1 : jstring) : jstring :=
  take (length s - length s1)%nat s.

(** RepeatMatcher for [c+], greedy: one character, then either more of
    them or the continuation. *)
Fixpoint repeat_plus (p : N -> bool) (s : jstring)
    (k : jstring -> MatchResult) : MatchResult :=
  match s with
  | ch :: s' =>
      if p ch then
        match repeat_plus p s' k with
        | Some r => Some r
        | None => k s'
        end
      else None
  | [] => None
  end.

(** The matcher of a pattern at the position where [s] remains of [input],
    with continuation [k].  [Opt] is RepeatMatcher with min 0 and max 1,
    with its check that an iteration must not match the empty string. *)
Fixpoint matcher (i : bool) (input : jstring) (r : regex) (s : jstring)
    (caps : captures) (k : jstring -> captures -> MatchResult) : MatchResult :=
  match r with
  | Empty => k s caps
  | Char c =>
      match s with
      | ch :: s' => if cls_match i c ch then k s' caps else None
      | [] => None
      end
  | Seq r1 r2 =>
      matcher i input r1 s caps (fun s1 c1 => matcher i input r2 s1 c1 k)
  | Plus c => repeat_plus (cls_match i c) s (fun s1 => k s1 caps)
  | Opt r1 =>
      match matcher i input r1 s caps
              (fun s1 c1 => if (length s1 =? length s)%nat then None else k s1 c1) with
      | Some x => Some x
      | None => k s caps
      end
  | Group n r1 =>
      matcher i input r1 s caps
        (fun s1 c1 => k s1 (<[n := Some (between s s1)]> c1))
  | Bol => if (length s =? length input)%nat then k s caps else None
  | Eol => match s with [] => k s caps | _ :: _ => None end
  end.

(** The first position, from the left, at which the pattern matches:
    what remains at the start of the match, what remains at its end, and
    the captures. *)
Fixpoint search (re : RegExp) (input s : jstring)
    : option (jstring * jstring * captures) :=
  match matcher (ignoreCase re) input (source re) s
          (replicate (S (ngroups re)) None) (fun s1 c1 => Some (s1, c1)) with
  | Some (s1, c1) => Some (s, s1, c1)
  | None =>
      match s with
      | [] => None
      | _ :: s' => search re input s'
      end
  end.

(** [re.exec(input)]: [None] is [null], otherwise the array whose element 0
    is the matched text and element [n] the [n]-th capture. *)
Definition exec (re : RegExp) (input : jstring) : option captures :=
  match search re input input with
  | Some (s0, s1, c1) => Some (<[0%nat := Some (between s0 s1)]> c1)
  | None => None
  end.

(** [re.test(input)]. *)
Definition test (re : RegExp) (input : jstring) : bool :=
  match search re input input with
  | Some _ => true
  | None => false
  end.

(** [input.replace(re, '')] for a pattern without the global flag. *)
Definition replace_empty (re : RegExp) (input : jstring) : jstring :=
  match search re input input with
  | Some (s0, s1, _) => take (length input - length s0)%nat input ++ s1
  | None => input
  end.

(** Element [n] of a match array. *)
Definition piece (pieces : captures) (n : nat) : jvalue :=
  match pieces !! n with
  | Some v => v
  | None => None
  end.

(** ** Errors and results *)

(** What a [throw] carries: an [Error] made by this file with its message,
    the TypeError the engine raises when a property of [null] is read, or
    whatever a collaborator threw, with its rendering [String(e)]. *)
Inductive exn :=
| Error (message : jstring)
| TypeError (message : jstring)
| Foreign (rendering : jstring).

(** The rendering [String(e)] of a thrown value. *)
Definition String_of_exn (e : exn) : jstring :=
  match e with
  | Error m => str "Error: " ++ m
  | TypeError m => str "TypeError: " ++ m
  | Foreign r => r
  end.

(** How a call ends.  [OutOfFuel] is the model's own: the recursion of
    [pullIPFS] below is bounded by a fuel. *)
Inductive outcome (A : Type) :=
| Return (a : A)
| Throw (e : exn)
| OutOfFuel.
Arguments Return {A} a.
Arguments Throw {A} e.
Arguments OutOfFuel {A}.

(** How a call into a collaborator ends. *)
Inductive reply (A : Type) :=
| Answer (a : A)
| Raise (e : exn).
Arguments Answer {A} a.
Arguments Raise {A} e.

(** The errors of the class, by the names the specification gives them. *)
Definition MissingVersionError : exn :=
  Error (str "Git paths must include an exact commit hash!").

Definition InvalidCommitError (commit : jstring) : exn :=
  Error (str "Invalid commit hash: " ++ commit).

Definition AlreadyInstalledError (name : jstring) : exn :=
  Error (name ++ str " is already installed.").

Definition PathAccessError (packagesDirectory : jstring) (e : exn) : exn :=
  Error (str "Could not access or create " ++ packagesDirectory ++
         str ": " ++ String_of_exn e).

Definition CleanupError (name installedAt tmpDir : jstring) : exn :=
  Error (name ++ str " installed at " ++ installedAt ++
         str ", but cleanup failed. Please manually delete " ++ tmpDir).

Definition UnrecognizedSourceError (path : jstring) : exn :=
  Error (str "Could not make sense of " ++ [34] ++ path ++ [34]).

Definition IPFSConnectionError : exn :=
  Error (str "Unable to retrieve directory from IPFS! " ++
         str "Please make sure your IPFS connection settings " ++
         str "in ~/.dapplerc are correct and that you have " ++
         str "supplied the correct IPFS hash.").

(** [pathPieces[2]] where [pathPieces] is [null]. *)
Definition NullPiecesError : exn :=
  TypeError (str "Cannot read property '2' of null").

(** ** The descriptor *)

Record Dependency := {
  name : jstring;
  path : jstring;
  version : jstring;
  packagesDirectory : jstring;
  installedAt : jstring;
  _tmpDir : jvalue
}.

Definition getName (this : Dependency) : jstring := name this.
Definition getPath (this : Dependency) : jstring := path this.
Definition getVersion (this : Dependency) : jstring := version this.

Definition setName (n : jstring) (this : Dependency) : Dependency :=
  {| name := n; path := path this; version := version this;
     packagesDirectory := packagesDirectory this;
     installedAt := installedAt this; _tmpDir := _tmpDir this |}.

(** [/\.git$/i] *)
Definition gitSuffixRegex : RegExp :=
  {| source := (lit ".git" +++ Eol)%re; ignoreCase := true; ngroups := 0 |}.

(** [[A-Za-z0-9]] *)
Definition alnum : cls := Class false [(65, 90); (97, 122); (48, 57)].

(** [/^ipfs:\/\/[A-Za-z0-9]+$/i] *)
Definition ipfsPathRegex : RegExp :=
  {| source := (Bol +++ lit "ipfs://" +++ Plus alnum +++ Eol)%re;
     ignoreCase := true; ngroups := 0 |}.

Definition hasGitPath (this : Dependency) : bool :=
  test gitSuffixRegex (path this).

Definition hasIPFSPath (this : Dependency) : bool :=
  test ipfsPathRegex (path this).

Definition hasVersion (this : Dependency) : bool :=
  negb (bool_decide (version this = [])).

Definition toString (this : Dependency) : jstring :=
  getPath this ++ getVersion this.

(** [new Dependency(path, version, name)] *)
Definition new_Dependency (path version name : jvalue) : outcome Dependency :=
  let this :=
    {| name := or_str name [];
       path := or_str path [];
       version := or_str version [];
       packagesDirectory := str "dapple_packages";
       installedAt := [];
       _tmpDir := None |} in
  if hasGitPath this && negb (truthy version)
  then Throw MissingVersionError
  else Return this.

(** [/^(.+.git)(?:@([a-z0-9]+))$/i] *)
Definition gitPathRegex : RegExp :=
  {| source :=
       (Bol +++ Group 1 (Plus Dot +++ Char Dot +++ lit "git") +++
        (chr "@" +++ Group 2 (Plus (Class false [(97, 122); (48, 57)]))) +++
        Eol)%re;
     ignoreCase := true; ngroups := 2 |}.

(** [[^@#]] *)
Definition notAtHash : cls := Class true [(64, 64); (35, 35)].

(** [/^([^@#]+)?(?:@(.+)?)?$/] *)
Definition pathRegex : RegExp :=
  {| source :=
       (Bol +++ Opt (Group 1 (Plus notAtHash)) +++
        Opt (chr "@" +++ Opt (Group 2 (Plus Dot))) +++ Eol)%re;
     ignoreCase := false; ngroups := 2 |}.

(** [/^@?(ipfs:\/\/)?Qm[A-Za-z0-9]+$/i] *)
Definition ipfsHashRegex : RegExp :=
  {| source :=
       (Bol +++ Opt (chr "@") +++ Opt (Group 1 (lit "ipfs://")) +++
        lit "Qm" +++ Plus alnum +++ Eol)%re;
     ignoreCase := true; ngroups := 1 |}.

(** [/^@?ipfs:\/\//i] *)
Definition ipfsPrefixRegex : RegExp :=
  {| source := (Bol +++ Opt (chr "@") +++ lit "ipfs://")%re;
     ignoreCase := true; ngroups := 0 |}.

(** [Dependency.fromDependencyString(path, name)] *)
Definition fromDependencyString (path : jstring) (name : jvalue)
    : outcome Dependency :=
  if test gitPathRegex path then
    match exec gitPathRegex path with
    | None => Throw NullPiecesError
    | Some pathPieces =>
        let version := piece pathPieces 2 in
        let path := piece pathPieces 1 in
        new_Dependency path version name
    end
  else
    match exec pathRegex path with
    | None => Throw NullPiecesError
    | Some pathPieces =>
        let version := piece pathPieces 2 in
        let path := piece pathPieces 1 in
        if test ipfsHashRegex (ToString (or_val version path)) then
          let name :=
            if negb (truthy name)
            then (if truthy version then path else Some [])
            else name in
          let version :=
            replace_empty ipfsPrefixRegex (ToString (or_val version path)) in
          let path := str "ipfs://" ++ version in
          new_Dependency (Some path) (Some version) name
        else new_Dependency path version name
    end.

(** ** Paths: Node's [path.join] (POSIX) *)

(** [p.split('/')] *)
Fixpoint split_slash (p : jstring) : list jstring :=
  match p with
  | [] => [[]]
  | c :: p' =>
      if c =? 47 then [] :: split_slash p'
      else match split_slash p' with
           | seg :: segs => (c :: seg) :: segs
           | [] => [[c]]
           end
  end.

(** [segs.join('/')] *)
Fixpoint join_slash (segs : list jstring) : jstring :=
  match segs with
  | [] => []
  | [seg] => seg
  | seg :: segs' => seg ++ 47 :: join_slash segs'
  end.

(** One segment of normalizeString; [res] holds the segments kept so far,
    the last one first. *)
Definition normalize_step (allowAboveRoot : bool) (res : list jstring)
    (seg : jstring) : list jstring :=
  if bool_decide (seg = []) || bool_decide (seg = str ".") then res
  else if bool_decide (seg = str "..") then
    match res with
    | last :: res' =>
        if bool_decide (last = str "..")
        then (if allowAboveRoot then seg :: res else res)
        else res'
    | [] => if allowAboveRoot then [seg] else []
    end
  else seg :: res.

Definition normalize_segments (allowAboveRoot : bool) (p : jstring)
    : list jstring :=
  rev (fold_left (normalize_step allowAboveRoot) (split_slash p) []).

(** [path.normalize(p)] *)
Definition normalize (p : jstring) : jstring :=
  match p with
  | [] => str "."
  | c :: _ =>
      let isAbsolute := c =? 47 in
      let trailingSeparator := bool_decide (last p = Some 47) in
      match join_slash (normalize_segments (negb isAbsolute) p) with
      | [] =>
          if isAbsolute then str "/"
          else if trailingSeparator then str "./" else str "."
      | body =>
          (if isAbsolute then str "/" else []) ++ body ++
          (if trailingSeparator then str "/" else [])
      end
  end.

(** [path.join(...args)] *)
Definition path_join (args : list jstring) : jstring :=
  match filter (fun arg => arg <> []) args with
  | [] => str "."
  | joined => normalize (join_slash joined)
  end.

(** ** The collaborators *)

(** An entry of [ls(hash).Objects[0].Links]. *)
Record Link := {
  Hash : jstring;
  Name : jstring;
  Type_ : N
}.

(** The [ipfs] entry of the live environment of ~/.dapplerc. *)
Record Settings := {
  host : jstring;
  port : jstring
}.

(** [fs.R_OK] and [fs.W_OK] *)
Definition R_OK : N := 4.
Definition W_OK : N := 2.

(** The calls dependency.js makes out of the class:
    [fs.*] of ./file.js, [child_process.execSync(command, {cwd})],
    [req.os.tmpdir()], [String(Math.random())],
    [req.Workspace.atPackageRoot(root).dappfile.name],
    [req.Workspace.getDappleRC().environment('live').ipfs], and [ls(hash)]
    and [cat(hash).read()] of the IPFS client made for the settings. *)
Inductive call :=
| accessSync (p : jstring) (mode : N)
| mkdirSync (p : jstring)
| copySync (src dst : jstring)
| removeSync (p : jstring)
| emptyDirSync (p : jstring)
| ensureDirSync (p : jstring)
| writeFileSync (p data : jstring)
| execSync (command : jstring) (cwd : jvalue)
| tmpdir
| random
| dappfile_name (root : jstring)
| ipfs_settings
| ls (settings : Settings) (hash : jstring)
| cat (settings : Settings) (hash : jstring).

(** What a call answers when it returns. *)
Definition answer (c : call) : Type :=
  match c with
  | tmpdir | random | dappfile_name _ | cat _ _ => jstring
  | ipfs_settings => Settings
  | ls _ _ => list Link
  | _ => unit
  end.

(** [types = { dir: 1, file: 2 }] *)
Definition types_dir : N := 1.
Definition types_file : N := 2.

(** The rendering of a number, for a message. *)
Definition String_of_N (n : N) : jstring :=
  str (DecimalString.NilZero.string_of_uint (N.to_uint n)).

Definition UnknownNodeTypeError (type : N) (hash rootHash : jstring) : exn :=
  Error (str "Unknown IPFS type " ++ [34] ++ String_of_N type ++ [34] ++
         str " at " ++ hash ++ str " while pulling " ++ rootHash).

(** [/^@/], [/^[a-f0-9]+$/i] and [/^ipfs:\/\//i] *)
Definition atRegex : RegExp :=
  {| source := (Bol +++ chr "@")%re; ignoreCase := false; ngroups := 0 |}.

Definition commitRegex : RegExp :=
  {| source := (Bol +++ Plus (Class false [(97, 102); (48, 57)]) +++ Eol)%re;
     ignoreCase := true; ngroups := 0 |}.

Definition ipfsSchemeRegex : RegExp :=
  {| source := (Bol +++ lit "ipfs://")%re; ignoreCase := true; ngroups := 0 |}.

(** ** The installer *)

Section Installer.

Context {W : Type}.

(** The environment: how each call ends in a given world, and the world it
    leaves. *)
Variable env : forall c : call, W -> reply (answer c) * W.

(** A bound on the depth of the IPFS tree [pullIPFS] walks. *)
Variable depth : nat.

(** The object, the world, and the calls made so far, each with whether it
    returned. *)
Record State := {
  this : Dependency;
  world : W;
  log : list (call * bool)
}.

Definition M (A : Type) : Type := State -> outcome A * State.

Definition ret {A} (a : A) : M A := fun st => (Return a, st).

Definition bind {A B} (m : M A) (f : A -> M B) : M B :=
  fun st =>
    match m st with
    | (Return a, st') => f a st'
    | (Throw e, st') => (Throw e, st')
    | (OutOfFuel, st') => (OutOfFuel, st')
    end.

Definition throw {A} (e : exn) : M A := fun st => (Throw e, st).

(** [try { body } catch (e) { handler }] *)
Definition try_catch {A} (body : M A) (handler : exn -> M A) : M A :=
  fun st =>
    match body st with
    | (Throw e, st') => handler e st'
    | r => r
    end.

Definition do (c : call) : M (answer c) :=
  fun st =>
    match env c (world st) with
    | (Answer a, w) =>
        (Return a,
         {| this := this st; world := w; log := log st ++ [(c, true)] |})
    | (Raise e, w) =>
        (Throw e,
         {| this := this st; world := w; log := log st ++ [(c, false)] |})
    end.

Definition get_this : M Dependency := fun st => (Return (this st), st).

Definition update (f : Dependency -> Dependency) : M unit :=
  fun st =>
    (Return tt, {| this := f (this st); world := world st; log := log st |}).

Definition out_of_fuel {A} : M A := fun st => (OutOfFuel, st).

Notation "x <- m ;; k" := (bind m (fun x => k))
  (at level 100, m at next level, right associativity).
Notation "m ;; k" := (bind m (fun _ => k))
  (at level 100, right associativity).

Fixpoint for_each {A} (l : list A) (body : A -> M unit) : M unit :=
  match l with
  | [] => ret tt
  | x :: l' => body x ;; for_each l' body
  end.

Definition set_installedAt (p : jstring) (this : Dependency) : Dependency :=
  {| name := name this; path := path this; version := version this;
     packagesDirectory := packagesDirectory this;
     installedAt := p; _tmpDir := _tmpDir this |}.

Definition set_tmpDir (p : jstring) (this : Dependency) : Dependency :=
  {| name := name this; path := path this; version := version this;
     packagesDirectory := packagesDirectory this;
     installedAt := installedAt this; _tmpDir := Some p |}.

Definition _throwIfInstalled : M unit :=
  this <- get_this ;;
  let target := path_join [packagesDirectory this; getName this] in
  alreadyInstalled <-
    try_catch (do (accessSync target R_OK) ;; ret true)
              (fun e => ret false) ;;
  if alreadyInstalled : bool
  then throw (AlreadyInstalledError (getName this))
  else ret tt.

Definition _getTmpDir : M jstring :=
  this <- get_this ;;
  if negb (truthy (_tmpDir this)) then
    tmp <- do tmpdir ;;
    r <- do random ;;
    let d := path_join [tmp; str "dapple"; str "packages"; drop 2 r] in
    update (set_tmpDir d) ;;
    do (emptyDirSync d) ;;
    ret d
  else ret (ToString (_tmpDir this)).

Definition _pullGit (target : jstring) : M unit :=
  this <- get_this ;;
  if negb (hasVersion this) then throw MissingVersionError
  else
    let commit := replace_empty atRegex (getVersion this) in
    if negb (test commitRegex commit) then throw (InvalidCommitError commit)
    else
      do (execSync (str "git clone " ++ getPath this ++ str " " ++ target)
            None) ;;
      do (execSync (str "git reset --hard " ++ commit) (Some target)) ;;
      do (execSync (str "git submodule init") (Some target)) ;;
      do (execSync (str "git submodule update") (Some target)).

(** The inner function [pullIPFS(hash, dest, type)] of [_pullIPFS], which
    closes over the client and [rootHash]. *)
Fixpoint pullIPFS (settings : Settings) (rootHash : jstring) (fuel : nat)
    (hash dest : jstring) (type : N) : M unit :=
  match fuel with
  | O => out_of_fuel
  | S fuel' =>
      if type =? types_dir then
        do (ensureDirSync dest) ;;
        links <- do (ls settings hash) ;;
        for_each links (fun link =>
          pullIPFS settings rootHash fuel' (Hash link)
            (path_join [dest; Name link]) (Type_ link))
      else if type =? types_file then
        data <- do (cat settings hash) ;;
        do (writeFileSync dest data)
      else throw (UnknownNodeTypeError type hash rootHash)
  end.

Definition _pullIPFS (target : jstring) : M unit :=
  settings <- do ipfs_settings ;;
  this <- get_this ;;
  let rootHash := replace_empty ipfsSchemeRegex (getPath this) in
  try_catch (do (ls settings rootHash) ;; ret tt)
            (fun e => throw IPFSConnectionError) ;;
  pullIPFS settings rootHash depth rootHash target types_dir.

Definition pull (destination : jstring) : M unit :=
  this <- get_this ;;
  if hasGitPath this then _pullGit destination
  else if hasIPFSPath this then _pullIPFS destination
  else throw (UnrecognizedSourceError (getPath this)).

Definition install : M unit :=
  this <- get_this ;;
  (if truthy (Some (getName this)) then _throwIfInstalled else ret tt) ;;
  try_catch (do (accessSync (packagesDirectory this) W_OK))
    (fun e =>
       try_catch (do (mkdirSync (packagesDirectory this)))
         (fun e => throw (PathAccessError (packagesDirectory this) e))) ;;
  this <- get_this ;;
  if truthy (Some (getName this)) then
    let installedAt := path_join [packagesDirectory this; getName this] in
    pull installedAt ;;
    update (set_installedAt installedAt)
  else
    tmpDir <- _getTmpDir ;;
    pull tmpDir ;;
    n <- do (dappfile_name tmpDir) ;;
    update (setName n) ;;
    this <- get_this ;;
    let installedAt := path_join [packagesDirectory this; getName this] in
    do (copySync tmpDir installedAt) ;;
    update (set_installedAt installedAt) ;;
    try_catch (do (removeSync tmpDir))
      (fun e => throw (CleanupError (getName this) installedAt tmpDir)).

End Installer.

(** ** A simulated environment

    One environment to run the installer in: a file system as a finite map
    from resolved paths (the segments below the root) to nodes, IPFS as a
    table of listings and a table of contents by content hash, the
    settings, the temporary directory and the random numbers to come.
    ./file.js, ./workspace.js and the IPFS client are not part of the
    sources at hand; each operation below says what it is modelled from. *)

Inductive node :=
| File (data : jstring)
| Dir.

#[global] Instance node_eq_dec : EqDecision node.
Proof. solve_decision. Defined.

Abbreviation fpath := (list jstring).

Record Sim := {
  cwd : fpath;
  files : gmap fpath node;
  undeletable : list fpath;
  ipfs_links : gmap jstring (list Link);
  ipfs_data : gmap jstring jstring;
  dapplerc : option Settings;
  os_tmpdir : jstring;
  randoms : list jstring
}.

Definition resolve_step (res : fpath) (seg : jstring) : fpath :=
  if bool_decide (seg = []) || bool_decide (seg = str ".") then res
  else if bool_decide (seg = str "..") then tail res
  else seg :: res.

(** The segments of a path below the root, the last one first while they
    are collected; a relative path starts at the working directory. *)
Definition resolve (cwd : fpath) (p : jstring) : fpath :=
  rev (fold_left resolve_step (split_slash p)
         (match p with
          | 47 :: _ => []
          | _ => rev cwd
          end)).

Definition is_file (fs : gmap fpath node) (q : fpath) : bool :=
  match fs !! q with
  | Some (File _) => true
  | _ => false
  end.

Definition is_dir (fs : gmap fpath node) (q : fpath) : bool :=
  match q, fs !! q with
  | [], _ => true
  | _, Some Dir => true
  | _, _ => false
  end.

Definition present (fs : gmap fpath node) (q : fpath) : bool :=
  match q, fs !! q with
  | [], _ => true
  | _, Some _ => true
  | _, _ => false
  end.

(** mkdir -p: every directory from [base] down along [segs]. *)
Fixpoint mkdirs (fs : gmap fpath node) (base : fpath) (segs : list jstring)
    : option (gmap fpath node) :=
  match segs with
  | [] => Some fs
  | seg :: segs' =>
      let q := base ++ [seg] in
      if is_file fs q then None else mkdirs (<[q := Dir]> fs) q segs'
  end.

Definition parent (q : fpath) : fpath := removelast q.

Definition below (q : fpath) (fs : gmap fpath node) : gmap fpath node :=
  filter (fun e => q `prefix_of` e.1) fs.

Definition strictly_below (q : fpath) (fs : gmap fpath node)
    : gmap fpath node :=
  filter (fun e => q `prefix_of` e.1 /\ e.1 <> q) fs.

Definition not_below (q : fpath) (fs : gmap fpath node) : gmap fpath node :=
  filter (fun e => ~ q `prefix_of` e.1) fs.

(** The entries at and below [src], moved to [dst]. *)
Definition moved (src dst : fpath) (fs : gmap fpath node)
    : gmap fpath node :=
  list_to_map
    (map (fun e : fpath * node => (dst ++ drop (length src) e.1, e.2))
       (map_to_list (below src fs))).

Definition with_files (w : Sim) (fs : gmap fpath node) : Sim :=
  {| cwd := cwd w; files := fs; undeletable := undeletable w;
     ipfs_links := ipfs_links w; ipfs_data := ipfs_data w;
     dapplerc := dapplerc w; os_tmpdir := os_tmpdir w;
     randoms := randoms w |}.

Definition with_randoms (w : Sim) (rs : list jstring) : Sim :=
  {| cwd := cwd w; files := files w; undeletable := undeletable w;
     ipfs_links := ipfs_links w; ipfs_data := ipfs_data w;
     dapplerc := dapplerc w; os_tmpdir := os_tmpdir w;
     randoms := rs |}.

Definition ENOENT : exn := Foreign (str "Error: ENOENT").
Definition EEXIST : exn := Foreign (str "Error: EEXIST").
Definition ENOTDIR : exn := Foreign (str "Error: ENOTDIR").
Definition EISDIR : exn := Foreign (str "Error: EISDIR").
Definition EBUSY : exn := Foreign (str "Error: EBUSY").
Definition ENETWORK : exn := Foreign (str "Error: connect ECONNREFUSED").

Definition sim_files (w : Sim) (r : option (gmap fpath node)) (e : exn)
    : reply unit * Sim :=
  match r with
  | Some fs => (Answer tt, with_files w fs)
  | None => (Raise e, w)
  end.

(** Modelled from the spec: [fs.accessSync] of ./file.js, the check of the
    installer that a path is readable or writable; permissions are not
    modelled, a path is accessible when it is there. *)
Definition sim_accessSync (p : jstring) (w : Sim) : reply unit * Sim :=
  if present (files w) (resolve (cwd w) p)
  then (Answer tt, w) else (Raise ENOENT, w).

(** Modelled from the spec: [fs.mkdirSync] of ./file.js, which creates the
    package directory: one directory, in a parent that is there. *)
Definition sim_mkdirSync (p : jstring) (w : Sim) : reply unit * Sim :=
  let q := resolve (cwd w) p in
  if present (files w) q then (Raise EEXIST, w)
  else if is_dir (files w) (parent q)
  then (Answer tt, with_files w (<[q := Dir]> (files w)))
  else (Raise ENOENT, w).

(** Modelled from the spec: [fs.copySync] of ./file.js, which copies the entire
    scratch tree to its destination; what is already at the destination
    stays unless a copied entry takes its place. *)
Definition sim_copySync (src dst : jstring) (w : Sim) : reply unit * Sim :=
  let s := resolve (cwd w) src in
  let d := resolve (cwd w) dst in
  if present (files w) s then
    sim_files w
      (fs ← mkdirs (files w) [] (parent d);
       Some (moved s d fs ∪ fs)) ENOTDIR
  else (Raise ENOENT, w).

(** Modelled from the spec: [fs.removeSync] of ./file.js, which deletes the
    scratch directory with all that is below it, or fails. *)
Definition sim_removeSync (p : jstring) (w : Sim) : reply unit * Sim :=
  let q := resolve (cwd w) p in
  if bool_decide (q ∈ undeletable w) then (Raise EBUSY, w)
  else (Answer tt, with_files w (not_below q (files w))).

(** Modelled from the spec: [fs.emptyDirSync] of ./file.js, which makes the
    freshly created scratch directory: the directory is there afterwards,
    with nothing below it. *)
Definition sim_emptyDirSync (p : jstring) (w : Sim) : reply unit * Sim :=
  let q := resolve (cwd w) p in
  sim_files w
    (fs ← mkdirs (files w) [] q;
     Some (fs ∖ strictly_below q fs)) ENOTDIR.

(** Modelled from the spec: [fs.ensureDirSync] of ./file.js, which creates the
    directory at the target path of a [dir] node, with the directories
    above it. *)
Definition sim_ensureDirSync (p : jstring) (w : Sim) : reply unit * Sim :=
  sim_files w (mkdirs (files w) [] (resolve (cwd w) p)) ENOTDIR.

(** Modelled from the spec: [fs.writeFileSync] of ./file.js, which writes the
    full content of a [file] node verbatim to the target path, in a
    directory that is there. *)
Definition sim_writeFileSync (p data : jstring) (w : Sim)
    : reply unit * Sim :=
  let q := resolve (cwd w) p in
  if is_dir (files w) q then (Raise EISDIR, w)
  else if is_dir (files w) (parent q)
  then (Answer tt, with_files w (<[q := File data]> (files w)))
  else (Raise ENOENT, w).

(** Modelled from the spec: [String(Math.random())], the source of the random
    numeric token of the scratch directory. *)
Definition sim_random (w : Sim) : reply jstring * Sim :=
  match randoms w with
  | r :: rs => (Answer r, with_randoms w rs)
  | [] => (Answer (str "0.5"), w)
  end.

(** Modelled from the spec: the workspace reader of ./workspace.js, which
    reads the manifest at the scratch root and answers its single [name]
    field; the manifest is here the file [dappfile], its text the name. *)
Definition sim_dappfile_name (root : jstring) (w : Sim)
    : reply jstring * Sim :=
  match files w !! (resolve (cwd w) root ++ [str "dappfile"]) with
  | Some (File data) => (Answer data, w)
  | _ => (Raise ENOENT, w)
  end.

(** Modelled from the spec: the settings provider of ./workspace.js, which
    answers the IPFS host and port of the live environment. *)
Definition sim_ipfs_settings (w : Sim) : reply Settings * Sim :=
  match dapplerc w with
  | Some settings => (Answer settings, w)
  | None => (Raise ENOENT, w)
  end.

(** Modelled from the spec: [ls] of the IPFS client, which lists the children of a
    content hash, each with a content hash, a name and a type tag, or
    throws. *)
Definition sim_ls (hash : jstring) (w : Sim) : reply (list Link) * Sim :=
  match ipfs_links w !! hash with
  | Some links => (Answer links, w)
  | None => (Raise ENETWORK, w)
  end.

(** Modelled from the spec: [cat(hash).read()] of the IPFS client, which reads the
    full content of a file node, or throws. *)
Definition sim_cat (hash : jstring) (w : Sim) : reply jstring * Sim :=
  match ipfs_data w !! hash with
  | Some data => (Answer data, w)
  | None => (Raise ENETWORK, w)
  end.

(** Modelled from the spec: the collaborators together.  Processes are not
    simulated: [child_process.execSync] throws. *)
Definition sim (c : call) : Sim -> reply (answer c) * Sim :=
  match c as c0 return Sim -> reply (answer c0) * Sim with
  | accessSync p _ => sim_accessSync p
  | mkdirSync p => sim_mkdirSync p
  | copySync src dst => sim_copySync src dst
  | removeSync p => sim_removeSync p
  | emptyDirSync p => sim_emptyDirSync p
  | ensureDirSync p => sim_ensureDirSync p
  | writeFileSync p data => sim_writeFileSync p data
  | execSync _ _ => fun w => (Raise ENOENT, w)
  | tmpdir => fun w => (Answer (os_tmpdir w), w)
  | random => sim_random
  | dappfile_name root => sim_dappfile_name root
  | ipfs_settings => sim_ipfs_settings
  | ls _ hash => sim_ls hash
  | cat _ hash => sim_cat hash
  end.

(** An IPFS tree: a file with its content, or a directory with its
    children, each under a name. *)
#[warnings="-register-all"]
Inductive tree :=
| TFile (data : jstring)
| TDir (children : list (jstring * tree)).

(** ** What the properties are stated with *)

(** The single-character atoms of a pattern. *)
Fixpoint classes (r : regex) : list cls :=
  match r with
  | Char c | Plus c => [c]
  | Seq r1 r2 => classes r1 ++ classes r2
  | Opt r1 | Group _ r1 => classes r1
  | Empty | Bol | Eol => []
  end.

Fixpoint has_group (n : nat) (r : regex) : bool :=
  match r with
  | Seq r1 r2 => has_group n r1 || has_group n r2
  | Opt r1 => has_group n r1
  | Group m r1 => bool_decide (m = n) || has_group n r1
  | _ => false
  end.

(** The round trip of the specification: the descriptor parsed from [s]
    is parsed again from its display string, with the same source location
    and the same version. *)
Definition reparses (s : jstring) (name : jvalue) : Prop :=
  forall d, fromDependencyString s name = Return d ->
  exists d', fromDependencyString (toString d) name = Return d' /\
             path d' = path d /\ version d' = version d.

Definition not_removeSync (c : call) : bool :=
  match c with
  | removeSync _ => false
  | _ => true
  end.

(** A computation that only adds calls of a given kind to the log. *)
Definition calls_only {W : Type} (P : call -> bool) {A : Type} (m : @M W A)
    : Prop :=
  forall (st : @State W) r st', m st = (r, st') ->
  exists new, log st' = log st ++ new /\ Forall (fun e => P e.1 = true) new.

(** A name that is one segment of a path: not empty, without [/], and
    neither [.] nor [..]. *)
Definition valid_name (n : jstring) : bool :=
  negb (bool_decide (n = [])) && negb (bool_decide (47 ∈ n)) &&
  negb (bool_decide (n = str ".")) && negb (bool_decide (n = str "..")).

(** What the segments kept by [normalize] stand for. *)
Definition kept_ok (allowAboveRoot : bool) (res : list jstring) : Prop :=
  Forall (fun seg => seg <> [] /\ seg <> str "." /\ (47 ∉ seg) /\
                     (allowAboveRoot = false -> seg <> str "..")) res.

Definition resolve_base (cwd : fpath) (p : jstring) : fpath :=
  match p with
  | 47 :: _ => []
  | _ => rev cwd
  end.

Fixpoint height (t : tree) : nat :=
  match t with
  | TFile _ => 1
  | TDir children => S (foldr (fun c h => max (height c.2) h) 0 children)
  end%nat.

(** Well-formed: in every directory the names are segments of a path and
    no two children have the same name. *)
Fixpoint wf (t : tree) : bool :=
  match t with
  | TFile _ => true
  | TDir children =>
      forallb valid_name (map fst children) &&
      bool_decide (NoDup (map fst children)) &&
      forallb (fun c => wf c.2) children
  end.

(** The tables of listings and contents hold the tree [t] under [hash],
    announced with type [type]. *)
Fixpoint stored (links : gmap jstring (list Link)) (data : gmap jstring jstring)
    (hash : jstring) (type : N) (t : tree) : bool :=
  match t with
  | TFile d => (type =? types_file) && bool_decide (data !! hash = Some d)
  | TDir children =>
      (type =? types_dir) &&
      match links !! hash with
      | Some listing =>
          (fix each (children : list (jstring * tree)) (listing : list Link)
             : bool :=
             match children, listing with
             | [], [] => true
             | (n, c) :: children', l :: listing' =>
                 bool_decide (Name l = n) &&
                 stored links data (Hash l) (Type_ l) c &&
                 each children' listing'
             | _, _ => false
             end) children listing
      | None => false
      end
  end.

Fixpoint each_stored (links : gmap jstring (list Link))
    (data : gmap jstring jstring) (children : list (jstring * tree))
    (listing : list Link) : bool :=
  match children, listing with
  | [], [] => true
  | (n, c) :: children', l :: listing' =>
      bool_decide (Name l = n) &&
      stored links data (Hash l) (Type_ l) c &&
      each_stored links data children' listing'
  | _, _ => false
  end.

(** The tree as files and directories at [q]. *)
Fixpoint entries (q : fpath) (t : tree) : gmap fpath node :=
  match t with
  | TFile d => {[ q := File d ]}
  | TDir children =>
      foldr (fun c m => m ∪ entries (q ++ [c.1]) c.2) ∅ children ∪
      {[ q := Dir ]}
  end.

Definition children_entries (q : fpath) (children : list (jstring * tree))
    : gmap fpath node :=
  foldr (fun c m => m ∪ entries (q ++ [c.1]) c.2) ∅ children.

(** Every directory above [q] is there. *)
Definition ancestors_are_dirs (fs : gmap fpath node) (q : fpath) : bool :=
  forallb (fun k => is_dir fs (take k q)) (seq 0 (length q)).

(** Nothing is at or below [q], except that a directory may already be at
    [q] when a directory is to be pulled there. *)
Definition vacant (fs : gmap fpath node) (q : fpath) (type : N) : bool :=
  forallb
    (fun e : fpath * node =>
       negb (bool_decide (q `prefix_of` e.1)) ||
       (bool_decide (e = (q, Dir)) && (type =? types_dir)))
    (map_to_list fs).

Definition anc (fs : gmap fpath node) (q : fpath) : Prop :=
  forall k, (k < length q)%nat -> is_dir fs (take k q) = true.

Definition vac (fs : gmap fpath node) (q : fpath) (type : N) : Prop :=
  forall p v, fs !! p = Some v -> q `prefix_of` p ->
  p = q /\ v = Dir /\ type = types_dir.

Abbreviation SimState := (@State Sim).

(** What a pull that has returned leaves: the object as it was, the world
    as it was but for the files, to which [m] is added, and the calls
    [calls] added to the log. *)
Definition pulled (st st' : SimState) (m : gmap fpath node)
    (calls : list (call * bool)) : Prop :=
  this st' = this st /\
  world st' = with_files (world st) (m ∪ files (world st)) /\
  log st' = log st ++ calls.

(** The calls of a depth-first walk of the tree [t] held under [hash], in
    order: a directory is created and listed, then each child is walked in
    turn, all of it before the next; a file is read, then written. *)
Fixpoint walk (links : gmap jstring (list Link)) (settings : Settings)
    (hash dest : jstring) (t : tree) : list (call * bool) :=
  match t with
  | TFile d => [(cat settings hash, true); (writeFileSync dest d, true)]
  | TDir children =>
      (ensureDirSync dest, true) :: (ls settings hash, true) ::
      match links !! hash with
      | Some listing =>
          (fix each (children : list (jstring * tree)) (listing : list Link)
             : list (call * bool) :=
             match children, listing with
             | (_, c) :: children', l :: listing' =>
                 walk links settings (Hash l) (path_join [dest; Name l]) c ++
                 each children' listing'
             | _, _ => []
             end) children listing
      | None => []
      end
  end.

Fixpoint each_walk (links : gmap jstring (list Link)) (settings : Settings)
    (dest : jstring) (children : list (jstring * tree)) (listing : list Link)
    : list (call * bool) :=
  match children, listing with
  | (_, c) :: children', l :: listing' =>
      walk links settings (Hash l) (path_join [dest; Name l]) c ++
      each_walk links settings dest children' listing'
  | _, _ => []
  end.

(** ** What the further properties are stated with *)

(** Equal but for the case of the letters [a] to [z], as a pattern with
    the [i] flag compares. *)
Definition same_ignoring_case (a b : jstring) : bool :=
  bool_decide (map (Canonicalize true) a = map (Canonicalize true) b).

(** [[a-z0-9]], the class of the version in [gitPathRegex]. *)
Definition lower_alnum : cls := Class false [(97, 122); (48, 57)].

(** A string of the class [c], under the flag [i]. *)
Definition all_of (i : bool) (c : cls) (s : jstring) : bool :=
  forallb (cls_match i c) s.

(** [Qm], in either case, and at least one more letter or digit. *)
Definition ipfs_hash (h : jstring) : bool :=
  match h with
  | q :: m :: rest =>
      same_ignoring_case [q; m] (str "Qm") &&
      negb (bool_decide (rest = [])) && all_of true alnum rest
  | _ => false
  end.

(** [undefined] for the empty string: a group that has matched nothing
    has not taken part in the match. *)
Definition group_of (s : jstring) : jvalue :=
  match s with
  | [] => None
  | _ => Some s
  end.

(** Of the generic form: no [#] before the first [@], and no line
    terminator after it. *)
Fixpoint generic_form (s : jstring) : bool :=
  match s with
  | [] => true
  | ch :: s' =>
      if ch =? 35 then false
      else if ch =? 64 then all_of false Dot s'
      else generic_form s'
  end.

(** The commands of [_pullGit], in order. *)
Definition git_commands (path commit target : jstring) : list call :=
  [execSync (str "git clone " ++ path ++ str " " ++ target) None;
   execSync (str "git reset --hard " ++ commit) (Some target);
   execSync (str "git submodule init") (Some target);
   execSync (str "git submodule update") (Some target)].

(** Calls that have returned, as the log holds them. *)
Definition returned (calls : list call) : list (call * bool) :=
  map (fun c => (c, true)) calls.

Definition is_execSync (c : call) : bool :=
  match c with
  | execSync _ _ => true
  | _ => false
  end.

(** The calls of the IPFS strategy. *)
Definition ipfs_call (c : call) : bool :=
  match c with
  | ipfs_settings | ls _ _ | cat _ _ | ensureDirSync _ | writeFileSync _ _ =>
      true
  | _ => false
  end.

(** The calls that have to do with the scratch directory. *)
Definition scratch_call (c : call) : bool :=
  match c with
  | tmpdir | random | emptyDirSync _ | copySync _ _ | removeSync _
  | dappfile_name _ => true
  | _ => false
  end.

(** A computation that leaves the object as it is and only adds calls of a
    given kind to the log. *)
Definition quiet {W : Type} (P : call -> bool) {A : Type} (m : @M W A)
    : Prop :=
  forall (st : @State W) r st', m st = (r, st') ->
  this st' = this st /\
  exists new, log st' = log st ++ new /\ Forall (fun e => P e.1 = true) new.

Definition is_mkdirSync (c : call) : bool :=
  match c with
  | mkdirSync _ => true
  | _ => false
  end.

(** What checking the package directory, and creating it when the check
    fails, has added to the log when it has returned. *)
Definition made_ready (pd : jstring) (made : list (call * bool)) : Prop :=
  made = [(accessSync pd W_OK, true)] \/
  made = [(accessSync pd W_OK, false); (mkdirSync pd, true)].

(** What a [pull] to [target] that has returned has added to the log:
    the four commands for a git path, otherwise calls of the IPFS
    strategy, the path being an IPFS path. *)
Definition fetched_by (this : Dependency) (target : jstring)
    (fetched : list (call * bool)) : Prop :=
  if hasGitPath this then
    fetched =
      returned (git_commands (getPath this)
                  (replace_empty atRegex (getVersion this)) target)
  else
    hasIPFSPath this = true /\
    Forall (fun e : call * bool => ipfs_call e.1 = true) fetched.

(** A log of a computation that has not gone on after a call that failed:
    every call but the last has returned, and the last too when the
    computation has returned. *)
Definition stops_at_failure {A : Type} (new : list (call * bool))
    (r : outcome A) : Prop :=
  Forall (fun e : call * bool => e.2 = true) (removelast new) /\
  (forall a, r = Return a -> Forall (fun e : call * bool => e.2 = true) new).

Definition strict {W A : Type} (m : @M W A) : Prop :=
  forall (st : @State W) r st', m st = (r, st') ->
  exists new, log st' = log st ++ new /\ stops_at_failure new r.

(** The world that calls made one after the other leave, each answered in
    the world the one before it has left. *)
Fixpoint world_after {W : Type}
    (env : forall c : call, W -> reply (answer c) * W)
    (calls : list call) (w : W) : W :=
  match calls with
  | [] => w
  | c :: calls' => world_after env calls' (env c w).2
  end.

(** A computation of which the log tells the world: the calls it has
    added to the log are the calls that have been made, in that order. *)
Definition traced {W A : Type}
    (env : forall c : call, W -> reply (answer c) * W) (m : @M W A) : Prop :=
  forall (st : @State W) r st', m st = (r, st') ->
  exists new,
    log st' = log st ++ new /\
    world st' = world_after env (map fst new) (world st).

(** What has been built between two states of the simulated environment:
    the object and the working directory are as they were, what was there
    is still there, and every directory that [ensureDirSync] has made
    since is there. *)
Definition built (st st' : SimState) : Prop :=
  this st' = this st /\
  cwd (world st') = cwd (world st) /\
  (forall q, present (files (world st)) q = true ->
             present (files (world st')) q = true) /\
  exists new,
    log st' = log st ++ new /\
    forall p, (ensureDirSync p, true) ∈ new ->
      present (files (world st')) (resolve (cwd (world st')) p) = true.

(** A computation that only builds. *)
Definition builds {A : Type} (m : @M Sim A) : Prop :=
  forall (st : SimState) r st', m st = (r, st') -> built st st'.

(** ** Examples in the simulated environment *)

Definition mklink (hash name : string) (type : N) : Link :=
  {| Hash := str hash; Name := str name; Type_ := type |}.

(** The tree of the specification, [root(dir) -> {a.txt, sub(dir) ->
    {b.txt}}], and a package with a manifest. *)
Definition example_tree : tree :=
  TDir [(str "a.txt", TFile (str "X"));
        (str "sub", TDir [(str "b.txt", TFile (str "Y"))])].

Definition example_settings : Settings :=
  {| host := str "localhost"; port := str "5001" |}.

Definition example_world : Sim :=
  {| cwd := [str "home"; str "project"];
     files := {[ [str "home"] := Dir;
                 [str "home"; str "project"] := Dir;
                 [str "home"; str "project"; str "dapple_packages"] := Dir;
                 [str "tmp"] := Dir ]};
     undeletable := [];
     ipfs_links :=
       {[ str "QmRoot" := [mklink "QmA" "a.txt" 2; mklink "QmSub" "sub" 1];
          str "QmSub" := [mklink "QmB" "b.txt" 2];
          str "QmPkg" := [mklink "QmA" "a.txt" 2; mklink "QmD" "dappfile" 2];
          str "QmFile" := [];
          str "QmOdd" := [mklink "QmA" "a.txt" 2; mklink "QmL" "link" 4;
                          mklink "QmB" "b.txt" 2] ]};
     ipfs_data :=
       {[ str "QmA" := str "X"; str "QmB" := str "Y"; str "QmD" := str "pkg";
          str "QmFile" := str "F" ]};
     dapplerc := Some example_settings;
     os_tmpdir := str "/tmp";
     randoms := [str "0.12345"; str "0.6789"] |}.

Definition start (this : Dependency) (w : Sim) : SimState :=
  {| this := this; world := w; log := [] |}.

Definition example_dependency : Dependency :=
  {| name := []; path := str "ipfs://QmPkg"; version := str "QmPkg";
     packagesDirectory := str "dapple_packages"; installedAt := [];
     _tmpDir := None |}.

Definition with_path (p : string) (this : Dependency) : Dependency :=
  {| name := name this; path := str p; version := version this;
     packagesDirectory := packagesDirectory this;
     installedAt := installedAt this; _tmpDir := _tmpDir this |}.

Definition pkg_path : fpath :=
  [str "home"; str "project"; str "dapple_packages"; str "pkg"].

Definition scratch_path : fpath :=
  [str "tmp"; str "dapple"; str "packages"; str "12345"].

(** A world in which a package [pkg] is already installed. *)
Definition installed_world : Sim :=
  with_files example_world
    (<[pkg_path ++ [str "old.txt"] := File (str "old")]>
       (<[pkg_path := Dir]> (files example_world))).

(** A world in which the scratch directory cannot be deleted. *)
Definition sticky_world : Sim :=
  {| cwd := cwd example_world; files := files example_world;
     undeletable := [scratch_path];
     ipfs_links := ipfs_links example_world;
     ipfs_data := ipfs_data example_world;
     dapplerc := dapplerc example_world;
     os_tmpdir := os_tmpdir example_world;
     randoms := randoms example_world |}.

Definition git_dependency : Dependency :=
  {| name := []; path := str "https://github.com/nexusdev/dapple.git";
     version := str "not-hex!!";
     packagesDirectory := str "dapple_packages"; installedAt := [];
     _tmpDir := None |}.

(** A descriptor as the constructor leaves it. *)
Definition descriptor (name path version : string) : Dependency :=
  {| name := str name; path := str path; version := str version;
     packagesDirectory := str "dapple_packages"; installedAt := [];
     _tmpDir := None |}.

(** A world in which [/tmp] is a file, so that no scratch directory can be
    made. *)
Definition blocked_world : Sim :=
  with_files example_world
    (<[[str "tmp"] := File []]> (files example_world)).

(** A world in which the working directory is not there, so that the
    package directory can be neither reached nor made. *)
Definition lost_world : Sim :=
  {| cwd := [str "gone"]; files := files example_world;
     undeletable := undeletable example_world;
     ipfs_links := ipfs_links example_world;
     ipfs_data := ipfs_data example_world;
     dapplerc := dapplerc example_world;
     os_tmpdir := os_tmpdir example_world;
     randoms := randoms example_world |}.

(** A world in which the hash [QmEvil] lists a file under the name
    [../evil.txt]. *)
Definition hostile_world : Sim :=
  {| cwd := cwd example_world; files := files example_world;
     undeletable := undeletable example_world;
     ipfs_links :=
       <[str "QmEvil" := [mklink "QmA" "../evil.txt" 2]]>
         (ipfs_links example_world);
     ipfs_data := ipfs_data example_world;
     dapplerc := dapplerc example_world;
     os_tmpdir := os_tmpdir example_world;
     randoms := randoms example_world |}.

(** An environment in which processes run, for the examples of the git
    strategy: the world is the number of commands that will still run, and
    a command started after those fails, with its command line in the
    error.  Every other call returns. *)
Definition running (c : call) : nat -> reply (answer c) * nat :=
  match c as c0 return nat -> reply (answer c0) * nat with
  | execSync command _ => fun n =>
      match n with
      | O => (Raise (Foreign (str "Error: Command failed: " ++ command)), O)
      | S n' => (Answer tt, n')
      end
  | accessSync _ _ => fun n => (Answer tt, n)
  | mkdirSync _ => fun n => (Answer tt, n)
  | copySync _ _ => fun n => (Answer tt, n)
  | removeSync _ => fun n => (Answer tt, n)
  | emptyDirSync _ => fun n => (Answer tt, n)
  | ensureDirSync _ => fun n => (Answer tt, n)
  | writeFileSync _ _ => fun n => (Answer tt, n)
  | tmpdir => fun n => (Answer (str "/tmp"), n)
  | random => fun n => (Answer (str "0.12345"), n)
  | dappfile_name _ => fun n => (Answer (str "dapple"), n)
  | ipfs_settings => fun n => (Answer example_settings, n)
  | ls _ _ => fun n => (Answer [], n)
  | cat _ _ => fun n => (Answer [], n)
  end.

(** * Properties *)

(** ** The matcher *)

Lemma or_str_nil (s : jstring) : or_str (Some s) [] = s.
Proof. destruct s; reflexivity. Qed.

Lemma or_str_falsy (v : jvalue) : truthy v = false -> or_str v [] = [].
Proof. destruct v as [[|c s]|]; simpl; congruence. Qed.

Lemma or_str_empty (v : jvalue) : or_str v [] = [] -> truthy v = false.
Proof. destruct v as [[|c s]|]; simpl; congruence. Qed.

(** Every continuation call of [repeat_plus] is at a position further on. *)
Lemma repeat_plus_none p (s : jstring) k :
  (forall s1, s1 `suffix_of` s -> k s1 = None) -> repeat_plus p s k = None.
Proof.
  induction s as [|ch s IH]; intros Hk; simpl; [reflexivity|].
  destruct (p ch); [|reflexivity].
  rewrite IH.
  - apply Hk. apply suffix_cons_r. reflexivity.
  - intros s1 Hs1. apply Hk. apply suffix_cons_r. exact Hs1.
Qed.

(** A pattern fails where its continuation fails at every later position. *)
Lemma matcher_none i input r :
  forall (s : jstring) caps k,
    (forall s1 c1, s1 `suffix_of` s -> k s1 c1 = None) ->
    matcher i input r s caps k = None.
Proof.
  induction r as [|c|r1 IH1 r2 IH2|c|r1 IH1|n r1 IH1| |];
    intros s caps k Hk; simpl.
  - apply Hk. reflexivity.
  - destruct s as [|ch s']; [reflexivity|].
    destruct (cls_match i c ch); [|reflexivity].
    apply Hk. apply suffix_cons_r. reflexivity.
  - apply IH1. intros s1 c1 Hs1. apply IH2.
    intros s2 c2 Hs2. apply Hk. etrans; eassumption.
  - apply repeat_plus_none. intros s1 Hs1. apply Hk. exact Hs1.
  - rewrite IH1.
    + apply Hk. reflexivity.
    + intros s1 c1 Hs1. destruct (length s1 =? length s)%nat; [reflexivity|].
      apply Hk. exact Hs1.
  - apply IH1. intros s1 c1 Hs1. apply Hk. exact Hs1.
  - destruct (length s =? length input)%nat; [|reflexivity].
    apply Hk. reflexivity.
  - destruct s; [|reflexivity]. apply Hk. reflexivity.
Qed.

(** Where [c+] succeeds it has taken a non-empty run of characters of the
    class and the continuation has succeeded after them. *)
Lemma repeat_plus_inv p (s : jstring) k r :
  repeat_plus p s k = Some r ->
  exists n, (0 < n <= length s)%nat /\ forallb p (take n s) = true /\
            k (drop n s) = Some r.
Proof.
  revert r. induction s as [|ch s IH]; intros r; simpl; [discriminate|].
  destruct (p ch) eqn:Hp; [|discriminate].
  destruct (repeat_plus p s k) as [r'|] eqn:Hrec.
  - intros [= ->]. destruct (IH r eq_refl) as (n & Hn & Hall & Hk).
    exists (S n). simpl. rewrite Hp, Hall. split; [lia|]. split; [reflexivity|exact Hk].
  - intros Hk. exists 1%nat. simpl. rewrite Hp.
    split; [lia|]. split; [reflexivity|exact Hk].
Qed.

(** [c+] is greedy: on a run that reaches the end of the input it tries the
    end first. *)
Lemma repeat_plus_all p (s : jstring) k r :
  s <> [] -> forallb p s = true -> k [] = Some r ->
  repeat_plus p s k = Some r.
Proof.
  intros Hne Hall Hk. induction s as [|ch s IH]; [congruence|].
  simpl in *. apply andb_prop in Hall as [Hp Hall]. rewrite Hp.
  destruct s as [|ch' s'].
  - simpl. exact Hk.
  - rewrite IH; [reflexivity|discriminate|exact Hall].
Qed.

(** A pattern that starts with [^] matches at the start of the input only. *)
Lemma matcher_Bol i input r (s : jstring) caps k :
  matcher i input (Seq Bol r) s caps k =
  if (length s =? length input)%nat then matcher i input r s caps k else None.
Proof. reflexivity. Qed.

Lemma search_Bol re input (s : jstring) r :
  source re = Seq Bol r -> (length s < length input)%nat ->
  search re input s = None.
Proof.
  intros Hsrc. induction s as [|ch s IH]; intros Hlen;
    cbn [search]; rewrite Hsrc, matcher_Bol.
  - destruct (Nat.eqb_spec (length (@nil N)) (length input)) as [E|_];
      [simpl in *; lia|reflexivity].
  - destruct (Nat.eqb_spec (length (ch :: s)) (length input)) as [E|_];
      [lia|].
    apply IH. simpl in Hlen. lia.
Qed.

Lemma search_anchored re (input : jstring) r :
  source re = Seq Bol r ->
  search re input input =
    match matcher (ignoreCase re) input r input
            (replicate (S (ngroups re)) None) (fun s1 c1 => Some (s1, c1)) with
    | Some (s1, c1) => Some (input, s1, c1)
    | None => None
    end.
Proof.
  intros Hsrc. destruct input as [|ch s];
    cbn [search]; rewrite Hsrc, matcher_Bol, Nat.eqb_refl.
  - destruct (matcher _ _ _ _ _ _) as [[? ?]|]; reflexivity.
  - destruct (matcher _ _ _ _ _ _) as [[? ?]|]; [reflexivity|].
    apply (search_Bol _ _ _ r Hsrc). simpl. lia.
Qed.

(** Where a pattern succeeds its continuation has succeeded at a later
    position, with as many captures as before, those of the groups that are
    not in the pattern unchanged. *)
Lemma matcher_some i input r :
  forall (s : jstring) caps k res,
    matcher i input r s caps k = Some res ->
    exists s1 c1,
      k s1 c1 = Some res /\ s1 `suffix_of` s /\ length c1 = length caps /\
      forall n, has_group n r = false -> c1 !! n = caps !! n.
Proof.
  induction r as [|c|r1 IH1 r2 IH2|c|r1 IH1|m r1 IH1| |];
    intros s caps k res; cbn [matcher has_group].
  - intros H. exists s, caps. repeat split; [exact H|reflexivity].
  - destruct s as [|ch s']; [discriminate|].
    destruct (cls_match i c ch); [|discriminate].
    intros H. exists s', caps.
    repeat split; [exact H|apply suffix_cons_r; reflexivity].
  - intros H. apply IH1 in H as (s1 & c1 & H & Hs1 & Hl1 & Hg1).
    apply IH2 in H as (s2 & c2 & H & Hs2 & Hl2 & Hg2).
    exists s2, c2. repeat split; [exact H|etrans; eassumption|congruence|].
    intros n Hn. apply orb_false_elim in Hn as [Hn1 Hn2].
    rewrite Hg2, Hg1; auto.
  - intros H. apply repeat_plus_inv in H as (n & Hn & _ & H).
    exists (drop n s), caps. repeat split; [exact H|apply suffix_drop].
  - destruct (matcher i input r1 s caps _) as [x|] eqn:E.
    + intros [= ->]. apply IH1 in E as (s1 & c1 & H & Hs1 & Hl1 & Hg1).
      destruct (length s1 =? length s)%nat; [discriminate|].
      exists s1, c1. repeat split; assumption.
    + intros H. exists s, caps. repeat split; [exact H|reflexivity].
  - intros H. apply IH1 in H as (s1 & c1 & H & Hs1 & Hl1 & Hg1).
    eexists s1, _. split; [exact H|]. split; [exact Hs1|].
    split; [rewrite length_insert; exact Hl1|].
    intros n Hn. apply orb_false_elim in Hn as [Hmn Hn].
    apply bool_decide_eq_false in Hmn.
    rewrite list_lookup_insert_ne by exact Hmn. auto.
  - destruct (length s =? length input)%nat; [|discriminate].
    intros H. exists s, caps. repeat split; [exact H|reflexivity].
  - destruct s; [|discriminate].
    intros H. exists [], caps. repeat split; [exact H|reflexivity].
Qed.

Lemma between_drop (s : jstring) n :
  (n <= length s)%nat -> between s (drop n s) = take n s.
Proof.
  intros Hn. unfold between. rewrite length_drop.
  replace (length s - (length s - n))%nat with n by lia. reflexivity.
Qed.

Lemma between_nil (s : jstring) : between s [] = s.
Proof. unfold between. simpl. rewrite Nat.sub_0_r. apply firstn_all. Qed.

Lemma take_nonempty (s : jstring) n :
  (0 < n <= length s)%nat -> take n s <> [].
Proof. destruct n, s; simpl; intros; try lia; discriminate. Qed.

Lemma piece_insert_0 (c : captures) v n :
  n <> 0%nat -> piece (<[0%nat := v]> c) n = piece c n.
Proof.
  intros Hn. unfold piece. rewrite list_lookup_insert_ne by congruence.
  reflexivity.
Qed.

(** ** The patterns of the parser *)

Lemma notAtHash_not_at ch : cls_match false notAtHash ch = true -> ch <> 64.
Proof. intros H ->. vm_compute in H. discriminate. Qed.

Lemma at_only_at ch : ch <> 64 -> cls_match true (Chr 64) ch = false.
Proof.
  intros Hne. unfold cls_match.
  change (Canonicalize true 64) with 64. unfold Canonicalize. cbn [andb].
  destruct ((97 <=? ch) && (ch <=? 122)) eqn:E.
  - apply andb_prop in E as [E1 E2].
    apply N.leb_le in E1. apply N.leb_le in E2.
    apply N.eqb_neq. lia.
  - apply N.eqb_neq. congruence.
Qed.

Lemma matcher_Seq i input r1 r2 (s : jstring) caps k :
  matcher i input (Seq r1 r2) s caps k =
  matcher i input r1 s caps (fun s1 c1 => matcher i input r2 s1 c1 k).
Proof. reflexivity. Qed.

Lemma matcher_Opt_inv i input r (s : jstring) caps k res :
  matcher i input (Opt r) s caps k = Some res ->
  matcher i input r s caps
    (fun s1 c1 => if (length s1 =? length s)%nat then None else k s1 c1)
  = Some res \/ k s caps = Some res.
Proof.
  cbn [matcher]. destruct (matcher i input r s caps _) as [x|].
  - intros [= ->]. left. reflexivity.
  - intros H. right. exact H.
Qed.

Lemma Group_Plus_inv i input n c (s : jstring) caps k res :
  matcher i input (Group n (Plus c)) s caps k = Some res ->
  exists m, (0 < m <= length s)%nat /\
            forallb (cls_match i c) (take m s) = true /\
            k (drop m s) (<[n := Some (take m s)]> caps) = Some res.
Proof.
  cbn [matcher]. intros H.
  apply repeat_plus_inv in H as (m & Hm & Hall & H).
  exists m. rewrite between_drop in H by lia. auto.
Qed.

Lemma Group_Plus_all i input n c (s : jstring) caps k res :
  s <> [] -> forallb (cls_match i c) s = true ->
  k [] (<[n := Some s]> caps) = Some res ->
  matcher i input (Group n (Plus c)) s caps k = Some res.
Proof.
  intros Hne Hall H. cbn [matcher].
  apply repeat_plus_all; [exact Hne|exact Hall|].
  rewrite between_nil. exact H.
Qed.

(** The git form needs an [@]. *)
Lemma gitPathRegex_needs_at input (s : jstring) :
  Forall (fun ch => ch <> 64) s -> search gitPathRegex input s = None.
Proof.
  induction s as [|ch s IH]; intros Hall.
  - vm_compute. destruct input; reflexivity.
  - cbn [search]. rewrite IH by (inversion Hall; assumption).
    change (source gitPathRegex) with
      (Seq Bol (Seq (Group 1 (Plus Dot +++ Char Dot +++ lit "git"))
                  ((chr "@" +++ Group 2 (Plus (Class false [(97, 122); (48, 57)])))
                   +++ Eol)))%re.
    rewrite matcher_Bol.
    destruct (length (ch :: s) =? length input)%nat; [|reflexivity].
    rewrite matcher_Seq, matcher_none; [reflexivity|].
    intros s1 c1 Hs1. destruct s1 as [|ch1 s1']; [reflexivity|].
    cbn [matcher chr].
    change (cls_match _ _ ch1) with (cls_match true (Chr 64) ch1).
    rewrite at_only_at; [reflexivity|].
    rewrite Forall_forall in Hall. apply Hall.
    destruct Hs1 as [pre ->]. rewrite elem_of_app. right. left.
Qed.

(** In the git form the version is not empty. *)
Lemma gitPathRegex_version (s : jstring) pieces :
  exec gitPathRegex s = Some pieces -> truthy (piece pieces 2) = true.
Proof.
  unfold exec.
  rewrite (search_anchored gitPathRegex s
    (Seq (Group 1 (Plus Dot +++ Char Dot +++ lit "git"))
       ((chr "@" +++ Group 2 (Plus (Class false [(97, 122); (48, 57)])))
        +++ Eol))%re eq_refl).
  destruct (matcher _ _ _ _ _ _) as [[s1 c1]|] eqn:E; [|discriminate].
  intros [= <-]. rewrite piece_insert_0 by discriminate.
  rewrite matcher_Seq in E.
  apply matcher_some in E as (s2 & c2 & E & _ & Hlen & _).
  rewrite matcher_Seq, matcher_Seq in E.
  destruct s2 as [|ch s2]; [discriminate|].
  cbn [matcher chr] in E.
  destruct (cls_match _ _ ch); [|discriminate].
  apply repeat_plus_inv in E as (n & Hn & _ & E).
  destruct (drop n s2) eqn:Hdrop; [|discriminate].
  injection E as <- <-.
  unfold piece. rewrite list_lookup_insert_eq.
  - rewrite <- Hdrop, between_drop by lia.
    pose proof (take_nonempty s2 n Hn). destruct (take n s2); [congruence|reflexivity].
  - rewrite Hlen. simpl. lia.
Qed.

(** A non-empty run of characters other than [@] and [#] is a path of the
    generic form, without a version. *)
Lemma pathRegex_plain (p1 : jstring) :
  p1 <> [] -> forallb (cls_match false notAtHash) p1 = true ->
  exec pathRegex p1 = Some [Some p1; Some p1; None].
Proof.
  intros Hne Hall. unfold exec.
  rewrite (search_anchored pathRegex p1
    (Opt (Group 1 (Plus notAtHash)) +++
     Opt (chr "@" +++ Opt (Group 2 (Plus Dot))) +++ Eol)%re eq_refl).
  rewrite matcher_Seq.
  assert (matcher (ignoreCase pathRegex) p1 (Opt (Group 1 (Plus notAtHash))) p1
            (replicate (S (ngroups pathRegex)) None)
            (fun s1 c1 =>
               matcher (ignoreCase pathRegex) p1
                 (Opt (chr "@" +++ Opt (Group 2 (Plus Dot))) +++ Eol)%re s1 c1
                 (fun s2 c2 => Some (s2, c2)))
          = Some ([], [None; Some p1; None])) as ->.
  { cbn [matcher]. erewrite repeat_plus_all; [reflexivity|exact Hne|exact Hall|].
    destruct p1; [congruence|]. rewrite between_nil. reflexivity. }
  rewrite between_nil. reflexivity.
Qed.

(** What a pattern has matched is made of characters its atoms accept. *)
Lemma matcher_consumed i input r (Q : N -> Prop) :
  Forall (fun c => forall ch, cls_match i c ch = true -> Q ch) (classes r) ->
  forall (s : jstring) caps k res,
    matcher i input r s caps k = Some res ->
    exists pre s1 c1,
      s = pre ++ s1 /\ Forall Q pre /\ k s1 c1 = Some res /\
      length c1 = length caps /\
      forall n, has_group n r = false -> c1 !! n = caps !! n.
Proof.
  induction r as [|c|r1 IH1 r2 IH2|c|r1 IH1|m r1 IH1| |];
    intros HQ s caps k res; cbn [matcher has_group classes] in *.
  - intros H. exists [], s, caps. repeat split; auto.
  - destruct s as [|ch s']; [discriminate|].
    destruct (cls_match i c ch) eqn:Ec; [|discriminate].
    intros H. exists [ch], s', caps. repeat split; auto.
    constructor; [|constructor]. inversion HQ; subst. auto.
  - apply Forall_app in HQ as [HQ1 HQ2].
    intros H. apply (IH1 HQ1) in H as (pre1 & s1 & c1 & -> & Hp1 & H & Hl1 & Hg1).
    apply (IH2 HQ2) in H as (pre2 & s2 & c2 & -> & Hp2 & H & Hl2 & Hg2).
    exists (pre1 ++ pre2), s2, c2. rewrite <- app_assoc.
    repeat split; [apply Forall_app; auto|exact H|congruence|].
    intros n Hn. apply orb_false_elim in Hn as [Hn1 Hn2].
    rewrite Hg2, Hg1; auto.
  - intros H. apply repeat_plus_inv in H as (n & Hn & Hall & H).
    exists (take n s), (drop n s), caps. rewrite take_drop.
    repeat split; auto.
    inversion HQ as [|? ? Hc _]; subst.
    apply Forall_forall. intros ch Hch. apply Hc.
    rewrite forallb_forall in Hall. apply Hall.
    apply list_elem_of_In. exact Hch.
  - destruct (matcher i input r1 s caps _) as [x|] eqn:E.
    + intros [= ->].
      apply (IH1 HQ) in E as (pre & s1 & c1 & -> & Hp & H & Hl & Hg).
      destruct (length s1 =? length (pre ++ s1))%nat; [discriminate|].
      exists pre, s1, c1. repeat split; assumption.
    + intros H. exists [], s, caps. repeat split; auto.
  - intros H. apply (IH1 HQ) in H as (pre & s1 & c1 & -> & Hp & H & Hl & Hg).
    eexists pre, s1, _. split; [reflexivity|]. split; [exact Hp|].
    split; [exact H|]. split; [rewrite length_insert; exact Hl|].
    intros n Hn. apply orb_false_elim in Hn as [Hmn Hn].
    apply bool_decide_eq_false in Hmn.
    rewrite list_lookup_insert_ne by exact Hmn. auto.
  - destruct (length s =? length input)%nat; [|discriminate].
    intros H. exists [], s, caps. repeat split; auto.
  - destruct s; [|discriminate].
    intros H. exists [], [], caps. repeat split; auto.
Qed.

Lemma between_app (pre s1 : jstring) : between (pre ++ s1) s1 = pre.
Proof.
  unfold between. rewrite length_app.
  replace (length pre + length s1 - length s1)%nat with (length pre) by lia.
  apply take_app_length.
Qed.

Lemma at_inv i ch : cls_match i (Chr 64) ch = true -> ch = 64.
Proof.
  destruct i.
  - intros H. destruct (N.eq_dec ch 64) as [E|E]; [exact E|].
    rewrite at_only_at in H by exact E. discriminate.
  - unfold cls_match, Canonicalize. cbn [andb].
    intros H. apply N.eqb_eq in H. congruence.
Qed.

(** The git form is [path@version]. *)
Lemma gitPathRegex_pieces (s : jstring) pieces :
  exec gitPathRegex s = Some pieces ->
  exists p v, piece pieces 1 = Some p /\ piece pieces 2 = Some v /\
              s = p ++ 64 :: v.
Proof.
  unfold exec.
  rewrite (search_anchored gitPathRegex s
    (Seq (Group 1 (Plus Dot +++ Char Dot +++ lit "git"))
       ((chr "@" +++ Group 2 (Plus (Class false [(97, 122); (48, 57)])))
        +++ Eol))%re eq_refl).
  destruct (matcher _ _ _ _ _ _) as [[s1 c1]|] eqn:E; [|discriminate].
  intros [= <-]. rewrite !piece_insert_0 by discriminate.
  rewrite matcher_Seq in E.
  change (matcher ?i ?inp (Group 1 ?x) ?s0 ?c ?k)
    with (matcher i inp x s0 c
            (fun s1 c1 => k s1 (<[1%nat := Some (between s0 s1)]> c1))) in E.
  apply (matcher_consumed _ _ _ (fun _ => True)) in E
    as (pre & s2 & c2 & -> & _ & E & Hlen & _);
    [|apply Forall_forall; auto].
  rewrite between_app in E.
  rewrite matcher_Seq, matcher_Seq in E.
  destruct s2 as [|ch s2]; [discriminate|].
  cbn [matcher chr] in E.
  destruct (cls_match _ _ ch) eqn:Ech; [|discriminate].
  apply at_inv in Ech. subst ch.
  apply repeat_plus_inv in E as (n & Hn & _ & E).
  destruct (drop n s2) eqn:Hdrop; [|discriminate].
  injection E as <- <-.
  assert (Hs2 : between s2 [] = s2) by apply between_nil.
  exists pre, s2. unfold piece.
  rewrite list_lookup_insert_ne by discriminate.
  rewrite !list_lookup_insert_eq
    by (rewrite ?length_insert, Hlen; simpl; lia).
  rewrite Hs2. auto.
Qed.

Lemma drop_nil_take (s : jstring) n : drop n s = [] -> take n s = s.
Proof.
  intros H. rewrite <- (take_drop n s) at 2. rewrite H, app_nil_r. reflexivity.
Qed.

(** After the path of the generic form: nothing, [@], or [@version]. *)
Lemma pathRegex_tail input (s1 : jstring) caps1 res :
  length caps1 = 3%nat ->
  matcher false input (Opt (chr "@" +++ Opt (Group 2 (Plus Dot))) +++ Eol)%re
    s1 caps1 (fun s2 c2 => Some (s2, c2)) = Some res ->
  ((s1 = [] \/ s1 = [64]) /\ res.2 = caps1) \/
  (exists v, v <> [] /\ s1 = 64 :: v /\ res.2 = <[2%nat := Some v]> caps1).
Proof.
  intros Hlen E. rewrite matcher_Seq in E.
  apply matcher_Opt_inv in E as [E|E].
  - rewrite matcher_Seq in E.
    destruct s1 as [|ch s2]; [discriminate|].
    cbn [matcher chr] in E.
    destruct (cls_match _ _ ch) eqn:Ech; [|discriminate].
    apply at_inv in Ech. subst ch.
    match type of E with
    | match ?m with Some x => Some x | None => _ end = _ =>
        destruct m as [x|] eqn:E2
    end.
    + injection E as ->.
      apply repeat_plus_inv in E2 as (n & Hn & _ & E2).
      destruct (length (drop n s2) =? length s2)%nat; [discriminate|].
      match type of E2 with
      | (if ?b then _ else _) = _ => destruct b; [discriminate|]
      end.
      destruct (drop n s2) eqn:Hdrop; [|discriminate].
      injection E2 as <-. right. exists s2.
      rewrite between_nil. split; [|auto].
      intros ->. simpl in Hn. lia.
    + match type of E with
      | (if ?b then _ else _) = _ => destruct b; [discriminate|]
      end.
      destruct s2; [|discriminate].
      injection E as <-. left. auto.
  - destruct s1; [|discriminate].
    injection E as <-. left. auto.
Qed.

(** The generic form is [path], [path@] or [path@version], each part
    possibly absent. *)
Lemma pathRegex_pieces (s : jstring) pieces :
  exec pathRegex s = Some pieces ->
  (piece pieces 1 = None \/
   exists p1, piece pieces 1 = Some p1 /\ p1 <> [] /\
              forallb (cls_match false notAtHash) p1 = true) /\
  ((piece pieces 2 = None /\
    (s = or_str (piece pieces 1) [] \/ s = or_str (piece pieces 1) [] ++ [64]))
   \/
   (exists v, piece pieces 2 = Some v /\ v <> [] /\
              s = or_str (piece pieces 1) [] ++ 64 :: v)).
Proof.
  unfold exec.
  rewrite (search_anchored pathRegex s
    (Opt (Group 1 (Plus notAtHash)) +++
     Opt (chr "@" +++ Opt (Group 2 (Plus Dot))) +++ Eol)%re eq_refl).
  destruct (matcher _ _ _ _ _ _) as [[s1 c1]|] eqn:E; [|discriminate].
  intros [= <-]. rewrite !piece_insert_0 by discriminate.
  rewrite matcher_Seq in E. apply matcher_Opt_inv in E as [E|E].
  - apply Group_Plus_inv in E as (n & Hn & Hall & E).
    destruct (length (drop n s) =? length s)%nat; [discriminate|].
    apply pathRegex_tail in E; [|reflexivity]. cbn [snd] in E.
    assert (Hp1 : take n s <> []) by (apply take_nonempty; lia).
    destruct E as [[Hs1 ->]|(v & Hv & Hs1 & ->)]; unfold piece;
      cbn [lookup list_lookup insert list_insert replicate ngroups pathRegex].
    + split; [right; exists (take n s); auto|].
      left. split; [reflexivity|].
      rewrite or_str_nil. rewrite <- (take_drop n s) at 1 3.
      destruct Hs1 as [-> | ->]; [left; apply app_nil_r|right; reflexivity].
    + split; [right; exists (take n s); auto|].
      right. exists v. split; [reflexivity|]. split; [exact Hv|].
      rewrite or_str_nil. rewrite <- (take_drop n s) at 1. rewrite Hs1.
      reflexivity.
  - apply pathRegex_tail in E; [|reflexivity]. cbn [snd] in E.
    destruct E as [[Hs1 ->]|(v & Hv & Hs1 & ->)]; unfold piece;
      cbn [lookup list_lookup insert list_insert replicate ngroups pathRegex].
    + split; [left; reflexivity|]. left. split; [reflexivity|].
      destruct Hs1 as [-> | ->]; [left|right]; reflexivity.
    + split; [left; reflexivity|]. right. exists v. auto.
Qed.

Lemma classes_reject i r ch :
  forallb (fun c => negb (cls_match i c ch)) (classes r) = true ->
  Forall (fun c => forall ch', cls_match i c ch' = true -> ch' <> ch)
    (classes r).
Proof.
  rewrite forallb_forall. intros H. apply Forall_forall. intros c Hc ch' Hm ->.
  apply list_elem_of_In, H in Hc. rewrite Hm in Hc. discriminate.
Qed.

(** A string that passes the IPFS test is, after at most one [@] in front,
    free of [@]. *)
Lemma ipfsHashRegex_shape (x : jstring) :
  test ipfsHashRegex x = true ->
  exists pre rest, x = pre ++ rest /\ (pre = [] \/ pre = [64]) /\ 64 ∉ rest.
Proof.
  unfold test.
  rewrite (search_anchored ipfsHashRegex x
    (Opt (chr "@") +++ Opt (Group 1 (lit "ipfs://")) +++
     lit "Qm" +++ Plus alnum +++ Eol)%re eq_refl).
  destruct (matcher _ _ _ _ _ _) as [[s1 c1]|] eqn:E; [|discriminate].
  intros _. rewrite matcher_Seq in E.
  assert (Hrest : forall (rest : jstring) caps res,
            matcher true x
              (Opt (Group 1 (lit "ipfs://")) +++ lit "Qm" +++ Plus alnum +++ Eol)%re
              rest caps (fun s2 c2 => Some (s2, c2)) = Some res ->
            64 ∉ rest).
  { intros rest caps res H.
    change (Opt (Group 1 (lit "ipfs://")) +++ lit "Qm" +++ Plus alnum +++ Eol)%re
      with (Seq (Opt (Group 1 (lit "ipfs://")))
              (Seq (lit "Qm") (Seq (Plus alnum) Eol))) in H.
    rewrite matcher_Seq in H.
    apply (matcher_consumed _ _ _ (fun ch => ch <> 64)) in H
      as (pre1 & r1 & k1 & -> & Hp1 & H & _).
    2:{ apply classes_reject. vm_compute. reflexivity. }
    rewrite matcher_Seq in H.
    apply (matcher_consumed _ _ _ (fun ch => ch <> 64)) in H
      as (pre2 & r2 & k2 & -> & Hp2 & H & _).
    2:{ apply classes_reject. vm_compute. reflexivity. }
    rewrite matcher_Seq in H.
    apply (matcher_consumed _ _ _ (fun ch => ch <> 64)) in H
      as (pre3 & r3 & k3 & -> & Hp3 & H & _).
    2:{ apply classes_reject. vm_compute. reflexivity. }
    cbn [matcher] in H. destruct r3; [|discriminate].
    rewrite app_nil_r, !not_elem_of_app.
    rewrite !Forall_forall in *.
    repeat split; intros Hin; [eapply Hp1|eapply Hp2|eapply Hp3]; eauto. }
  apply matcher_Opt_inv in E as [E|E].
  - destruct x as [|ch rest]; [discriminate|].
    cbn [matcher chr] in E.
    destruct (cls_match _ _ ch) eqn:Ech; [|discriminate].
    apply at_inv in Ech. subst ch.
    match type of E with
    | (if ?b then _ else _) = _ => destruct b; [discriminate|]
    end.
    exists [64], rest. split; [reflexivity|]. split; [auto|].
    eapply Hrest. exact E.
  - exists [], x. split; [reflexivity|]. split; [auto|].
    eapply Hrest. exact E.
Qed.

(** Removing the prefix leaves an end of the string. *)
Lemma ipfsPrefix_suffix (x : jstring) :
  replace_empty ipfsPrefixRegex x `suffix_of` x.
Proof.
  unfold replace_empty.
  rewrite (search_anchored ipfsPrefixRegex x
             (Opt (chr "@") +++ lit "ipfs://")%re eq_refl).
  destruct (matcher _ _ _ _ _ _) as [[s1 c1]|] eqn:E; [|reflexivity].
  apply matcher_some in E as (s2 & c2 & [= <- <-] & Hsuf & _).
  rewrite Nat.sub_diag. exact Hsuf.
Qed.

Lemma ipfsPrefix_matcher input (r : jstring) caps k :
  matcher true input (Opt (chr "@") +++ lit "ipfs://")%re
    (str "ipfs://" ++ r) caps k = k r caps.
Proof. vm_compute. reflexivity. Qed.

Lemma ipfsPrefix_strip (r : jstring) :
  replace_empty ipfsPrefixRegex (str "ipfs://" ++ r) = r.
Proof.
  unfold replace_empty.
  rewrite (search_anchored ipfsPrefixRegex _
             (Opt (chr "@") +++ lit "ipfs://")%re eq_refl).
  change (ignoreCase ipfsPrefixRegex) with true.
  rewrite ipfsPrefix_matcher, Nat.sub_diag. reflexivity.
Qed.

Lemma split_at_unique (a a' b b' : jstring) :
  64 ∉ a -> 64 ∉ a' -> a ++ 64 :: b = a' ++ 64 :: b' -> a = a' /\ b = b'.
Proof.
  revert a'. induction a as [|c a IH]; intros a' Ha Ha' H.
  - destruct a' as [|c' a'].
    + injection H as ->. auto.
    + injection H as <- _. exfalso. apply Ha'. left.
  - destruct a' as [|c' a'].
    + injection H as -> _. exfalso. apply Ha. left.
    + injection H as -> H.
      destruct (IH a') as [-> ->]; auto.
      * intros Hin. apply Ha. right. exact Hin.
      * intros Hin. apply Ha'. right. exact Hin.
Qed.

Lemma notAtHash_no_at (p1 : jstring) :
  forallb (cls_match false notAtHash) p1 = true -> 64 ∉ p1.
Proof.
  intros Hall Hin. rewrite forallb_forall in Hall.
  apply list_elem_of_In, Hall in Hin. vm_compute in Hin. discriminate.
Qed.

(** ** [hasGitPath] *)

Lemma search_git_suffix input (q : jstring) :
  search gitSuffixRegex input (q ++ str ".git") <> None.
Proof.
  induction q as [|ch q IH].
  - vm_compute. discriminate.
  - change ((ch :: q) ++ str ".git") with (ch :: (q ++ str ".git")).
    cbn [search].
    destruct (matcher _ _ _ _ _ _) as [[? ?]|]; [discriminate|exact IH].
Qed.

Lemma hasGitPath_suffix (q : jstring) :
  test gitSuffixRegex (q ++ str ".git") = true.
Proof.
  unfold test. pose proof (search_git_suffix (q ++ str ".git") q) as H.
  destruct (search _ _ _); [reflexivity|congruence].
Qed.

(** C4. Constructing a descriptor whose source location ends in [.git] with
    an empty version ([undefined] or the empty string) throws
    MissingVersionError: the constructor never returns a descriptor. *)
Theorem git_without_version_is_rejected (q : jstring) (version name : jvalue) :
  truthy version = false ->
  new_Dependency (Some (q ++ str ".git")) version name
  = Throw MissingVersionError.
Proof.
  intros Hv. unfold new_Dependency, hasGitPath. cbn [path].
  rewrite or_str_nil, hasGitPath_suffix, Hv. reflexivity.
Qed.

Lemma git_without_version_is_rejected_witness :
  truthy (Some []) = false /\
  new_Dependency (Some (str "https://github.com/nexusdev/dapple.git"))
    (Some []) None = Throw MissingVersionError.
Proof.
  split; [reflexivity|].
  apply (git_without_version_is_rejected (str "https://github.com/nexusdev/dapple")).
  reflexivity.
Defined.

(** ** The parser *)

Lemma new_Dependency_inv (p v n : jvalue) d :
  new_Dependency p v n = Return d ->
  path d = or_str p [] /\ version d = or_str v [] /\ name d = or_str n [] /\
  test gitSuffixRegex (or_str p []) && negb (truthy v) = false.
Proof.
  unfold new_Dependency, hasGitPath. cbn [path].
  destruct (test gitSuffixRegex (or_str p []) && negb (truthy v));
    [discriminate|].
  intros [= <-]. auto.
Qed.

Lemma new_Dependency_plain (p : jstring) (n : jvalue) :
  test gitSuffixRegex p = false ->
  new_Dependency (Some p) None n =
  Return {| name := or_str n []; path := p; version := [];
            packagesDirectory := str "dapple_packages";
            installedAt := []; _tmpDir := None |}.
Proof.
  intros H. unfold new_Dependency, hasGitPath. cbn [path].
  rewrite or_str_nil, H. reflexivity.
Qed.

Lemma or_val_falsy (a b : jvalue) : truthy a = false -> or_val a b = b.
Proof. unfold or_val. intros ->. reflexivity. Qed.

(** C1. The round trip fails: [path.git@abc123] is of the git form and
    parses to the source location [path.git] with version [abc123]; its
    display string is [path.gitabc123], without the [@] the parser splits
    at, and parses to the source location [path.gitabc123] with no
    version. *)
Lemma toString_drops_the_at :
  test gitPathRegex (str "path.git@abc123") = true /\
  ~ reparses (str "path.git@abc123") None.
Proof.
  split; [vm_compute; reflexivity|].
  intros H.
  destruct (H {| name := []; path := str "path.git"; version := str "abc123";
                 packagesDirectory := str "dapple_packages";
                 installedAt := []; _tmpDir := None |})
    as (d' & Hd' & Hpath & _).
  - vm_compute. reflexivity.
  - vm_compute in Hd'. injection Hd' as <-. vm_compute in Hpath. discriminate.
Qed.

(** The same in the generic form: [foo@1.0] parses to the source location
    [foo] with version [1.0]; its display string [foo1.0] parses to the
    source location [foo1.0] with no version. *)
Example toString_drops_the_at_generic :
  test gitPathRegex (str "foo@1.0") = false /\
  ~ reparses (str "foo@1.0") None.
Proof.
  split; [vm_compute; reflexivity|].
  intros H.
  destruct (H {| name := []; path := str "foo"; version := str "1.0";
                 packagesDirectory := str "dapple_packages";
                 installedAt := []; _tmpDir := None |})
    as (d' & Hd' & Hpath & _).
  - vm_compute. reflexivity.
  - vm_compute in Hd'. injection Hd' as <-. vm_compute in Hpath. discriminate.
Qed.

(** A version written with its [@], which the constructor takes and
    [_pullGit] strips, makes the display string the specifier: it parses
    back to the source location and the commit. *)
Example toString_with_the_at :
  let d := {| name := []; path := str "path.git"; version := str "@abc123";
              packagesDirectory := str "dapple_packages";
              installedAt := []; _tmpDir := None |} in
  new_Dependency (Some (str "path.git")) (Some (str "@abc123")) None
  = Return d /\
  toString d = str "path.git@abc123" /\
  replace_empty atRegex (getVersion d) = str "abc123" /\
  exists d', fromDependencyString (toString d) None = Return d' /\
             path d' = str "path.git" /\ version d' = str "abc123".
Proof.
  cbv zeta. split; [vm_compute; reflexivity|].
  split; [vm_compute; reflexivity|]. split; [vm_compute; reflexivity|].
  eexists. split; [vm_compute; reflexivity|]. split; reflexivity.
Qed.

Lemma app_cons_self (a b : jstring) c : a ++ b = a ++ c :: b -> False.
Proof.
  intros H. apply app_inv_head in H. apply (f_equal length) in H.
  simpl in H. lia.
Qed.

(** A display string with a version in it never parses back to the source
    location and the version it was made of. *)
Lemma toString_loses_the_version (d d' : Dependency) (name' : jvalue) :
  version d <> [] ->
  fromDependencyString (toString d) name' = Return d' ->
  path d' = path d -> version d' = version d -> False.
Proof.
  unfold toString, getPath, getVersion.
  destruct d as [n0 P V pd ia td]. cbn [path version].
  intros HV Hparse HP HVV. unfold fromDependencyString in Hparse.
  destruct (test gitPathRegex (P ++ V)) eqn:Hgit.
  - destruct (exec gitPathRegex (P ++ V)) as [pieces|] eqn:Hexec;
      [|discriminate].
    apply new_Dependency_inv in Hparse as (Hpath & Hver & _).
    apply gitPathRegex_pieces in Hexec as (p & v & Hp & Hv & HT).
    rewrite Hp, or_str_nil, HP in Hpath. rewrite Hv, or_str_nil, HVV in Hver.
    subst p v. apply app_cons_self in HT. exact HT.
  - destruct (exec pathRegex (P ++ V)) as [pieces|] eqn:Hexec; [|discriminate].
    apply pathRegex_pieces in Hexec as (Hg1 & Hg2).
    destruct (test ipfsHashRegex _) eqn:Hipfs.
    + apply new_Dependency_inv in Hparse as (Hpath & Hver & _).
      rewrite or_str_nil, HP in Hpath. rewrite or_str_nil, HVV in Hver.
      pose proof (ipfsPrefix_suffix (ToString (or_val (piece pieces 2)
                                                 (piece pieces 1)))) as Hsuf.
      rewrite <- Hver in Hsuf, Hpath.
      assert (Hnoat : 64 ∉ str "ipfs://").
      { vm_compute. intros H.
        repeat (apply elem_of_cons in H as [H|H]; [discriminate|]).
        inversion H. }
      destruct Hg2 as [[Hp2 HT]|(v & Hp2 & Hv & HT)].
      * (* no version in the display string *)
        rewrite Hp2 in *. rewrite (or_val_falsy None _ eq_refl) in *.
        destruct Hg1 as [Hp1|(p1 & Hp1 & Hne & Hall)]; rewrite Hp1 in *.
        { vm_compute in Hipfs. discriminate. }
        cbn [ToString] in *. rewrite or_str_nil in HT.
        apply notAtHash_no_at in Hall.
        assert (HVat : 64 ∉ V).
        { intros Hin. apply Hall. destruct Hsuf as [k ->].
          apply elem_of_app. right. exact Hin. }
        destruct HT as [HT|HT].
        -- assert (HR : V = V ++ V).
           { rewrite Hver at 1.
             rewrite <- HT, Hpath, <- app_assoc, ipfsPrefix_strip.
             reflexivity. }
           apply (f_equal length) in HR. rewrite length_app in HR.
           destruct V; [congruence|simpl in HR; lia].
        -- assert (Hin : 64 ∈ P ++ V).
           { rewrite HT. apply elem_of_app. right. left. }
           rewrite Hpath in Hin. rewrite !elem_of_app in Hin.
           destruct Hin as [[Hin|Hin]|Hin]; auto.
      * (* a version in the display string *)
        rewrite Hp2 in *.
        assert (Hv' : truthy (Some v) = true)
          by (destruct v; [congruence|reflexivity]).
        unfold or_val in Hipfs, Hsuf. rewrite Hv' in Hipfs, Hsuf.
        cbn [ToString] in *.
        assert (HG : 64 ∉ or_str (piece pieces 1) []).
        { destruct Hg1 as [Hp1|(p1 & Hp1 & Hne & Hall)]; rewrite Hp1.
          - apply not_elem_of_nil.
          - rewrite or_str_nil. apply notAtHash_no_at. exact Hall. }
        pose proof Hipfs as Hipfs0.
        apply ipfsHashRegex_shape in Hipfs as (pre & rest & Hx & Hpre & Hrest).
        assert (Hcases : 64 ∉ V \/ (V = v /\ pre = [64])).
        { destruct Hpre as [-> | ->].
          - left. intros Hin. apply Hrest. simpl in Hx. subst v.
            destruct Hsuf as [k ->]. apply elem_of_app. right. exact Hin.
          - simpl in Hx. subst v. destruct Hsuf as [[|c k] Hk].
            + right. auto.
            + left. intros Hin. apply Hrest. injection Hk as _ ->.
              apply elem_of_app. right. exact Hin. }
        destruct Hcases as [HVat|[-> ->]].
        -- assert (Hin : 64 ∈ P ++ V).
           { rewrite HT. apply elem_of_app. right. left. }
           rewrite Hpath in Hin. rewrite !elem_of_app in Hin.
           destruct Hin as [[Hin|Hin]|Hin]; auto.
        -- simpl in Hx. subst v.
           rewrite Hpath in HT. rewrite <- app_assoc in HT.
           change ((64 :: rest) ++ 64 :: rest)
             with (64 :: (rest ++ 64 :: rest)) in HT.
           apply split_at_unique in HT as [_ HT]; [|exact Hnoat|exact HG].
           destruct rest as [|c rest'].
           ++ vm_compute in Hipfs0. discriminate.
           ++ injection HT as -> _. apply Hrest. left.
    + apply new_Dependency_inv in Hparse as (Hpath & Hver & _).
      rewrite HP in Hpath. rewrite HVV in Hver.
      destruct Hg2 as [[Hp2 HT]|(v & Hp2 & Hv & HT)].
      * rewrite Hp2 in Hver. cbn in Hver. congruence.
      * rewrite Hp2, or_str_nil in Hver. subst v.
        rewrite <- Hpath in HT. apply app_cons_self in HT. exact HT.
Qed.

(** How far the loss goes.  [toString()] is [getPath() + getVersion()],
    without the [@] of the specifier.  For every descriptor parsed by
    [fromDependencyString], the display string is parsed again, under any
    name, to a descriptor with the same source location and the same
    version exactly when the version is empty. *)
Theorem toString_reparses_without_version
    (s : jstring) (name name' : jvalue) (d : Dependency) :
  fromDependencyString s name = Return d ->
  (exists d', fromDependencyString (toString d) name' = Return d' /\
              path d' = path d /\ version d' = version d)
  <-> version d = [].
Proof.
  intros Hparse. split.
  { intros (d' & Hd' & Hpath & Hver).
    destruct (version d) eqn:E; [reflexivity|]. exfalso.
    apply (toString_loses_the_version d d' name');
      [rewrite E; discriminate|exact Hd'|exact Hpath|rewrite E; exact Hver]. }
  revert Hparse.
  unfold fromDependencyString at 1.
  destruct (test gitPathRegex s) eqn:Hgit.
  - destruct (exec gitPathRegex s) as [pieces|] eqn:Hexec; [|discriminate].
    intros Hnew Hv. apply new_Dependency_inv in Hnew as (_ & Hver & _).
    apply gitPathRegex_version in Hexec.
    rewrite Hv in Hver. symmetry in Hver. apply or_str_empty in Hver.
    congruence.
  - destruct (exec pathRegex s) as [pieces|] eqn:Hexec; [|discriminate].
    destruct (test ipfsHashRegex _) eqn:Hipfs.
    + intros Hnew Hv. apply new_Dependency_inv in Hnew as (Hpath & Hver & _).
      rewrite or_str_nil in Hver, Hpath. rewrite Hv in Hver.
      rewrite <- Hver in Hpath.
      unfold toString, getPath, getVersion. rewrite Hv, Hpath.
      eexists. split; [vm_compute; reflexivity|]. split; reflexivity.
    + intros Hnew Hv.
      apply new_Dependency_inv in Hnew as (Hpath & Hver & _ & Hnogit).
      rewrite Hv in Hver. symmetry in Hver. apply or_str_empty in Hver.
      rewrite Hver, andb_true_r in Hnogit.
      rewrite (or_val_falsy _ _ Hver) in Hipfs.
      unfold toString, getPath, getVersion. rewrite Hv, app_nil_r, Hpath.
      destruct (proj1 (pathRegex_pieces s pieces Hexec))
        as [Hp1|(p1 & Hp1 & Hne & Hall)];
        rewrite Hp1 in *.
      * eexists. split; [vm_compute; reflexivity|]. split; reflexivity.
      * rewrite or_str_nil in *.
        assert (Hat : test gitPathRegex p1 = false).
        { unfold test. rewrite gitPathRegex_needs_at; [reflexivity|].
          apply Forall_forall. intros ch Hch. apply notAtHash_not_at.
          rewrite forallb_forall in Hall. apply Hall.
          apply list_elem_of_In. exact Hch. }
        unfold fromDependencyString.
        rewrite Hat, (pathRegex_plain p1 Hne Hall).
        change (piece [Some p1; Some p1; None] 2) with (@None jstring).
        change (piece [Some p1; Some p1; None] 1) with (Some p1).
        rewrite (or_val_falsy None (Some p1) eq_refl), Hipfs.
        rewrite (new_Dependency_plain p1 name' Hnogit).
        eexists. split; [reflexivity|]. split; reflexivity.
Qed.

(** What the parser can end with: a descriptor, MissingVersionError from
    the constructor, or the TypeError of reading [pathPieces[2]] when
    [pathRegex.exec] has answered [null]. *)
Lemma fromDependencyString_outcomes (s : jstring) (name : jvalue) :
  (exists d, fromDependencyString s name = Return d) \/
  fromDependencyString s name = Throw MissingVersionError \/
  (exec pathRegex s = None /\
   fromDependencyString s name = Throw NullPiecesError).
Proof.
  assert (Hnew : forall p v n,
            (exists d, new_Dependency p v n = Return d) \/
            new_Dependency p v n = Throw MissingVersionError).
  { intros p v n. unfold new_Dependency.
    destruct (hasGitPath _ && negb (truthy v)); eauto. }
  unfold fromDependencyString, test, exec.
  destruct (search gitPathRegex s s) as [[[s0 s1] c1]|].
  - destruct (Hnew (piece (<[0%nat:=Some (between s0 s1)]> c1) 1)
                   (piece (<[0%nat:=Some (between s0 s1)]> c1) 2) name)
      as [H|H]; auto.
  - destruct (search pathRegex s s) as [[[s0 s1] c1]|]; [|auto].
    destruct (match search ipfsHashRegex _ _ with Some _ => true | None => false end).
    + match goal with
      | |- context [new_Dependency ?p ?v ?n] => destruct (Hnew p v n) as [H|H]
      end; auto.
    + match goal with
      | |- context [new_Dependency ?p ?v ?n] => destruct (Hnew p v n) as [H|H]
      end; auto.
Qed.

(** C2. On [a#b] neither pattern matches: [pathRegex.exec] answers [null]
    and reading [pathPieces[2]] raises a TypeError, whatever the name. *)
Theorem fromDependencyString_null_pieces (name : jvalue) :
  fromDependencyString (str "a#b") name = Throw NullPiecesError.
Proof. vm_compute. reflexivity. Qed.

(** The two examples of the specification. *)
Example parse_git_form :
  fromDependencyString (str "path.git@abc123") None =
  Return {| name := []; path := str "path.git"; version := str "abc123";
            packagesDirectory := str "dapple_packages";
            installedAt := []; _tmpDir := None |}.
Proof. vm_compute. reflexivity. Qed.

Example parse_ipfs_hash_alone :
  fromDependencyString (str "@QmXYZabc123") None =
  Return {| name := []; path := str "ipfs://QmXYZabc123";
            version := str "QmXYZabc123";
            packagesDirectory := str "dapple_packages";
            installedAt := []; _tmpDir := None |}.
Proof. vm_compute. reflexivity. Qed.

(** ** The installer, in any environment *)

Section InstallerProperties.

Context {W : Type}.
Variable env : forall c : call, W -> reply (answer c) * W.
Variable depth : nat.

Abbreviation St := (@State W).

Lemma calls_only_ret P {A} (a : A) : calls_only P (ret (W := W) a).
Proof.
  intros st r st' [= <- <-]. exists []. rewrite app_nil_r. auto.
Qed.

Lemma calls_only_throw P {A} e : calls_only P (throw (W := W) (A := A) e).
Proof.
  intros st r st' [= <- <-]. exists []. rewrite app_nil_r. auto.
Qed.

Lemma calls_only_out_of_fuel P {A} :
  calls_only P (out_of_fuel (W := W) (A := A)).
Proof.
  intros st r st' [= <- <-]. exists []. rewrite app_nil_r. auto.
Qed.

Lemma calls_only_get_this P : calls_only P (get_this (W := W)).
Proof.
  intros st r st' [= <- <-]. exists []. rewrite app_nil_r. auto.
Qed.

Lemma calls_only_update P f : calls_only P (update (W := W) f).
Proof.
  intros st r st' [= <- <-]. exists []. simpl. rewrite app_nil_r. auto.
Qed.

Lemma calls_only_do P c : P c = true -> calls_only P (do env c).
Proof.
  intros HP st r st'. unfold do.
  destruct (env c (world st)) as [[a|e] w]; intros [= <- <-];
    eexists; simpl; (split; [reflexivity|]); repeat constructor; exact HP.
Qed.

Lemma calls_only_bind P {A B} (m : @M W A) (f : A -> @M W B) :
  calls_only P m -> (forall a, calls_only P (f a)) -> calls_only P (bind m f).
Proof.
  intros Hm Hf st r st'. unfold bind.
  destruct (m st) as [[a|e|] st1] eqn:E.
  - intros Hfa. apply Hm in E as (new1 & E1 & H1).
    apply Hf in Hfa as (new2 & E2 & H2).
    exists (new1 ++ new2). rewrite E2, E1, app_assoc. split; [reflexivity|].
    apply Forall_app. auto.
  - intros [= <- <-]. apply Hm in E. exact E.
  - intros [= <- <-]. apply Hm in E. exact E.
Qed.

Lemma calls_only_try_catch P {A} (m : @M W A) (h : exn -> @M W A) :
  calls_only P m -> (forall e, calls_only P (h e)) ->
  calls_only P (try_catch m h).
Proof.
  intros Hm Hh st r st'. unfold try_catch.
  destruct (m st) as [[a|e|] st1] eqn:E.
  - intros [= <- <-]. apply Hm in E. exact E.
  - intros Hhe. apply Hm in E as (new1 & E1 & H1).
    apply Hh in Hhe as (new2 & E2 & H2).
    exists (new1 ++ new2). rewrite E2, E1, app_assoc. split; [reflexivity|].
    apply Forall_app. auto.
  - intros [= <- <-]. apply Hm in E. exact E.
Qed.

Lemma calls_only_for_each P {A} (l : list A) (body : A -> @M W unit) :
  (forall x, calls_only P (body x)) ->
  calls_only P (for_each (W := W) l body).
Proof.
  intros Hbody. induction l as [|x l IH]; simpl.
  - apply calls_only_ret.
  - apply calls_only_bind; [apply Hbody|intros _; exact IH].
Qed.

Ltac calls :=
  repeat first
    [ apply calls_only_ret | apply calls_only_throw
    | apply calls_only_out_of_fuel | apply calls_only_get_this
    | apply calls_only_update
    | match goal with
      | |- calls_only ?P (do _ ?c) => apply (calls_only_do P c); reflexivity
      end
    | apply calls_only_bind; [|intros ?]
    | apply calls_only_try_catch; [|intros ?]
    | apply calls_only_for_each; intros ?
    | match goal with
      | |- calls_only _ (if ?b then _ else _) => destruct b
      end ].

Lemma pullIPFS_never_removes settings rootHash fuel :
  forall hash dest type,
    calls_only not_removeSync
      (pullIPFS env settings rootHash fuel hash dest type).
Proof.
  induction fuel as [|fuel IH]; intros hash dest type; cbn [pullIPFS].
  - calls.
  - calls; apply IH.
Qed.

Lemma pull_never_removes destination :
  calls_only not_removeSync (pull env depth destination).
Proof.
  unfold pull, _pullGit, _pullIPFS. calls; apply pullIPFS_never_removes.
Qed.

Lemma _throwIfInstalled_never_removes :
  calls_only not_removeSync (_throwIfInstalled env).
Proof. unfold _throwIfInstalled. calls. Qed.

Lemma _getTmpDir_never_removes :
  calls_only not_removeSync (_getTmpDir env).
Proof. unfold _getTmpDir. calls. Qed.

Lemma install_prelude_never_removes (this : Dependency) :
  calls_only not_removeSync
    (try_catch (do env (accessSync (packagesDirectory this) W_OK))
       (fun e =>
          try_catch (do env (mkdirSync (packagesDirectory this)))
            (fun e => throw (PathAccessError (packagesDirectory this) e)))).
Proof. calls. Qed.

Lemma do_inv c (st : St) r st' :
  do env c st = (r, st') ->
  exists ok, log st' = log st ++ [(c, ok)] /\ this st' = this st /\
             (ok = true <-> exists a, r = Return a) /\
             (ok = false <-> exists e, r = Throw e).
Proof.
  unfold do. destruct (env c (world st)) as [[a|e] w]; intros [= <- <-]; simpl.
  - exists true. repeat split; eauto; try discriminate.
    intros [e' [=]].
  - exists false. repeat split; eauto; try discriminate.
    intros [a' [=]].
Qed.

Lemma not_removeSync_failed new t :
  Forall (fun e : call * bool => not_removeSync e.1 = true) new ->
  (removeSync t, false) ∈ new -> False.
Proof.
  intros Hall Hin. rewrite Forall_forall in Hall.
  apply Hall in Hin. discriminate.
Qed.

(** C5. When the name is known and [<packagesDirectory>/<name>] is
    readable, [install] throws AlreadyInstalledError, and the readability
    check is the only call it has made: no process, no IPFS request, no
    write; [pull] is not reached. *)
Theorem second_install_fails_before_any_fetch (st : St) (w' : W) :
  getName (this st) <> [] ->
  env (accessSync
         (path_join [packagesDirectory (this st); getName (this st)]) R_OK)
      (world st) = (Answer tt, w') ->
  install env depth st =
  (Throw (AlreadyInstalledError (getName (this st))),
   {| this := this st; world := w';
      log := log st ++
        [(accessSync
            (path_join [packagesDirectory (this st); getName (this st)])
            R_OK, true)] |}).
Proof.
  intros Hname Haccess.
  assert (Ht : truthy (Some (getName (this st))) = true).
  { destruct (getName (this st)); [congruence|reflexivity]. }
  unfold install, _throwIfInstalled, bind, try_catch, get_this, do at 1.
  cbv beta. rewrite Ht, Haccess. reflexivity.
Qed.

(** C6. For a descriptor with a git path and a version that, after a
    leading [@] is removed, is not hexadecimal, [pull] throws
    InvalidCommitError and leaves the state as it was: no call has been
    made, so no process has been spawned.  Nothing else is asked of the
    object: it may be as the constructor has left it, or hold the scratch
    directory that [install] has chosen before it fetches. *)
Theorem invalid_commit_throws_before_any_process
    (destination : jstring) (st : St) :
  hasGitPath (this st) = true ->
  getVersion (this st) <> [] ->
  test commitRegex (replace_empty atRegex (getVersion (this st))) = false ->
  pull env depth destination st =
  (Throw (InvalidCommitError (replace_empty atRegex (getVersion (this st)))),
   st).
Proof.
  intros Hgit Hver Hhex.
  assert (Hv : hasVersion (this st) = true).
  { unfold hasVersion. apply negb_true_iff, bool_decide_eq_false.
    exact Hver. }
  unfold pull, _pullGit, bind, get_this, throw.
  rewrite Hgit, Hv, Hhex. reflexivity.
Qed.

(** C7. For a descriptor with an IPFS path, when the settings are read and
    the probe [ls(rootHash)] throws, [pull] throws IPFSConnectionError; the
    only calls made are the reading of the settings and the probe, so no
    directory has been created at the destination, nor anything else
    written. *)
Theorem probe_failure_creates_nothing
    (destination : jstring) (st : St) settings (w1 w2 : W) e :
  hasGitPath (this st) = false ->
  hasIPFSPath (this st) = true ->
  env ipfs_settings (world st) = (Answer settings, w1) ->
  env (ls settings (replace_empty ipfsSchemeRegex (getPath (this st)))) w1
  = (Raise e, w2) ->
  pull env depth destination st =
  (Throw IPFSConnectionError,
   {| this := this st; world := w2;
      log := log st ++
        [(ipfs_settings, true);
         (ls settings (replace_empty ipfsSchemeRegex (getPath (this st))),
          false)] |}).
Proof.
  intros Hgit Hipfs Hrc Hls.
  unfold pull, _pullIPFS, bind, try_catch, get_this, throw, do.
  rewrite Hgit, Hipfs, Hrc. cbn [world this log]. rewrite Hls.
  rewrite <- app_assoc. reflexivity.
Qed.

Lemma _pullIPFS_after_probe
    (target : jstring) (st : St) settings (w1 w2 : W) links :
  env ipfs_settings (world st) = (Answer settings, w1) ->
  env (ls settings (replace_empty ipfsSchemeRegex (getPath (this st)))) w1
  = (Answer links, w2) ->
  _pullIPFS env depth target st =
  pullIPFS env settings (replace_empty ipfsSchemeRegex (getPath (this st)))
    depth (replace_empty ipfsSchemeRegex (getPath (this st))) target types_dir
    {| this := this st; world := w2;
       log := log st ++
         [(ipfs_settings, true);
          (ls settings (replace_empty ipfsSchemeRegex (getPath (this st))),
           true)] |}.
Proof.
  intros Hrc Hls.
  unfold _pullIPFS, bind, try_catch, get_this, do, ret.
  cbv beta. rewrite Hrc. cbn [world this log]. rewrite Hls.
  cbn [world this log]. rewrite <- app_assoc. reflexivity.
Qed.

Lemma pullIPFS_dir_first settings rootHash fuel (hash dest : jstring)
    (st : St) r st' :
  pullIPFS env settings rootHash (S fuel) hash dest types_dir st = (r, st') ->
  exists ok rest,
    log st' = log st ++ (ensureDirSync dest, ok) :: rest /\
    (ok = true -> exists ok' rest', rest = (ls settings hash, ok') :: rest') /\
    (ok = false -> rest = [] /\ exists e, r = Throw e).
Proof.
  cbn [pullIPFS]. change (types_dir =? types_dir) with true. cbv iota.
  unfold bind at 1.
  destruct (do env (ensureDirSync dest) st) as [[[]|e1|] s1] eqn:E1;
    apply do_inv in E1 as (ok & Hlog1 & _ & Hok & Hko).
  - assert (ok = true) as -> by (apply Hok; eauto).
    unfold bind at 1.
    destruct (do env (ls settings hash) s1) as [[l|e2|] s2] eqn:E2;
      apply do_inv in E2 as (ok2 & Hlog2 & _).
    + intros Hrest.
      apply (calls_only_for_each not_removeSync) in Hrest
        as (new & Hlog3 & _);
        [|intros x; apply pullIPFS_never_removes].
      exists true, ((ls settings hash, ok2) :: new).
      rewrite Hlog3, Hlog2, Hlog1, <- !app_assoc. cbn [app].
      split; [reflexivity|]. split; [eauto|discriminate].
    + intros [= <- <-]. exists true, [(ls settings hash, ok2)].
      rewrite Hlog2, Hlog1, <- !app_assoc. cbn [app].
      split; [reflexivity|]. split; [eauto|discriminate].
    + intros [= <- <-]. exists true, [(ls settings hash, ok2)].
      rewrite Hlog2, Hlog1, <- !app_assoc. cbn [app].
      split; [reflexivity|]. split; [eauto|discriminate].
  - assert (ok = false) as -> by (apply Hko; eauto).
    intros [= <- <-]. exists false, []. rewrite Hlog1.
    split; [reflexivity|]. split; [discriminate|eauto].
  - intros [= <- <-]. destruct ok.
    + destruct Hok as [Hok _]. destruct (Hok eq_refl) as [a [=]].
    + destruct Hko as [Hko _]. destruct (Hko eq_refl) as [a [=]].
Qed.

(** C10. Once the settings are read and the probe has returned,
    [_pullIPFS] is [pullIPFS(rootHash, target, types.dir)]: whatever the
    environment answers for the root hash, the next call is
    [ensureDirSync(target)] and, when that returns, [ls(rootHash)]; when it
    throws, the pull ends with that error and nothing else is called. *)
Theorem ipfs_root_is_pulled_as_a_directory
    (target : jstring) (st : St) settings (w1 w2 : W) links r st' :
  (0 < depth)%nat ->
  env ipfs_settings (world st) = (Answer settings, w1) ->
  env (ls settings (replace_empty ipfsSchemeRegex (getPath (this st)))) w1
  = (Answer links, w2) ->
  _pullIPFS env depth target st = (r, st') ->
  let rootHash := replace_empty ipfsSchemeRegex (getPath (this st)) in
  let probed :=
    {| this := this st; world := w2;
       log := log st ++
         [(ipfs_settings, true); (ls settings rootHash, true)] |} in
  pullIPFS env settings rootHash depth rootHash target types_dir probed
  = (r, st') /\
  exists ok rest,
    log st' = log probed ++ (ensureDirSync target, ok) :: rest /\
    (ok = true ->
     exists ok' rest', rest = (ls settings rootHash, ok') :: rest') /\
    (ok = false -> rest = [] /\ exists e, r = Throw e).
Proof.
  intros Hdepth Hrc Hls Hpull. cbv zeta.
  rewrite (_pullIPFS_after_probe target st settings w1 w2 links Hrc Hls)
    in Hpull.
  split; [exact Hpull|].
  destruct depth as [|fuel]; [lia|].
  apply pullIPFS_dir_first in Hpull. exact Hpull.
Qed.

(** One statement of a body: when a removal that failed is in the log at
    the end, the statement has returned and the rest of the body has run. *)
Lemma step {A B} (m : @M W A) (f : A -> @M W B) (st0 st : St) acc r st' new t :
  calls_only not_removeSync m ->
  log st = log st0 ++ acc ->
  Forall (fun e : call * bool => not_removeSync e.1 = true) acc ->
  bind m f st = (r, st') ->
  log st' = log st0 ++ new ->
  (removeSync t, false) ∈ new ->
  exists a st1 acc1,
    m st = (Return a, st1) /\ f a st1 = (r, st') /\
    log st1 = log st0 ++ acc1 /\
    Forall (fun e : call * bool => not_removeSync e.1 = true) acc1.
Proof.
  intros Hm Hlog Hacc Hbind Hnew Hin. unfold bind in Hbind.
  destruct (m st) as [[a|e|] st1] eqn:E;
    destruct (Hm _ _ _ E) as (new1 & Hlog1 & Hnew1).
  - exists a, st1, (acc ++ new1). split; [reflexivity|]. split; [exact Hbind|].
    split; [rewrite Hlog1, Hlog, app_assoc; reflexivity|].
    apply Forall_app. auto.
  - injection Hbind as <- <-. exfalso.
    rewrite Hlog1, Hlog, <- app_assoc in Hnew. apply app_inv_head in Hnew.
    apply (not_removeSync_failed new t); [|exact Hin].
    rewrite <- Hnew. apply Forall_app. auto.
  - injection Hbind as <- <-. exfalso.
    rewrite Hlog1, Hlog, <- app_assoc in Hnew. apply app_inv_head in Hnew.
    apply (not_removeSync_failed new t); [|exact Hin].
    rewrite <- Hnew. apply Forall_app. auto.
Qed.

(** C9. Whenever a run of [install] contains a removal that failed, that
    removal is of the scratch directory and is the last call of the run,
    right after the copy of the scratch directory to the final destination
    has returned: nothing is undone.  [installedAt] is then the final
    destination, [<packagesDirectory>/<name>], and the error thrown says
    that the package is installed there and names the scratch path to
    delete. *)
Theorem cleanup_failure_keeps_the_install (st : St) r st' new t :
  install env depth st = (r, st') ->
  log st' = log st ++ new ->
  (removeSync t, false) ∈ new ->
  r = Throw (CleanupError (getName (this st')) (installedAt (this st')) t) /\
  installedAt (this st') =
    path_join [packagesDirectory (this st'); getName (this st')] /\
  exists before,
    new = before ++
      [(copySync t (installedAt (this st')), true); (removeSync t, false)].
Proof.
  intros Hrun Hnew Hin. unfold install in Hrun.
  eapply (step _ _ st st []) in Hrun
    as (this0 & st1 & acc1 & E1 & Hrun & Hlog1 & Hacc1);
    [|calls|symmetry; apply app_nil_r|constructor|exact Hnew|exact Hin].
  clear E1.
  eapply step in Hrun
    as ([] & st2 & acc2 & _ & Hrun & Hlog2 & Hacc2);
    [|destruct (truthy _); [apply _throwIfInstalled_never_removes|calls]
     |exact Hlog1|exact Hacc1|exact Hnew|exact Hin].
  eapply step in Hrun
    as ([] & st3' & acc3' & _ & Hrun & Hlog3' & Hacc3');
    [|apply install_prelude_never_removes
     |exact Hlog2|exact Hacc2|exact Hnew|exact Hin].
  clear this0.
  eapply step in Hrun
    as (this0 & st3 & acc3 & _ & Hrun & Hlog3 & Hacc3);
    [|calls|exact Hlog3'|exact Hacc3'|exact Hnew|exact Hin].
  destruct (truthy (Some (getName this0))).
  { exfalso.
    assert (Hdirect : calls_only not_removeSync
              (bind (pull env depth
                       (path_join [packagesDirectory this0; getName this0]))
                 (fun _ => update (set_installedAt
                       (path_join [packagesDirectory this0; getName this0]))))).
    { apply calls_only_bind;
        [apply pull_never_removes|intros _; apply calls_only_update]. }
    apply Hdirect in Hrun as (new4 & Hlog4 & Hnew4).
    rewrite Hlog4, Hlog3, <- app_assoc in Hnew. apply app_inv_head in Hnew.
    apply (not_removeSync_failed new t); [|exact Hin].
    rewrite <- Hnew. apply Forall_app. auto. }
  eapply step in Hrun
    as (tmpDir & st4 & acc4 & _ & Hrun & Hlog4 & Hacc4);
    [|apply _getTmpDir_never_removes
     |exact Hlog3|exact Hacc3|exact Hnew|exact Hin].
  eapply step in Hrun
    as ([] & st5 & acc5 & _ & Hrun & Hlog5 & Hacc5);
    [|apply pull_never_removes
     |exact Hlog4|exact Hacc4|exact Hnew|exact Hin].
  eapply step in Hrun
    as (n & st6 & acc6 & _ & Hrun & Hlog6 & Hacc6);
    [|calls|exact Hlog5|exact Hacc5|exact Hnew|exact Hin].
  unfold bind at 1 2, update at 1, get_this in Hrun. cbn [this world log] in Hrun.
  set (this6 := setName n (this st6)) in *.
  set (dst := path_join [packagesDirectory this6; getName this6]) in *.
  eapply (step _ _ st _ acc6) in Hrun
    as ([] & st7 & acc7 & E7 & Hrun & _ & _);
    [|calls|exact Hlog6|exact Hacc6|exact Hnew|exact Hin].
  apply do_inv in E7 as (ok7 & Hlog7 & Hthis7 & Hok7 & _).
  assert (ok7 = true) as -> by (apply Hok7; eauto).
  cbn [this log] in Hlog7, Hthis7.
  unfold bind, update, try_catch in Hrun. cbn [this world log] in Hrun.
  match type of Hrun with
  | context [do env ?c ?s] => destruct (do env c s) as [[[]|e|] st8] eqn:E8
  end; apply do_inv in E8 as (ok8 & Hlog8 & Hthis8 & Hok8 & Hko8);
    cbn [this log] in Hlog8, Hthis8.
  - injection Hrun as <- <-. exfalso.
    assert (ok8 = true) as -> by (apply Hok8; eauto).
    rewrite Hlog8, Hlog7, Hlog6, <- !app_assoc in Hnew.
    apply app_inv_head in Hnew. rewrite <- Hnew in Hin.
    rewrite !elem_of_app, !list_elem_of_singleton in Hin.
    destruct Hin as [Hin|[Hin|Hin]]; try discriminate.
    apply (not_removeSync_failed acc6 t); assumption.
  - assert (ok8 = false) as -> by (apply Hko8; eauto).
    unfold throw in Hrun. injection Hrun as <- <-.
    rewrite Hlog8, Hlog7, Hlog6, <- !app_assoc in Hnew.
    apply app_inv_head in Hnew. rewrite <- Hnew in Hin.
    rewrite !elem_of_app, !list_elem_of_singleton in Hin.
    assert (t = tmpDir) as ->.
    { destruct Hin as [Hin|[Hin|Hin]]; try discriminate.
      - exfalso. apply (not_removeSync_failed acc6 t); assumption.
      - congruence. }
    rewrite Hthis8. cbn [this installedAt set_installedAt getName name
                           packagesDirectory].
    rewrite Hthis7.
    split; [reflexivity|]. split; [reflexivity|].
    exists acc6. rewrite <- Hnew. reflexivity.
  - injection Hrun as <- <-. exfalso. destruct ok8.
    + destruct Hok8 as [Hok8 _]. destruct (Hok8 eq_refl) as [a [=]].
    + destruct Hko8 as [Hko8 _]. destruct (Hko8 eq_refl) as [a [=]].
Qed.

End InstallerProperties.

(** ** Paths *)

Lemma split_slash_nonempty (p : jstring) : split_slash p <> [].
Proof.
  destruct p as [|c p]; simpl; [discriminate|].
  destruct (c =? 47); [discriminate|].
  destruct (split_slash p); discriminate.
Qed.

Lemma split_slash_app (a b : jstring) :
  split_slash (a ++ 47 :: b) = split_slash a ++ split_slash b.
Proof.
  induction a as [|c a IH]; simpl; [reflexivity|].
  destruct (c =? 47); [rewrite IH; reflexivity|].
  rewrite IH. pose proof (split_slash_nonempty a).
  destruct (split_slash a); [congruence|reflexivity].
Qed.

Lemma split_slash_segment (n : jstring) : 47 ∉ n -> split_slash n = [n].
Proof.
  induction n as [|c n IH]; intros Hn; simpl; [reflexivity|].
  destruct (N.eqb_spec c 47) as [->|_].
  - exfalso. apply Hn. left.
  - rewrite IH; [reflexivity|]. intros H. apply Hn. right. exact H.
Qed.

Lemma split_join_slash (segs : list jstring) :
  segs <> [] -> Forall (fun seg => 47 ∉ seg) segs ->
  split_slash (join_slash segs) = segs.
Proof.
  induction segs as [|seg segs IH]; intros Hne Hall; [congruence|].
  inversion Hall as [|? ? Hseg Hsegs]; subst.
  destruct segs as [|seg' segs'].
  - simpl. apply split_slash_segment. exact Hseg.
  - change (join_slash (seg :: seg' :: segs'))
      with (seg ++ 47 :: join_slash (seg' :: segs')).
    rewrite split_slash_app, split_slash_segment, IH by (auto; discriminate).
    reflexivity.
Qed.

Lemma split_slash_no_slash (p : jstring) :
  Forall (fun seg => 47 ∉ seg) (split_slash p).
Proof.
  induction p as [|c p IH]; simpl.
  - repeat constructor. apply not_elem_of_nil.
  - destruct (N.eqb_spec c 47) as [->|Hc].
    + constructor; [apply not_elem_of_nil|exact IH].
    + destruct (split_slash p) as [|seg segs]; inversion IH; subst.
      * repeat constructor. rewrite list_elem_of_singleton. congruence.
      * constructor; [|assumption].
        rewrite elem_of_cons. intros [E|E]; [congruence|auto].
Qed.

Lemma normalize_step_ok allow res seg :
  47 ∉ seg -> kept_ok allow res -> kept_ok allow (normalize_step allow res seg).
Proof.
  intros Hseg Hres. unfold normalize_step.
  destruct (bool_decide_reflect (seg = [])) as [->|Hne]; [exact Hres|].
  destruct (bool_decide_reflect (seg = str ".")) as [->|Hdot]; [exact Hres|].
  cbn [orb].
  destruct (bool_decide_reflect (seg = str "..")) as [->|Hdd].
  - destruct res as [|last res'].
    + destruct allow; [|constructor].
      repeat constructor; try discriminate. exact Hseg.
    + inversion Hres; subst.
      destruct (bool_decide (last = str "..")); [|assumption].
      destruct allow; [|exact Hres].
      constructor; [|exact Hres]. repeat split; try discriminate. exact Hseg.
  - constructor; [|exact Hres]. repeat split; auto.
Qed.

Lemma fold_normalize_ok allow segs :
  forall res, Forall (fun seg => 47 ∉ seg) segs -> kept_ok allow res ->
  kept_ok allow (fold_left (normalize_step allow) segs res).
Proof.
  induction segs as [|seg segs IH]; intros res Hsegs Hres; simpl; [exact Hres|].
  inversion Hsegs; subst. apply IH; [assumption|].
  apply normalize_step_ok; assumption.
Qed.

(** Resolving the segments kept so far, then the rest of the path, is
    resolving the path. *)
Lemma resolve_step_name res seg :
  seg <> [] -> seg <> str "." -> seg <> str ".." ->
  resolve_step res seg = seg :: res.
Proof.
  intros H1 H2 H3. unfold resolve_step.
  rewrite !bool_decide_eq_false_2 by assumption. reflexivity.
Qed.

Lemma resolve_kept allow base segs :
  (allow = false -> base = []) ->
  Forall (fun seg => 47 ∉ seg) segs ->
  forall res, kept_ok allow res ->
  fold_left resolve_step (rev (fold_left (normalize_step allow) segs res)) base
  = fold_left resolve_step segs (fold_left resolve_step (rev res) base).
Proof.
  intros Hbase. induction segs as [|seg segs IH]; intros Hsegs res Hres; simpl;
    [reflexivity|].
  inversion Hsegs as [|? ? Hslash Hsegs']; subst.
  rewrite IH by (try apply normalize_step_ok; assumption).
  f_equal. unfold normalize_step, resolve_step at 2.
  destruct (bool_decide_reflect (seg = [])) as [->|Hne]; [reflexivity|].
  destruct (bool_decide_reflect (seg = str ".")) as [->|Hdot]; [reflexivity|].
  cbn [orb].
  destruct (bool_decide_reflect (seg = str "..")) as [->|Hdd].
  - destruct res as [|last res'].
    + destruct allow; simpl; [reflexivity|].
      rewrite Hbase; reflexivity.
    + inversion Hres as [|? ? (Hl1 & Hl2 & Hl3 & Hl4) Hres']; subst.
      destruct (bool_decide_reflect (last = str "..")) as [->|Hl].
      * destruct allow; [|exfalso; apply Hl4; reflexivity].
        simpl. rewrite !fold_left_app. reflexivity.
      * simpl. rewrite fold_left_app. simpl.
        rewrite (resolve_step_name _ last) by assumption. reflexivity.
  - simpl. rewrite fold_left_app. simpl.
    rewrite (resolve_step_name _ seg) by assumption. reflexivity.
Qed.

Lemma resolve_eq cwd p :
  resolve cwd p = rev (fold_left resolve_step (split_slash p) (resolve_base cwd p)).
Proof. reflexivity. Qed.

Lemma kept_ok_rev allow res : kept_ok allow res -> kept_ok allow (rev res).
Proof.
  unfold kept_ok. rewrite !Forall_forall. intros H x Hx. apply H.
  apply list_elem_of_In. apply in_rev. apply list_elem_of_In. exact Hx.
Qed.

Lemma join_slash_head allow seg segs :
  kept_ok allow (seg :: segs) ->
  exists c rest, join_slash (seg :: segs) = c :: rest /\ c <> 47.
Proof.
  intros Hok. inversion Hok as [|? ? (Hne & _ & Hslash & _) _]; subst.
  destruct seg as [|c seg']; [congruence|].
  exists c. destruct segs; simpl; eexists; (split; [reflexivity|]);
    intros ->; apply Hslash; left.
Qed.

Lemma fold_resolve_skip base segs :
  fold_left resolve_step ([] :: segs) base = fold_left resolve_step segs base.
Proof. reflexivity. Qed.

Lemma resolve_base_relative cwd c (p : jstring) :
  c <> 47 -> resolve_base cwd (c :: p) = rev cwd.
Proof.
  intros Hc. unfold resolve_base. destruct c as [|q]; [reflexivity|].
  repeat (destruct q as [q|q|]; try reflexivity). congruence.
Qed.

(** [path.normalize] keeps the meaning of a path. *)
Lemma resolve_normalize cwd (p : jstring) :
  resolve cwd (normalize p) = resolve cwd p.
Proof.
  destruct p as [|c p']; [vm_compute; reflexivity|].
  assert (Hkept : kept_ok (negb (c =? 47))
                    (normalize_segments (negb (c =? 47)) (c :: p'))).
  { apply kept_ok_rev, fold_normalize_ok;
      [apply split_slash_no_slash|constructor]. }
  assert (Hsem : fold_left resolve_step
                   (normalize_segments (negb (c =? 47)) (c :: p'))
                   (resolve_base cwd (c :: p'))
                 = fold_left resolve_step (split_slash (c :: p'))
                     (resolve_base cwd (c :: p'))).
  { unfold normalize_segments. rewrite resolve_kept;
      [reflexivity| |apply split_slash_no_slash|constructor].
    intros Habs. apply negb_false_iff, N.eqb_eq in Habs. subst c. reflexivity. }
  rewrite (resolve_eq cwd (c :: p')), <- Hsem. unfold normalize.
  destruct (normalize_segments (negb (c =? 47)) (c :: p')) as [|seg segs].
  - cbn [join_slash].
    destruct (N.eqb_spec c 47) as [->|Hc]; [reflexivity|].
    rewrite resolve_base_relative by exact Hc.
    destruct (bool_decide _); reflexivity.
  - destruct (join_slash_head _ _ _ Hkept) as (c1 & rest & Ejoin & Hc1).
    rewrite Ejoin, <- Ejoin.
    assert (Hsplit : split_slash (join_slash (seg :: segs)) = seg :: segs).
    { apply split_join_slash; [discriminate|].
      eapply Forall_impl; [exact Hkept|]. intros x (_ & _ & Hx & _). exact Hx. }
    assert (Htrail : forall (b : bool) base,
              fold_left resolve_step
                (split_slash (join_slash (seg :: segs) ++
                              (if b then str "/" else [])))
                base
              = fold_left resolve_step (seg :: segs) base).
    { intros [|] base.
      - change (str "/") with (47 :: @nil N).
        rewrite split_slash_app, Hsplit, fold_left_app. reflexivity.
      - rewrite app_nil_r, Hsplit. reflexivity. }
    rewrite resolve_eq.
    destruct (N.eqb_spec c 47) as [->|Hc].
    + change (str "/" ++ ?x) with (47 :: x).
      change (split_slash (47 :: ?x)) with ([] :: split_slash x).
      rewrite fold_resolve_skip, Htrail. reflexivity.
    + cbn [app]. rewrite Htrail.
      rewrite (resolve_base_relative cwd c) by exact Hc.
      rewrite Ejoin. cbn [app].
      rewrite (resolve_base_relative cwd c1) by exact Hc1.
      reflexivity.
Qed.

Lemma valid_name_spec (n : jstring) :
  valid_name n = true ->
  n <> [] /\ (47 ∉ n) /\ n <> str "." /\ n <> str "..".
Proof.
  unfold valid_name. rewrite !andb_true_iff, !negb_true_iff.
  intros [[[H1 H2] H3] H4].
  apply bool_decide_eq_false in H1, H2, H3, H4. auto.
Qed.

(** [path.join(dest, name)] is the child [name] of [dest]. *)
Lemma resolve_child cwd (dest n : jstring) :
  valid_name n = true ->
  resolve cwd (path_join [dest; n]) = resolve cwd dest ++ [n].
Proof.
  intros Hn. apply valid_name_spec in Hn as (Hne & Hslash & Hdot & Hdd).
  unfold path_join.
  destruct n as [|cn n']; [congruence|]. set (n := cn :: n') in *.
  destruct dest as [|cd dest'].
  - rewrite filter_cons_False by (intros H; apply H; reflexivity).
    rewrite filter_cons_True, filter_nil by discriminate. cbn [join_slash].
    rewrite resolve_normalize, resolve_eq, split_slash_segment by exact Hslash.
    unfold n at 2. rewrite resolve_base_relative
      by (intros ->; apply Hslash; left).
    cbn [fold_left]. rewrite resolve_step_name by assumption.
    cbn [rev]. rewrite rev_involutive.
    change (resolve cwd []) with (rev (rev cwd)).
    rewrite rev_involutive. reflexivity.
  - rewrite !filter_cons_True, filter_nil by discriminate.
    cbn [join_slash].
    rewrite resolve_normalize, !resolve_eq.
    change (resolve_base cwd ((cd :: dest') ++ 47 :: n))
      with (resolve_base cwd (cd :: dest')).
    rewrite split_slash_app, (split_slash_segment n) by exact Hslash.
    rewrite fold_left_app. cbn [fold_left].
    rewrite resolve_step_name by assumption. reflexivity.
Qed.

(** ** IPFS trees in the simulated environment *)

Lemma ancestors_are_dirs_spec fs q : ancestors_are_dirs fs q = true -> anc fs q.
Proof.
  unfold ancestors_are_dirs, anc. rewrite forallb_forall. intros H k Hk.
  apply H. apply in_seq. lia.
Qed.

Lemma vacant_spec fs q type : vacant fs q type = true -> vac fs q type.
Proof.
  unfold vacant, vac. rewrite forallb_forall. intros H p v Hp Hpre.
  specialize (H (p, v)). cbn [fst snd] in H.
  rewrite bool_decide_eq_true_2 in H by exact Hpre. cbn [negb orb] in H.
  assert (Hin : In (p, v) (map_to_list fs)).
  { apply list_elem_of_In, elem_of_map_to_list. exact Hp. }
  apply H, andb_prop in Hin as [He Ht].
  apply bool_decide_eq_true in He. injection He as -> ->.
  apply N.eqb_eq in Ht. auto.
Qed.

Lemma is_dir_Some fs (q : fpath) :
  q <> [] -> is_dir fs q = true -> fs !! q = Some Dir.
Proof.
  unfold is_dir. destruct q; [congruence|].
  destruct (fs !! _) as [[|]|]; congruence.
Qed.

Lemma is_dir_None fs (q : fpath) :
  q <> [] -> fs !! q = None -> is_dir fs q = false.
Proof.
  unfold is_dir. intros Hne H. destruct q; [congruence|]. rewrite H. reflexivity.
Qed.

Lemma is_dir_of_Some fs (q : fpath) : fs !! q = Some Dir -> is_dir fs q = true.
Proof.
  unfold is_dir. intros H. destruct q; [reflexivity|]. rewrite H. reflexivity.
Qed.

Lemma mkdirs_fresh_from fs (segs : list jstring) :
  forall base, segs <> [] ->
  (forall k, (0 < k < length segs)%nat ->
             fs !! (base ++ take k segs) = Some Dir) ->
  is_file fs (base ++ segs) = false ->
  mkdirs fs base segs = Some (<[base ++ segs := Dir]> fs).
Proof.
  induction segs as [|seg segs IH]; intros base Hne Hdirs Hfile; [congruence|].
  cbn [mkdirs]. destruct segs as [|seg' segs'].
  - rewrite Hfile. reflexivity.
  - assert (Hq : fs !! (base ++ [seg]) = Some Dir).
    { apply (Hdirs 1%nat). simpl. lia. }
    unfold is_file at 1. rewrite Hq. rewrite (insert_id fs _ _ Hq).
    rewrite IH; rewrite <- ?app_assoc; [reflexivity|discriminate| |exact Hfile].
    intros k Hk. rewrite <- app_assoc. apply (Hdirs (S k)). simpl in *. lia.
Qed.

Lemma mkdirs_fresh fs (q : fpath) :
  q <> [] -> anc fs q -> is_file fs q = false ->
  mkdirs fs [] q = Some (<[q := Dir]> fs).
Proof.
  intros Hne Hanc Hfile.
  apply (mkdirs_fresh_from fs q []); [exact Hne| |exact Hfile].
  intros k Hk. apply is_dir_Some; [|apply Hanc; lia].
  destruct q, k; simpl in *; try lia; discriminate.
Qed.

Lemma parent_take (q : fpath) : parent q = take (length q - 1) q.
Proof.
  unfold parent. induction q as [|x q IH]; [reflexivity|].
  destruct q as [|y q']; [reflexivity|].
  change (removelast (x :: y :: q')) with (x :: removelast (y :: q')).
  rewrite IH. simpl. rewrite Nat.sub_0_r. reflexivity.
Qed.

Lemma with_files_same (w : Sim) : with_files w (files w) = w.
Proof. destruct w. reflexivity. Qed.

Lemma prefix_snoc_ne (q p : fpath) (n n' : jstring) :
  (q ++ [n]) `prefix_of` p -> (q ++ [n']) `prefix_of` p -> n = n'.
Proof.
  intros [k1 ->] [k2 H]. rewrite <- !app_assoc in H.
  apply app_inv_head in H. injection H as H _. exact H.
Qed.

Lemma prefix_snoc_not_take (q : fpath) (n : jstring) k :
  (k <= length q)%nat -> ~ (q ++ [n]) `prefix_of` take k q.
Proof.
  intros Hk Hpre. apply prefix_length in Hpre.
  rewrite length_app, length_take in Hpre. simpl in Hpre. lia.
Qed.

(** The entries of a tree at [q] are at or below [q]. *)
Lemma entries_below h :
  forall t q p v, (height t <= h)%nat ->
  entries q t !! p = Some v -> q `prefix_of` p.
Proof.
  induction h as [|h IH]; intros t q p v Hh.
  - destruct t; simpl in Hh; lia.
  - destruct t as [d|children]; cbn [entries].
    + intros H. apply lookup_singleton_Some in H as [<- _]. reflexivity.
    + intros H. apply lookup_union_Some_raw in H as [H|[_ H]].
      * cbn [height] in Hh. apply le_S_n in Hh.
        induction children as [|[n c] cs IHcs]; cbn [foldr] in H.
        -- rewrite lookup_empty in H. discriminate.
        -- cbn [foldr] in Hh.
           apply lookup_union_Some_raw in H as [H|[_ H]].
           ++ apply IHcs; [eapply Nat.max_lub_r; exact Hh|exact H].
           ++ apply IH in H; [|eapply Nat.max_lub_l; exact Hh].
              etrans; [|exact H]. apply prefix_app_r. reflexivity.
      * apply lookup_singleton_Some in H as [<- _]. reflexivity.
Qed.

Lemma do_sim_ensureDirSync (st : SimState) dest :
  resolve (cwd (world st)) dest <> [] ->
  anc (files (world st)) (resolve (cwd (world st)) dest) ->
  is_file (files (world st)) (resolve (cwd (world st)) dest) = false ->
  do sim (ensureDirSync dest) st =
  (Return tt,
   {| this := this st;
      world := with_files (world st)
                 (<[resolve (cwd (world st)) dest := Dir]> (files (world st)));
      log := log st ++ [(ensureDirSync dest, true)] |}).
Proof.
  intros Hne Hanc Hfile. unfold do. cbn [sim]. unfold sim_ensureDirSync.
  rewrite mkdirs_fresh by assumption. reflexivity.
Qed.

Lemma do_sim_ls (st : SimState) settings hash (listing : list Link) :
  ipfs_links (world st) !! hash = Some listing ->
  do sim (ls settings hash) st =
  (Return listing,
   {| this := this st; world := world st;
      log := log st ++ [(ls settings hash, true)] |}).
Proof.
  intros H. unfold do. cbn [sim]. unfold sim_ls. rewrite H. reflexivity.
Qed.

Lemma do_sim_cat (st : SimState) settings hash (d : jstring) :
  ipfs_data (world st) !! hash = Some d ->
  do sim (cat settings hash) st =
  (Return d,
   {| this := this st; world := world st;
      log := log st ++ [(cat settings hash, true)] |}).
Proof.
  intros H. unfold do. cbn [sim]. unfold sim_cat. rewrite H. reflexivity.
Qed.

Lemma do_sim_writeFileSync (st : SimState) dest d :
  is_dir (files (world st)) (resolve (cwd (world st)) dest) = false ->
  is_dir (files (world st)) (parent (resolve (cwd (world st)) dest)) = true ->
  do sim (writeFileSync dest d) st =
  (Return tt,
   {| this := this st;
      world := with_files (world st)
                 (<[resolve (cwd (world st)) dest := File d]> (files (world st)));
      log := log st ++ [(writeFileSync dest d, true)] |}).
Proof.
  intros Hnodir Hparent. unfold do. cbn [sim]. unfold sim_writeFileSync.
  cbv zeta. rewrite Hnodir, Hparent. reflexivity.
Qed.

Lemma walk_TDir links settings hash dest children listing :
  links !! hash = Some listing ->
  walk links settings hash dest (TDir children) =
  (ensureDirSync dest, true) :: (ls settings hash, true) ::
  each_walk links settings dest children listing.
Proof.
  intros H. cbn [walk]. rewrite H. do 2 f_equal.
  clear H. revert listing.
  induction children as [|[n c] cs IH]; intros listing; [reflexivity|].
  destruct listing as [|l listing']; [reflexivity|].
  cbn [each_walk]. f_equal. apply IH.
Qed.

Lemma stored_TDir links data hash type children :
  stored links data hash type (TDir children) = true ->
  type = types_dir /\
  exists listing, links !! hash = Some listing /\
                  each_stored links data children listing = true.
Proof.
  cbn [stored]. intros H. apply andb_prop in H as [Ht H].
  apply N.eqb_eq in Ht. split; [exact Ht|].
  destruct (links !! hash) as [listing|]; [|discriminate].
  exists listing. split; [reflexivity|].
  revert listing H. induction children as [|[n c] cs IH]; intros listing H.
  - destruct listing; [reflexivity|discriminate].
  - destruct listing as [|l listing']; [discriminate|].
    cbn [each_stored]. apply andb_prop in H as [H1 H2]. rewrite H1. cbn [andb].
    apply IH. exact H2.
Qed.

Section PullChildren.

Variables (settings : Settings) (rootHash : jstring) (fuel : nat).

Hypothesis IH :
  forall t hash dest type (st : SimState),
    (height t <= fuel)%nat ->
    wf t = true ->
    stored (ipfs_links (world st)) (ipfs_data (world st)) hash type t = true ->
    resolve (cwd (world st)) dest <> [] ->
    anc (files (world st)) (resolve (cwd (world st)) dest) ->
    vac (files (world st)) (resolve (cwd (world st)) dest) type ->
    exists st',
      pullIPFS sim settings rootHash fuel hash dest type st = (Return tt, st') /\
      pulled st st' (entries (resolve (cwd (world st)) dest) t)
        (walk (ipfs_links (world st)) settings hash dest t).

Lemma pull_children dest :
  forall children listing (st : SimState),
    each_stored (ipfs_links (world st)) (ipfs_data (world st)) children listing
    = true ->
    (foldr (fun c h => max (height c.2) h) 0 children <= fuel)%nat ->
    forallb valid_name (map fst children) = true ->
    NoDup (map fst children) ->
    forallb (fun c => wf c.2) children = true ->
    resolve (cwd (world st)) dest <> [] ->
    anc (files (world st)) (resolve (cwd (world st)) dest) ->
    files (world st) !! resolve (cwd (world st)) dest = Some Dir ->
    (forall p v n, files (world st) !! p = Some v -> n ∈ map fst children ->
                   ~ (resolve (cwd (world st)) dest ++ [n]) `prefix_of` p) ->
    exists st',
      for_each listing
        (fun link =>
           pullIPFS sim settings rootHash fuel (Hash link)
             (path_join [dest; Name link]) (Type_ link)) st
      = (Return tt, st') /\
      pulled st st' (children_entries (resolve (cwd (world st)) dest) children)
        (each_walk (ipfs_links (world st)) settings dest children listing).
Proof using IH.
  induction children as [|[n c] cs IHcs];
    intros listing st Hstored Hheight Hnames Hnodup Hwf Hne Hanc Hdir Hfree.
  - destruct listing; [|discriminate].
    exists st. split; [reflexivity|]. split; [reflexivity|].
    unfold children_entries. cbn [foldr each_walk].
    rewrite (left_id_L ∅ (∪)), with_files_same, app_nil_r. split; reflexivity.
  - destruct listing as [|l listing']; [discriminate|].
    cbn [each_stored] in Hstored.
    apply andb_prop in Hstored as [Hstored Hrest].
    apply andb_prop in Hstored as [Hname Hc].
    apply bool_decide_eq_true in Hname.
    cbn [map fst forallb foldr snd] in Hnames, Hnodup, Hwf, Hheight.
    apply andb_prop in Hnames as [Hn Hnames].
    apply andb_prop in Hwf as [Hwfc Hwf].
    apply NoDup_cons in Hnodup as [Hfresh Hnodup].
    set (R := resolve (cwd (world st)) dest) in *.
    assert (HR' : resolve (cwd (world st)) (path_join [dest; Name l]) = R ++ [n]).
    { rewrite Hname. apply resolve_child. exact Hn. }
    destruct (IH c (Hash l) (path_join [dest; Name l]) (Type_ l) st)
      as (st1 & Hrun1 & Hthis1 & Hworld1 & Hlog1).
    + eapply Nat.max_lub_l; exact Hheight.
    + exact Hwfc.
    + exact Hc.
    + rewrite HR'. destruct R; discriminate.
    + rewrite HR'. intros k Hk. rewrite length_app in Hk. simpl in Hk.
      destruct (decide (k = length R)) as [->|Hk'].
      * rewrite take_app_length. apply is_dir_of_Some. exact Hdir.
      * rewrite take_app_le by lia. apply Hanc. lia.
    + rewrite HR'. intros p v Hp Hpre. exfalso.
      apply (Hfree p v n Hp); [left|exact Hpre].
    + rewrite HR' in Hworld1.
      destruct (IHcs listing' st1)
        as (st2 & Hrun2 & Hthis2 & Hworld2 & Hlog2);
        rewrite ?Hworld1; cbn [with_files cwd files ipfs_links ipfs_data];
        fold R.
      * exact Hrest.
      * eapply Nat.max_lub_r; exact Hheight.
      * exact Hnames.
      * exact Hnodup.
      * exact Hwf.
      * exact Hne.
      * intros k Hk. specialize (Hanc k Hk).
        destruct (take k R) as [|x q] eqn:Eq; [reflexivity|].
        apply is_dir_Some in Hanc; [|discriminate].
        apply is_dir_of_Some. rewrite lookup_union_r; [exact Hanc|].
        destruct (entries (R ++ [n]) c !! (x :: q)) as [v|] eqn:E;
          [|reflexivity].
        exfalso. apply entries_below with (h := height c) in E; [|lia].
        rewrite <- Eq in E. apply (prefix_snoc_not_take R n k); [lia|exact E].
      * rewrite lookup_union_r; [exact Hdir|].
        destruct (entries (R ++ [n]) c !! R) as [v|] eqn:E; [|reflexivity].
        exfalso. apply entries_below with (h := height c) in E; [|lia].
        apply (prefix_snoc_not_take R n (length R)); [lia|].
        rewrite firstn_all. exact E.
      * intros p v n' Hp Hn' Hpre.
        apply lookup_union_Some_raw in Hp as [Hp|[_ Hp]].
        -- apply entries_below with (h := height c) in Hp; [|lia].
           apply Hfresh. rewrite (prefix_snoc_ne R p n n' Hp Hpre). exact Hn'.
        -- apply (Hfree p v n' Hp); [right; exact Hn'|exact Hpre].
      * exists st2. split.
        -- cbn [for_each]. unfold bind. rewrite Hrun1. exact Hrun2.
        -- split; [congruence|]. split.
           ++ rewrite Hworld2, Hworld1.
              cbn [with_files cwd files]. fold R.
              unfold children_entries. cbn [foldr fst snd].
              rewrite (assoc_L (∪)). reflexivity.
           ++ rewrite Hlog2, Hlog1, Hworld1, <- app_assoc.
              reflexivity.
Qed.

End PullChildren.

Lemma pullIPFS_sim settings rootHash fuel :
  forall t hash dest type (st : SimState),
    (height t <= fuel)%nat ->
    wf t = true ->
    stored (ipfs_links (world st)) (ipfs_data (world st)) hash type t = true ->
    resolve (cwd (world st)) dest <> [] ->
    anc (files (world st)) (resolve (cwd (world st)) dest) ->
    vac (files (world st)) (resolve (cwd (world st)) dest) type ->
    exists st',
      pullIPFS sim settings rootHash fuel hash dest type st = (Return tt, st') /\
      pulled st st' (entries (resolve (cwd (world st)) dest) t)
        (walk (ipfs_links (world st)) settings hash dest t).
Proof.
  induction fuel as [|fuel IH];
    intros t hash dest type st Hheight Hwf Hstored Hne Hanc Hvac.
  { destruct t; simpl in Hheight; lia. }
  set (R := resolve (cwd (world st)) dest) in *.
  destruct t as [d|children].
  - cbn [stored] in Hstored. apply andb_prop in Hstored as [Ht Hd].
    apply N.eqb_eq in Ht. apply bool_decide_eq_true in Hd. subst type.
    assert (Hnone : files (world st) !! R = None).
    { destruct (files (world st) !! R) as [v|] eqn:E; [|reflexivity].
      destruct (Hvac R v E) as (_ & _ & [=]). reflexivity. }
    cbn [pullIPFS].
    change (types_file =? types_dir) with false.
    change (types_file =? types_file) with true. cbv iota.
    unfold bind. rewrite (do_sim_cat st settings hash d Hd).
    rewrite do_sim_writeFileSync; cbn [world this log]; fold R.
    + eexists. split; [reflexivity|]. split; [reflexivity|].
      cbn [world entries log walk]. rewrite insert_union_singleton_l.
      rewrite <- app_assoc. split; reflexivity.
    + apply is_dir_None; assumption.
    + rewrite parent_take. apply Hanc.
      assert (length R <> 0%nat) by (intros E; apply nil_length_inv in E; auto).
      lia.
  - apply stored_TDir in Hstored as (-> & listing & Hls & Heach).
    cbn [wf] in Hwf. apply andb_prop in Hwf as [Hwf Hwfs].
    apply andb_prop in Hwf as [Hnames Hnodup].
    apply bool_decide_eq_true in Hnodup.
    cbn [height] in Hheight. apply le_S_n in Hheight.
    cbn [pullIPFS]. change (types_dir =? types_dir) with true. cbv iota.
    unfold bind at 1. rewrite do_sim_ensureDirSync; fold R;
      [|exact Hne|exact Hanc|].
    2:{ unfold is_file. destruct (files (world st) !! R) as [v|] eqn:E;
          [|reflexivity].
        destruct (Hvac R v E) as (_ & -> & _); reflexivity. }
    unfold bind at 1. rewrite (do_sim_ls _ settings hash listing) by exact Hls.
    cbn [world this log].
    match goal with
    | |- context [for_each listing _ ?s] => set (st1 := s)
    end.
    destruct (pull_children settings rootHash fuel IH dest children listing st1)
      as (st2 & Hrun & Hthis & Hworld & Hlog);
      cbn [st1 world with_files cwd files ipfs_links ipfs_data]; fold R;
      try assumption.
    + intros k Hk. specialize (Hanc k Hk).
      destruct (take k R) as [|x q] eqn:Eq; [reflexivity|].
      apply is_dir_Some in Hanc; [|discriminate].
      apply is_dir_of_Some. rewrite lookup_insert_ne; [exact Hanc|].
      intros E. apply (f_equal length) in E. rewrite <- Eq in E.
      rewrite length_take in E. lia.
    + apply lookup_insert_eq.
    + intros p v n Hp Hn Hpre.
      assert (HR : R `prefix_of` p).
      { etrans; [|exact Hpre]. apply prefix_app_r. reflexivity. }
      apply lookup_insert_Some in Hp as [[<- _]|[Hp1 Hp2]].
      * apply prefix_length in Hpre. rewrite length_app in Hpre.
        simpl in Hpre. lia.
      * destruct (Hvac p v Hp2 HR) as (E & _). congruence.
    + exists st2. split; [exact Hrun|]. split; [exact Hthis|]. split.
      * rewrite Hworld. cbn [st1 world with_files cwd files]. fold R.
        cbn [entries]. fold (children_entries R children).
        rewrite insert_union_singleton_l, (assoc_L (∪)). reflexivity.
      * rewrite Hlog, (walk_TDir _ _ _ _ _ listing Hls).
        cbn [st1 world with_files ipfs_links log].
        rewrite <- !app_assoc. reflexivity.
Qed.

Lemma children_entries_root (q : fpath) children :
  children_entries q children !! q = None.
Proof.
  destruct (children_entries q children !! q) as [v|] eqn:E; [|reflexivity].
  exfalso. unfold children_entries in E.
  induction children as [|[n c] cs IH]; cbn [foldr] in E.
  - rewrite lookup_empty in E. discriminate.
  - apply lookup_union_Some_raw in E as [E|[_ E]]; [auto|].
    apply entries_below with (h := height c) in E; [|cbn [snd]; lia].
    apply (prefix_snoc_not_take q n (length q)); [lia|].
    rewrite firstn_all. exact E.
Qed.

Lemma entries_root (q : fpath) t : is_Some (entries q t !! q).
Proof.
  destruct t as [d|children]; cbn [entries].
  - rewrite lookup_singleton_eq. eauto.
  - fold (children_entries q children).
    rewrite lookup_union_r by apply children_entries_root.
    rewrite lookup_singleton_eq. eauto.
Qed.

(** With nothing else at or below [q] before, the tree is all there is at
    or below [q] afterwards. *)
Lemma below_entries fs (q : fpath) type t :
  vac fs q type -> below q (entries q t ∪ fs) = entries q t.
Proof.
  intros Hvac. apply map_eq. intros p. apply option_eq. intros v.
  unfold below. rewrite map_lookup_filter_Some. cbn [fst]. split.
  - intros [Hp Hpre]. apply lookup_union_Some_raw in Hp as [Hp|[Hnone Hp]];
      [exact Hp|].
    destruct (Hvac p v Hp Hpre) as (-> & _).
    destruct (entries_root q t) as [v' Hv']. congruence.
  - intros Hp. split; [apply lookup_union_Some_l; exact Hp|].
    apply entries_below with (h := height t) in Hp; [exact Hp|lia].
Qed.

(** C8. In the simulated environment, for every well-formed tree held by
    the IPFS tables under a hash, pulled with enough fuel for its height to
    a destination above which every directory exists and at or below which
    there is nothing (but, for a directory, the empty destination itself),
    [pullIPFS] returns, and the files are then the files before with the
    entries of the tree added at the destination: a directory for each
    [dir], the content of each [file] at [target/childName], and nothing
    else at or below the destination; the calls made are those of the
    depth-first walk, one after the other.  In any environment, a node whose
    type is neither [dir] nor [file] throws UnknownNodeTypeError with that
    type, its hash and the root hash, without any call; met in the listing
    of a directory after the links before it have been pulled, it ends the
    loop with that error, the links after it not being pulled. *)
Theorem pullIPFS_reconstructs_the_tree :
  (forall settings rootHash t fuel hash dest type (st : SimState),
     wf t = true ->
     stored (ipfs_links (world st)) (ipfs_data (world st)) hash type t = true ->
     (height t <= fuel)%nat ->
     resolve (cwd (world st)) dest <> [] ->
     ancestors_are_dirs (files (world st)) (resolve (cwd (world st)) dest)
     = true ->
     vacant (files (world st)) (resolve (cwd (world st)) dest) type = true ->
     exists st',
       pullIPFS sim settings rootHash fuel hash dest type st = (Return tt, st') /\
       this st' = this st /\
       world st' =
         with_files (world st)
           (entries (resolve (cwd (world st)) dest) t ∪ files (world st)) /\
       below (resolve (cwd (world st)) dest) (files (world st'))
       = entries (resolve (cwd (world st)) dest) t /\
       log st' = log st ++ walk (ipfs_links (world st)) settings hash dest t) /\
  (forall W (env : forall c : call, W -> reply (answer c) * W)
          settings rootHash fuel hash dest type (st : @State W),
     type <> types_dir -> type <> types_file ->
     pullIPFS env settings rootHash (S fuel) hash dest type st =
     (Throw (UnknownNodeTypeError type hash rootHash), st)) /\
  (forall W (env : forall c : call, W -> reply (answer c) * W)
          settings rootHash fuel dest before link after (st st1 : @State W),
     Type_ link <> types_dir -> Type_ link <> types_file ->
     for_each before
       (fun l => pullIPFS env settings rootHash (S fuel) (Hash l)
                   (path_join [dest; Name l]) (Type_ l)) st
     = (Return tt, st1) ->
     for_each (before ++ link :: after)
       (fun l => pullIPFS env settings rootHash (S fuel) (Hash l)
                   (path_join [dest; Name l]) (Type_ l)) st
     = (Throw (UnknownNodeTypeError (Type_ link) (Hash link) rootHash), st1)).
Proof.
  assert (Hnode : forall W (env : forall c : call, W -> reply (answer c) * W)
            settings rootHash fuel hash dest type (st : @State W),
            type <> types_dir -> type <> types_file ->
            pullIPFS env settings rootHash (S fuel) hash dest type st =
            (Throw (UnknownNodeTypeError type hash rootHash), st)).
  { intros W env settings rootHash fuel hash dest type st Hd Hf.
    cbn [pullIPFS]. apply N.eqb_neq in Hd, Hf. rewrite Hd, Hf. reflexivity. }
  split; [|split; [exact Hnode|]].
  - intros settings rootHash t fuel hash dest type st
      Hwf Hstored Hheight Hne Hanc Hvac.
    apply ancestors_are_dirs_spec in Hanc. apply vacant_spec in Hvac.
    destruct (pullIPFS_sim settings rootHash fuel t hash dest type st)
      as (st' & Hrun & Hthis & Hworld & Hlog); try assumption.
    exists st'. split; [exact Hrun|]. split; [exact Hthis|].
    split; [exact Hworld|]. split; [|exact Hlog].
    rewrite Hworld. cbn [with_files files].
    apply (below_entries _ _ type). exact Hvac.
  - intros W env settings rootHash fuel dest before link after st st1 Hd Hf.
    revert st. induction before as [|l before IH]; intros st; cbn [for_each app].
    + intros [= <-]. unfold bind. rewrite Hnode by assumption. reflexivity.
    + unfold bind.
      destruct (pullIPFS env settings rootHash (S fuel) (Hash l) _ _ st)
        as [[[]|e|] st0]; try discriminate.
      apply IH.
Qed.

Lemma pullIPFS_reconstructs_the_tree_witness :
  (exists st',
     pullIPFS sim example_settings (str "QmRoot") 3 (str "QmRoot")
       (str "dapple_packages/root") types_dir
       (start example_dependency example_world) = (Return tt, st') /\
     below [str "home"; str "project"; str "dapple_packages"; str "root"]
       (files (world st'))
     = {[ [str "home"; str "project"; str "dapple_packages"; str "root"]
            := Dir;
          [str "home"; str "project"; str "dapple_packages"; str "root";
           str "a.txt"] := File (str "X");
          [str "home"; str "project"; str "dapple_packages"; str "root";
           str "sub"] := Dir;
          [str "home"; str "project"; str "dapple_packages"; str "root";
           str "sub"; str "b.txt"] := File (str "Y") ]}) /\
  pullIPFS sim example_settings (str "QmOdd") 1 (str "QmL")
    (str "dapple_packages/odd/link") 4
    (start example_dependency example_world)
  = (Throw (UnknownNodeTypeError 4 (str "QmL") (str "QmOdd")),
     start example_dependency example_world) /\
  let body := fun l =>
    pullIPFS sim example_settings (str "QmOdd") 1 (Hash l)
      (path_join [str "dapple_packages"; Name l]) (Type_ l) in
  for_each [mklink "QmA" "a.txt" 2; mklink "QmL" "link" 4;
            mklink "QmB" "b.txt" 2] body
    (start example_dependency example_world)
  = (Throw (UnknownNodeTypeError 4 (str "QmL") (str "QmOdd")),
     snd (for_each [mklink "QmA" "a.txt" 2] body
            (start example_dependency example_world))).
Proof.
  split; [|split].
  - destruct (proj1 pullIPFS_reconstructs_the_tree example_settings
                (str "QmRoot") example_tree 3%nat (str "QmRoot")
                (str "dapple_packages/root") types_dir
                (start example_dependency example_world))
      as (st' & Hrun & _ & _ & Hbelow & _).
    + vm_compute. reflexivity.
    + vm_compute. reflexivity.
    + vm_compute. lia.
    + vm_compute. discriminate.
    + vm_compute. reflexivity.
    + vm_compute. reflexivity.
    + exists st'. split; [exact Hrun|].
      etrans; [exact Hbelow|]. vm_compute. reflexivity.
  - apply (proj1 (proj2 pullIPFS_reconstructs_the_tree)); discriminate.
  - cbv zeta.
    apply (proj2 (proj2 pullIPFS_reconstructs_the_tree) Sim sim
             example_settings (str "QmOdd") 0%nat (str "dapple_packages")
             [mklink "QmA" "a.txt" 2] (mklink "QmL" "link" 4)
             [mklink "QmB" "b.txt" 2]);
      [discriminate|discriminate|].
    vm_compute. reflexivity.
Defined.

(** C3. The name [pkg] is read from the manifest fetched into the scratch
    directory while [dapple_packages/pkg] is already there with a file
    [old.txt]: [install] does not throw; it returns, having copied the
    scratch tree into the existing directory, which then holds both the
    old file and the new ones. *)
Theorem scratch_install_merges_into_existing :
  present (files installed_world) pkg_path = true /\
  getName example_dependency = [] /\
  fst (install sim 3 (start example_dependency installed_world)) = Return tt /\
  let st' := snd (install sim 3 (start example_dependency installed_world)) in
  getName (this st') = str "pkg" /\
  installedAt (this st') = str "dapple_packages/pkg" /\
  files (world st') !! (pkg_path ++ [str "old.txt"]) = Some (File (str "old")) /\
  files (world st') !! (pkg_path ++ [str "a.txt"]) = Some (File (str "X")) /\
  files (world st') !! (pkg_path ++ [str "dappfile"])
  = Some (File (str "pkg")).
Proof. vm_compute. repeat split; reflexivity. Qed.

Lemma second_install_fails_before_any_fetch_witness :
  let named := setName (str "pkg") example_dependency in
  let first := install sim 3 (start named example_world) in
  fst first = Return tt /\
  install sim 3 (start named (world (snd first)))
  = (Throw (AlreadyInstalledError (str "pkg")),
     {| this := named; world := world (snd first);
        log := [(accessSync (str "dapple_packages/pkg") R_OK, true)] |}).
Proof.
  cbv zeta. split; [vm_compute; reflexivity|].
  apply (second_install_fails_before_any_fetch sim 3
           (start (setName (str "pkg") example_dependency)
              (world (snd (install sim 3
                             (start (setName (str "pkg") example_dependency)
                                example_world)))))
           (world (snd (install sim 3
                          (start (setName (str "pkg") example_dependency)
                             example_world))))).
  - vm_compute. discriminate.
  - vm_compute. reflexivity.
Defined.

Lemma invalid_commit_throws_before_any_process_witness :
  let scratch := str "/tmp/dapple/packages/12345" in
  let constructed := start git_dependency example_world in
  let chosen := snd (_getTmpDir sim constructed) in
  pull sim 3 (str "dapple_packages/dapple") constructed
  = (Throw (InvalidCommitError (str "not-hex!!")), constructed) /\
  this chosen = set_tmpDir scratch git_dependency /\
  pull sim 3 scratch chosen
  = (Throw (InvalidCommitError (str "not-hex!!")), chosen).
Proof.
  cbv zeta. split; [|split; [vm_compute; reflexivity|]].
  - apply (invalid_commit_throws_before_any_process sim 3
             (str "dapple_packages/dapple")
             (start git_dependency example_world)).
    + vm_compute. reflexivity.
    + discriminate.
    + vm_compute. reflexivity.
  - apply (invalid_commit_throws_before_any_process sim 3
             (str "/tmp/dapple/packages/12345")
             (snd (_getTmpDir sim (start git_dependency example_world)))).
    + vm_compute. reflexivity.
    + vm_compute. discriminate.
    + vm_compute. reflexivity.
Defined.

(** The same in an install: the descriptor has no name, so [install]
    chooses the scratch directory and calls [pull], which throws before
    any process is spawned. *)
Example scratch_install_invalid_commit :
  let run := install sim 3 (start git_dependency example_world) in
  fst run = Throw (InvalidCommitError (str "not-hex!!")) /\
  log (snd run) =
    returned [accessSync (str "dapple_packages") W_OK; tmpdir; random;
              emptyDirSync (str "/tmp/dapple/packages/12345")].
Proof. vm_compute. split; reflexivity. Qed.

Lemma probe_failure_creates_nothing_witness :
  pull sim 3 (str "dapple_packages/gone")
    (start (with_path "ipfs://QmGone" example_dependency) example_world)
  = (Throw IPFSConnectionError,
     {| this := with_path "ipfs://QmGone" example_dependency;
        world := example_world;
        log := [(ipfs_settings, true);
                (ls example_settings (str "QmGone"), false)] |}).
Proof.
  apply (probe_failure_creates_nothing sim 3 (str "dapple_packages/gone")
           (start (with_path "ipfs://QmGone" example_dependency) example_world)
           example_settings example_world example_world ENETWORK);
    vm_compute; reflexivity.
Defined.

(** In the simulated environment a failed probe leaves the files as they
    were. *)
Lemma probe_failure_leaves_the_files
    depth (destination : jstring) (st : SimState) settings :
  hasGitPath (this st) = false ->
  hasIPFSPath (this st) = true ->
  dapplerc (world st) = Some settings ->
  ipfs_links (world st)
    !! replace_empty ipfsSchemeRegex (getPath (this st)) = None ->
  pull sim depth destination st =
  (Throw IPFSConnectionError,
   {| this := this st; world := world st;
      log := log st ++
        [(ipfs_settings, true);
         (ls settings (replace_empty ipfsSchemeRegex (getPath (this st))),
          false)] |}).
Proof.
  intros Hgit Hipfs Hrc Hls.
  unfold pull, _pullIPFS, bind, try_catch, get_this, throw, do.
  rewrite Hgit, Hipfs. cbn [sim]. unfold sim_ipfs_settings, sim_ls.
  rewrite Hrc. cbn [world this log]. rewrite Hls.
  rewrite <- app_assoc. reflexivity.
Qed.

Lemma cleanup_failure_keeps_the_install_witness :
  let run := install sim 3 (start example_dependency sticky_world) in
  fst run =
    Throw (CleanupError (str "pkg") (str "dapple_packages/pkg")
             (str "/tmp/dapple/packages/12345")) /\
  installedAt (this (snd run)) = str "dapple_packages/pkg" /\
  files (world (snd run)) !! (pkg_path ++ [str "a.txt"]) = Some (File (str "X")).
Proof.
  destruct (cleanup_failure_keeps_the_install sim 3
              (start example_dependency sticky_world)
              (fst (install sim 3 (start example_dependency sticky_world)))
              (snd (install sim 3 (start example_dependency sticky_world)))
              (log (snd (install sim 3 (start example_dependency sticky_world))))
              (str "/tmp/dapple/packages/12345"))
    as (Hr & Hat & _).
  - apply surjective_pairing.
  - reflexivity.
  - vm_compute. apply list_elem_of_In. simpl. tauto.
  - cbv zeta. split; [etrans; [exact Hr|]; vm_compute; reflexivity|].
    split; vm_compute; reflexivity.
Defined.

Lemma ipfs_root_is_pulled_as_a_directory_witness :
  let run :=
    _pullIPFS sim 3 (str "dapple_packages/file")
      (start (with_path "ipfs://QmFile" example_dependency) example_world) in
  ipfs_data example_world !! str "QmFile" = Some (str "F") /\
  fst run = Return tt /\
  files (world (snd run))
    !! [str "home"; str "project"; str "dapple_packages"; str "file"]
  = Some Dir /\
  exists ok rest,
    log (snd run) =
    [(ipfs_settings, true); (ls example_settings (str "QmFile"), true)] ++
    (ensureDirSync (str "dapple_packages/file"), ok) :: rest.
Proof.
  destruct (ipfs_root_is_pulled_as_a_directory sim 3
              (str "dapple_packages/file")
              (start (with_path "ipfs://QmFile" example_dependency) example_world)
              example_settings example_world example_world []
              (fst (_pullIPFS sim 3 (str "dapple_packages/file")
                      (start (with_path "ipfs://QmFile" example_dependency)
                         example_world)))
              (snd (_pullIPFS sim 3 (str "dapple_packages/file")
                      (start (with_path "ipfs://QmFile" example_dependency)
                         example_world))))
    as (_ & ok & rest & Hlog & _).
  - lia.
  - vm_compute. reflexivity.
  - vm_compute. reflexivity.
  - apply surjective_pairing.
  - cbv zeta. split; [vm_compute; reflexivity|].
    split; [vm_compute; reflexivity|]. split; [vm_compute; reflexivity|].
    exists ok, rest. exact Hlog.
Defined.

(** In a scratch install the destination of [pull] is the scratch
    directory, which [_getTmpDir] has created before [pull] is called: when
    the probe throws, [install] throws IPFSConnectionError and the scratch
    directory, empty, is left behind. *)
Example scratch_install_probe_failure :
  let run :=
    install sim 3
      (start (with_path "ipfs://QmGone" example_dependency) example_world) in
  fst run = Throw IPFSConnectionError /\
  files example_world !! scratch_path = None /\
  below scratch_path (files (world (snd run))) = {[ scratch_path := Dir ]}.
Proof. vm_compute. repeat split; reflexivity. Qed.

(** * Further properties *)

(** ** Literals and runs *)

Lemma matcher_Char i input c ch (s : jstring) caps k :
  matcher i input (Char c) (ch :: s) caps k =
  if cls_match i c ch then k s caps else None.
Proof. reflexivity. Qed.

(** A literal matches what is equal to it under the flag. *)
Lemma lit_matches i input (w : string) :
  forall (g s : jstring) caps k,
    map (Canonicalize i) g = map (Canonicalize i) (str w) ->
    matcher i input (lit w) (g ++ s) caps k = k s caps.
Proof.
  induction w as [|a w IH]; intros g s caps k H.
  - destruct g; [reflexivity|discriminate].
  - destruct g as [|ch g]; [discriminate|].
    cbn [map str] in H. injection H as Hch Hg.
    change ((ch :: g) ++ s) with (ch :: (g ++ s)).
    destruct w as [|b w'].
    + destruct g; [|discriminate].
      change (lit (String a EmptyString)) with (Char (Chr (N_of_ascii a))).
      rewrite matcher_Char. unfold cls_match. rewrite Hch, N.eqb_refl.
      reflexivity.
    + change (lit (String a (String b w')))
        with (Seq (Char (Chr (N_of_ascii a))) (lit (String b w'))).
      rewrite matcher_Seq, matcher_Char. unfold cls_match at 1.
      rewrite Hch, N.eqb_refl. apply IH. exact Hg.
Qed.

(** A literal does not match where the first character differs. *)
Lemma lit_mismatch i input a (w : string) ch (s : jstring) caps k :
  Canonicalize i (N_of_ascii a) <> Canonicalize i ch ->
  matcher i input (lit (String a w)) (ch :: s) caps k = None.
Proof.
  intros Hne. apply N.eqb_neq in Hne.
  destruct w as [|b w'].
  - change (lit (String a EmptyString)) with (Char (Chr (N_of_ascii a))).
    rewrite matcher_Char. unfold cls_match. rewrite Hne. reflexivity.
  - change (lit (String a (String b w')))
      with (Seq (Char (Chr (N_of_ascii a))) (lit (String b w'))).
    rewrite matcher_Seq, matcher_Char. unfold cls_match at 1.
    rewrite Hne. reflexivity.
Qed.

(** What a literal has matched is equal to it under the flag. *)
Lemma lit_inv i input (w : string) :
  forall (s : jstring) caps k res,
    matcher i input (lit w) s caps k = Some res ->
    exists g s1, s = g ++ s1 /\
                 map (Canonicalize i) g = map (Canonicalize i) (str w) /\
                 k s1 caps = Some res.
Proof.
  induction w as [|a w IH]; intros s caps k res H.
  - exists [], s. auto.
  - destruct w as [|b w'].
    + change (lit (String a EmptyString)) with (Char (Chr (N_of_ascii a))) in H.
      destruct s as [|ch s]; [discriminate|].
      rewrite matcher_Char in H. unfold cls_match in H.
      destruct (N.eqb_spec (Canonicalize i (N_of_ascii a)) (Canonicalize i ch))
        as [E|E]; [|discriminate].
      exists [ch], s. cbn [map str]. rewrite E. auto.
    + change (lit (String a (String b w')))
        with (Seq (Char (Chr (N_of_ascii a))) (lit (String b w'))) in H.
      destruct s as [|ch s]; [discriminate|].
      rewrite matcher_Seq, matcher_Char in H. unfold cls_match at 1 in H.
      destruct (N.eqb_spec (Canonicalize i (N_of_ascii a)) (Canonicalize i ch))
        as [E|E]; [|discriminate].
      apply IH in H as (g & s1 & -> & Hg & H).
      exists (ch :: g), s1. split; [reflexivity|]. split; [|exact H].
      change (str (String a (String b w')))
        with (N_of_ascii a :: str (String b w')).
      cbn [map]. rewrite E, Hg. reflexivity.
Qed.

(** [c+] takes the whole of a run that nothing of the class follows. *)
Lemma repeat_plus_run p (pre s1 : jstring) k r :
  pre <> [] -> forallb p pre = true ->
  match s1 with [] => True | ch :: _ => p ch = false end ->
  k s1 = Some r ->
  repeat_plus p (pre ++ s1) k = Some r.
Proof.
  intros Hne Hall Hstop Hk. induction pre as [|ch pre IH]; [congruence|].
  cbn [forallb] in Hall. apply andb_prop in Hall as [Hp Hall].
  change ((ch :: pre) ++ s1) with (ch :: (pre ++ s1)).
  cbn [repeat_plus]. rewrite Hp.
  destruct pre as [|ch' pre'].
  - cbn [app].
    assert (repeat_plus p s1 k = None) as ->; [|exact Hk].
    destruct s1 as [|c1 s1]; [reflexivity|].
    cbn [repeat_plus]. rewrite Hstop. reflexivity.
  - rewrite IH; [reflexivity|discriminate|exact Hall].
Qed.

(** [c+] finds a match when some run of the class has one after it. *)
Lemma repeat_plus_some p (pre s1 : jstring) k r :
  pre <> [] -> forallb p pre = true -> k s1 = Some r ->
  exists r', repeat_plus p (pre ++ s1) k = Some r'.
Proof.
  intros Hne Hall Hk. induction pre as [|ch pre IH]; [congruence|].
  cbn [forallb] in Hall. apply andb_prop in Hall as [Hp Hall].
  change ((ch :: pre) ++ s1) with (ch :: (pre ++ s1)).
  cbn [repeat_plus]. rewrite Hp.
  destruct (repeat_plus p (pre ++ s1) k) as [r'|] eqn:E; [eauto|].
  destruct pre as [|ch' pre'].
  - cbn [app]. eauto.
  - destruct IH as [r' Hr']; [discriminate|exact Hall|discriminate].
Qed.

(** ** The git form, in full *)

Lemma lower_alnum_no_at (v : jstring) : all_of true lower_alnum v = true -> 64 ∉ v.
Proof.
  intros Hall Hin. unfold all_of in Hall. rewrite forallb_forall in Hall.
  apply list_elem_of_In, Hall in Hin. vm_compute in Hin. discriminate.
Qed.

Lemma split_at_last_unique (a a' b b' : jstring) :
  64 ∉ b -> 64 ∉ b' -> a ++ 64 :: b = a' ++ 64 :: b' -> a = a' /\ b = b'.
Proof.
  revert a'. induction a as [|c a IH]; intros a' Hb Hb' H.
  - destruct a' as [|c' a'].
    + injection H as ->. auto.
    + injection H as _ H. exfalso. apply Hb. rewrite H.
      apply elem_of_app. right. left.
  - destruct a' as [|c' a'].
    + injection H as _ H. exfalso. apply Hb'. rewrite <- H.
      apply elem_of_app. right. left.
    + injection H as -> H. destruct (IH a' Hb Hb' H) as [-> ->]. auto.
Qed.

(** The git form is [path@version] with a version of letters and digits. *)
Lemma gitPathRegex_exec_inv (s : jstring) pieces :
  exec gitPathRegex s = Some pieces ->
  exists p v, piece pieces 1 = Some p /\ piece pieces 2 = Some v /\
              s = p ++ 64 :: v /\ v <> [] /\ all_of true lower_alnum v = true.
Proof.
  unfold exec.
  rewrite (search_anchored gitPathRegex s
    (Seq (Group 1 (Plus Dot +++ Char Dot +++ lit "git"))
       ((chr "@" +++ Group 2 (Plus (Class false [(97, 122); (48, 57)])))
        +++ Eol))%re eq_refl).
  destruct (matcher _ _ _ _ _ _) as [[s1 c1]|] eqn:E; [|discriminate].
  intros [= <-]. rewrite !piece_insert_0 by discriminate.
  rewrite matcher_Seq in E.
  change (matcher ?i ?inp (Group 1 ?x) ?s0 ?c ?k)
    with (matcher i inp x s0 c
            (fun s1 c1 => k s1 (<[1%nat := Some (between s0 s1)]> c1))) in E.
  apply (matcher_consumed _ _ _ (fun _ => True)) in E
    as (pre & s2 & c2 & -> & _ & E & Hlen & _);
    [|apply Forall_forall; auto].
  rewrite between_app in E.
  rewrite matcher_Seq, matcher_Seq in E.
  destruct s2 as [|ch s2]; [discriminate|].
  cbn [matcher chr] in E.
  destruct (cls_match _ _ ch) eqn:Ech; [|discriminate].
  apply at_inv in Ech. subst ch.
  apply repeat_plus_inv in E as (n & Hn & Hall & E).
  destruct (drop n s2) eqn:Hdrop; [|discriminate].
  injection E as <- <-.
  assert (Hs2 : between s2 [] = s2) by apply between_nil.
  apply drop_nil_take in Hdrop. rewrite Hdrop in Hall.
  exists pre, s2. unfold piece.
  rewrite list_lookup_insert_ne by discriminate.
  rewrite !list_lookup_insert_eq
    by (rewrite ?length_insert, Hlen; simpl; lia).
  rewrite Hs2. repeat split; auto.
  intros ->. simpl in Hn. lia.
Qed.

(** The git pattern matches a path that ends in [git] after at least two
    more characters, followed by [@] and letters and digits. *)
Lemma gitPathRegex_matches (q g v : jstring) (c : N) :
  q <> [] -> all_of true Dot (q ++ [c]) = true ->
  same_ignoring_case g (str "git") = true ->
  v <> [] -> all_of true lower_alnum v = true ->
  exists pieces, exec gitPathRegex (q ++ c :: g ++ 64 :: v) = Some pieces.
Proof.
  intros Hq Hdot Hg Hv Hall. unfold exec.
  rewrite (search_anchored gitPathRegex _
    (Seq (Group 1 (Plus Dot +++ Char Dot +++ lit "git"))
       ((chr "@" +++ Group 2 (Plus (Class false [(97, 122); (48, 57)])))
        +++ Eol))%re eq_refl).
  set (s := q ++ c :: g ++ 64 :: v).
  rewrite matcher_Seq.
  change (matcher ?i ?inp (Group 1 ?x) ?s0 ?c ?k)
    with (matcher i inp x s0 c
            (fun s1 c1 => k s1 (<[1%nat := Some (between s0 s1)]> c1))).
  rewrite matcher_Seq.
  change (matcher ?i ?inp (Plus ?x) ?s0 ?c ?k)
    with (repeat_plus (cls_match i x) s0 (fun s1 => k s1 c)).
  unfold all_of in Hdot. rewrite forallb_app in Hdot.
  apply andb_prop in Hdot as [Hdq Hdc]. cbn [forallb] in Hdc.
  rewrite andb_true_r in Hdc.
  apply bool_decide_eq_true in Hg.
  edestruct (repeat_plus_some (cls_match (ignoreCase gitPathRegex) Dot) q
               (c :: g ++ 64 :: v)) as [[s1 c1] ->];
    [exact Hq|exact Hdq| |eauto].
  cbv beta. rewrite matcher_Seq, matcher_Char.
  change (ignoreCase gitPathRegex) with true. rewrite Hdc.
  rewrite (lit_matches true s "git" g (64 :: v)) by exact Hg.
  rewrite matcher_Seq, matcher_Seq.
  unfold chr. rewrite matcher_Char.
  change (cls_match true (Chr (N_of_ascii "@")) 64) with true. cbv iota.
  apply Group_Plus_all; [exact Hv|exact Hall|].
  reflexivity.
Qed.

Lemma test_exec re (s : jstring) :
  test re s = true <-> exists pieces, exec re s = Some pieces.
Proof.
  unfold test, exec. destruct (search re s s) as [[[s0 s1] c1]|].
  - split; eauto.
  - split; [discriminate|intros [? [=]]].
Qed.

Lemma truthy_Some (s : jstring) : s <> [] -> truthy (Some s) = true.
Proof. destruct s; [congruence|reflexivity]. Qed.

Lemma new_Dependency_versioned (p v : jstring) (n : jvalue) :
  v <> [] ->
  new_Dependency (Some p) (Some v) n =
  Return {| name := or_str n []; path := p; version := v;
            packagesDirectory := str "dapple_packages";
            installedAt := []; _tmpDir := None |}.
Proof.
  intros Hv. unfold new_Dependency. rewrite (truthy_Some v Hv), andb_false_r.
  rewrite !or_str_nil. reflexivity.
Qed.

(** X1. The git form.  A specifier [path@version] whose path ends in
    [git], in either case of the letters, after at least two more
    characters, none of them a line terminator, and whose version is made
    of letters and digits, parses to exactly that path and that version;
    the name is the one given, or empty.  The path may itself hold [@], as
    [git@host:repo.git] does: the version starts after the last one. *)
Theorem git_form_parses (q g v : jstring) (c : N) (name : jvalue) :
  q <> [] -> all_of true Dot (q ++ [c]) = true ->
  same_ignoring_case g (str "git") = true ->
  v <> [] -> all_of true lower_alnum v = true ->
  fromDependencyString (q ++ c :: g ++ 64 :: v) name =
  Return {| name := or_str name []; path := q ++ c :: g; version := v;
            packagesDirectory := str "dapple_packages";
            installedAt := []; _tmpDir := None |}.
Proof.
  intros Hq Hdot Hg Hv Hall.
  destruct (gitPathRegex_matches q g v c Hq Hdot Hg Hv Hall) as [pieces Hexec].
  unfold fromDependencyString.
  rewrite (proj2 (test_exec gitPathRegex _) (ex_intro _ pieces Hexec)), Hexec.
  apply gitPathRegex_exec_inv in Hexec
    as (p' & v' & -> & -> & Hs & Hv' & Hall').
  replace (q ++ c :: g ++ 64 :: v) with ((q ++ c :: g) ++ 64 :: v) in Hs
    by (rewrite <- app_assoc; reflexivity).
  apply split_at_last_unique in Hs as [<- <-];
    [|apply lower_alnum_no_at; assumption..].
  apply new_Dependency_versioned. exact Hv.
Qed.

(** ** The generic form, in full *)

Lemma matcher_Opt i input r (s : jstring) caps k :
  matcher i input (Opt r) s caps k =
  match matcher i input r s caps
          (fun s1 c1 => if (length s1 =? length s)%nat then None else k s1 c1) with
  | Some x => Some x
  | None => k s caps
  end.
Proof. reflexivity. Qed.

Lemma matcher_Plus i input c (s : jstring) caps k :
  matcher i input (Plus c) s caps k =
  repeat_plus (cls_match i c) s (fun s1 => k s1 caps).
Proof. reflexivity. Qed.

Lemma matcher_Group i input n r (s : jstring) caps k :
  matcher i input (Group n r) s caps k =
  matcher i input r s caps
    (fun s1 c1 => k s1 (<[n := Some (between s s1)]> c1)).
Proof. reflexivity. Qed.

Lemma length_cons_neq {A} (a : A) (pre s : list A) :
  (length s =? length ((a :: pre) ++ s))%nat = false.
Proof. apply Nat.eqb_neq. rewrite length_app. simpl. lia. Qed.

(** After the path: [@] and a version on one line, or [@] alone. *)
Lemma pathRegex_tail_at input (v : jstring) caps1 :
  all_of false Dot v = true ->
  matcher false input (Opt (chr "@" +++ Opt (Group 2 (Plus Dot))) +++ Eol)%re
    (64 :: v) caps1 (fun s2 c2 => Some (s2, c2)) =
  Some ([], match v with [] => caps1 | _ => <[2%nat := Some v]> caps1 end).
Proof.
  intros Hv. rewrite matcher_Seq, matcher_Opt, matcher_Seq.
  unfold chr. rewrite matcher_Char.
  change (cls_match false (Chr (N_of_ascii "@")) 64) with true. cbv iota.
  rewrite matcher_Opt.
  destruct v as [|ch v].
  - reflexivity.
  - rewrite (Group_Plus_all false input 2 Dot (ch :: v) caps1 _
               ([], <[2%nat := Some (ch :: v)]> caps1));
      [reflexivity|discriminate|exact Hv|reflexivity].
Qed.

(** [path@version], each part possibly empty. *)
Lemma pathRegex_exec_at (p1 v : jstring) :
  all_of false notAtHash p1 = true -> all_of false Dot v = true ->
  exec pathRegex (p1 ++ 64 :: v) =
  Some [Some (p1 ++ 64 :: v); group_of p1; group_of v].
Proof.
  intros Hp Hv. unfold exec.
  rewrite (search_anchored pathRegex _
    (Opt (Group 1 (Plus notAtHash)) +++
     Opt (chr "@" +++ Opt (Group 2 (Plus Dot))) +++ Eol)%re eq_refl).
  change (ignoreCase pathRegex) with false.
  change (replicate (S (ngroups pathRegex)) None)
    with [@None jstring; None; None].
  rewrite matcher_Seq, matcher_Opt, matcher_Group, matcher_Plus.
  destruct p1 as [|ch p1].
  - cbn [app repeat_plus].
    change (cls_match false notAtHash 64) with false. cbv iota.
    rewrite pathRegex_tail_at by exact Hv.
    rewrite between_nil. destruct v; reflexivity.
  - erewrite repeat_plus_run;
      [|discriminate|exact Hp|reflexivity|].
    2:{ cbv beta. rewrite length_cons_neq, between_app.
        rewrite pathRegex_tail_at by exact Hv. reflexivity. }
    cbv beta iota zeta. rewrite between_nil. destruct v; reflexivity.
Qed.

(** ** Classes *)

(** What a class rejects is not in a string of the class. *)
Lemma all_of_excludes i c (bad : list N) (s : jstring) :
  forallb (fun b => negb (cls_match i c b)) bad = true ->
  all_of i c s = true -> forall b, b ∈ bad -> b ∉ s.
Proof.
  intros Hbad Hall b Hb Hin. unfold all_of in Hall.
  rewrite forallb_forall in Hbad, Hall.
  apply list_elem_of_In, Hbad in Hb. apply list_elem_of_In, Hall in Hin.
  rewrite Hin in Hb. discriminate.
Qed.

(** What is not in a literal, in either case, is not in a string equal to
    it but for the case. *)
Lemma same_ignoring_case_excludes (g w : jstring) b :
  same_ignoring_case g w = true ->
  Canonicalize true b ∉ map (Canonicalize true) w -> b ∉ g.
Proof.
  intros Hg Hb Hin. apply bool_decide_eq_true in Hg. apply Hb.
  rewrite <- Hg. apply list_elem_of_In, in_map, list_elem_of_In. exact Hin.
Qed.

Lemma LineTerminator_members ch :
  LineTerminator ch = true -> ch ∈ [10; 13; 8232; 8233].
Proof.
  unfold LineTerminator. rewrite !orb_true_iff, !N.eqb_eq.
  intros [[[-> | ->] | ->] | ->]; repeat constructor.
Qed.

(** A string without a line terminator is a string of [.]. *)
Lemma all_of_Dot i (s : jstring) :
  (forall b, b ∈ [10; 13; 8232; 8233] -> b ∉ s) -> all_of i Dot s = true.
Proof.
  intros H. unfold all_of. apply forallb_forall. intros ch Hch.
  unfold cls_match. destruct (LineTerminator ch) eqn:E; [|reflexivity].
  apply LineTerminator_members in E. apply H in E.
  exfalso. apply E, list_elem_of_In. exact Hch.
Qed.

Lemma notAtHash_spec ch :
  cls_match false notAtHash ch = negb ((64 =? ch) || (35 =? ch)).
Proof.
  unfold cls_match, notAtHash.
  change (concat (map range_members [(64, 64); (35, 35)])) with [64; 35].
  cbn [existsb]. unfold Canonicalize. cbn [andb].
  rewrite orb_false_r. reflexivity.
Qed.

(** A string without [@] and [#] is a string of [[^@#]]. *)
Lemma all_of_notAtHash (s : jstring) :
  all_of false notAtHash s = true <-> (64 ∉ s) /\ (35 ∉ s).
Proof.
  unfold all_of. induction s as [|ch s IH]; cbn [forallb].
  - split; [intros _; split; apply not_elem_of_nil|reflexivity].
  - rewrite andb_true_iff, IH, notAtHash_spec, negb_true_iff, orb_false_iff,
      !N.eqb_neq, !not_elem_of_cons.
    intuition congruence.
Qed.

(** A letter or digit in either case is of the class [[A-Za-z0-9]] under
    the [i] flag. *)
Lemma alnum_same_case ch a :
  Canonicalize true ch = Canonicalize true a ->
  a ∈ concat (map range_members [(65, 90); (97, 122); (48, 57)]) ->
  cls_match true alnum ch = true.
Proof.
  intros Hch Ha. unfold cls_match, alnum. cbn [xorb].
  apply existsb_exists. exists a. split; [apply list_elem_of_In; exact Ha|].
  rewrite Hch. apply N.eqb_refl.
Qed.

(** ** IPFS hashes *)

Lemma ipfs_hash_inv (h : jstring) :
  ipfs_hash h = true ->
  exists q m rest, h = q :: m :: rest /\
    map (Canonicalize true) [q; m] = map (Canonicalize true) (str "Qm") /\
    rest <> [] /\ all_of true alnum rest = true.
Proof.
  destruct h as [|q [|m rest]]; try discriminate. cbn [ipfs_hash].
  rewrite !andb_true_iff, negb_true_iff, bool_decide_eq_false.
  intros [[Hqm Hne] Hall]. apply bool_decide_eq_true in Hqm.
  exists q, m, rest. auto.
Qed.

Lemma ipfs_hash_alnum (h : jstring) :
  ipfs_hash h = true -> h <> [] /\ all_of true alnum h = true.
Proof.
  intros H. apply ipfs_hash_inv in H as (q & m & rest & -> & Hqm & Hne & Hall).
  split; [discriminate|]. cbn [map str] in Hqm. injection Hqm as Hq Hm.
  unfold all_of in *. cbn [forallb]. rewrite Hall, andb_true_r.
  apply andb_true_iff. split.
  - apply (alnum_same_case q _ Hq). apply (bool_decide_unpack _).
    vm_compute. reflexivity.
  - apply (alnum_same_case m _ Hm). apply (bool_decide_unpack _).
    vm_compute. reflexivity.
Qed.

(** The characters of a hash: no [@], [#], [.] or line terminator. *)
Lemma alnum_excludes (s : jstring) :
  all_of true alnum s = true ->
  forall b, b ∈ [64; 35; 46; 10; 13; 8232; 8233] -> b ∉ s.
Proof.
  apply all_of_excludes. vm_compute. reflexivity.
Qed.

Lemma ipfs_scheme_excludes (pre : jstring) :
  same_ignoring_case pre (str "ipfs://") = true ->
  forall b, b ∈ [64; 35; 46; 10; 13; 8232; 8233] -> b ∉ pre.
Proof.
  intros Hpre b Hb. apply (same_ignoring_case_excludes _ _ _ Hpre).
  revert b Hb. apply Forall_forall. apply (bool_decide_unpack _).
  vm_compute. reflexivity.
Qed.

(** [Qm...] to the end of the input. *)
Lemma hash_tail_matches input (h : jstring) caps :
  ipfs_hash h = true ->
  matcher true input (lit "Qm" +++ Plus alnum +++ Eol)%re h caps
    (fun s c => Some (s, c)) = Some ([], caps).
Proof.
  intros H. apply ipfs_hash_inv in H as (q & m & rest & -> & Hqm & Hne & Hall).
  rewrite matcher_Seq.
  rewrite (lit_matches true input "Qm" [q; m] rest) by exact Hqm.
  rewrite matcher_Seq, matcher_Plus.
  apply repeat_plus_all; [exact Hne|exact Hall|reflexivity].
Qed.

Lemma ipfs_hash_first (h : jstring) :
  ipfs_hash h = true ->
  exists q rest, h = q :: rest /\ Canonicalize true q = 81.
Proof.
  intros H. apply ipfs_hash_inv in H as (q & m & rest & -> & Hqm & _).
  cbn [map str] in Hqm. injection Hqm as Hq _. eauto.
Qed.

Lemma same_case_first (pre : jstring) a (w : string) :
  same_ignoring_case pre (str (String a w)) = true ->
  exists ch rest, pre = ch :: rest /\
    Canonicalize true ch = Canonicalize true (N_of_ascii a).
Proof.
  intros H. apply bool_decide_eq_true in H.
  destruct pre as [|ch rest]; [discriminate|].
  cbn [map str] in H. injection H as Hch _. eauto.
Qed.

Lemma not_at_Canonicalize ch c :
  Canonicalize true ch = c -> c <> 64 -> ch <> 64.
Proof. intros <- H ->. apply H. reflexivity. Qed.

(** The IPFS test accepts a hash, alone or after [ipfs://]. *)
Lemma ipfsHash_matcher input (pre h : jstring) caps :
  pre = [] \/ same_ignoring_case pre (str "ipfs://") = true ->
  ipfs_hash h = true ->
  matcher true input
    (Opt (chr "@") +++ Opt (Group 1 (lit "ipfs://")) +++
     lit "Qm" +++ Plus alnum +++ Eol)%re (pre ++ h) caps
    (fun s c => Some (s, c)) <> None.
Proof.
  intros Hpre Hh.
  rewrite matcher_Seq, matcher_Opt.
  destruct Hpre as [-> | Hpre].
  - cbn [app]. destruct (ipfs_hash_first h Hh) as (q & rest & -> & Hq).
    unfold chr at 1. rewrite matcher_Char.
    rewrite at_only_at by (eapply not_at_Canonicalize; [exact Hq|discriminate]).
    rewrite matcher_Seq, matcher_Opt, matcher_Group.
    rewrite lit_mismatch by (rewrite Hq; discriminate).
    rewrite hash_tail_matches by exact Hh. discriminate.
  - destruct (same_case_first pre _ _ Hpre) as (ch & pre' & -> & Hch).
    change ((ch :: pre') ++ h) with (ch :: (pre' ++ h)).
    unfold chr at 1. rewrite matcher_Char.
    rewrite at_only_at by (eapply not_at_Canonicalize; [exact Hch|discriminate]).
    change (ch :: (pre' ++ h)) with ((ch :: pre') ++ h).
    rewrite matcher_Seq, matcher_Opt, matcher_Group.
    rewrite (lit_matches true input "ipfs://" (ch :: pre') h)
      by (apply bool_decide_eq_true in Hpre; exact Hpre).
    rewrite length_cons_neq.
    rewrite hash_tail_matches by exact Hh. discriminate.
Qed.

Lemma ipfsHashRegex_matches (pre h : jstring) :
  pre = [] \/ same_ignoring_case pre (str "ipfs://") = true ->
  ipfs_hash h = true ->
  test ipfsHashRegex (pre ++ h) = true.
Proof.
  intros Hpre Hh. unfold test.
  rewrite (search_anchored ipfsHashRegex _
    (Opt (chr "@") +++ Opt (Group 1 (lit "ipfs://")) +++
     lit "Qm" +++ Plus alnum +++ Eol)%re eq_refl).
  change (ignoreCase ipfsHashRegex) with true.
  pose proof (ipfsHash_matcher (pre ++ h) pre h
                (replicate (S (ngroups ipfsHashRegex)) None) Hpre Hh) as H.
  destruct (matcher _ _ _ _ _ _) as [[s1 c1]|]; [reflexivity|congruence].
Qed.

(** Removing the prefix: [ipfs://] goes, a hash alone stays. *)
Lemma ipfsPrefix_scheme_matcher input (pre h : jstring) caps k :
  same_ignoring_case pre (str "ipfs://") = true ->
  matcher true input (Opt (chr "@") +++ lit "ipfs://")%re (pre ++ h) caps k
  = k h caps.
Proof.
  intros Hpre. rewrite matcher_Seq, matcher_Opt.
  destruct (same_case_first pre _ _ Hpre) as (ch & pre' & -> & Hch).
  change ((ch :: pre') ++ h) with (ch :: (pre' ++ h)).
  unfold chr at 1. rewrite matcher_Char.
  rewrite at_only_at by (eapply not_at_Canonicalize; [exact Hch|discriminate]).
  change (ch :: (pre' ++ h)) with ((ch :: pre') ++ h).
  apply lit_matches. apply bool_decide_eq_true in Hpre. exact Hpre.
Qed.

Lemma ipfsPrefix_strip_scheme (pre h : jstring) :
  same_ignoring_case pre (str "ipfs://") = true ->
  replace_empty ipfsPrefixRegex (pre ++ h) = h.
Proof.
  intros Hpre. unfold replace_empty.
  rewrite (search_anchored ipfsPrefixRegex _
             (Opt (chr "@") +++ lit "ipfs://")%re eq_refl).
  change (ignoreCase ipfsPrefixRegex) with true.
  rewrite ipfsPrefix_scheme_matcher by exact Hpre.
  rewrite Nat.sub_diag. reflexivity.
Qed.

Lemma ipfsPrefix_hash_matcher input (h : jstring) caps k :
  ipfs_hash h = true ->
  matcher true input (Opt (chr "@") +++ lit "ipfs://")%re h caps k = None.
Proof.
  intros Hh. rewrite matcher_Seq, matcher_Opt.
  destruct (ipfs_hash_first h Hh) as (q & rest & -> & Hq).
  unfold chr at 1. rewrite matcher_Char.
  rewrite at_only_at by (eapply not_at_Canonicalize; [exact Hq|discriminate]).
  apply lit_mismatch. rewrite Hq. discriminate.
Qed.

Lemma ipfsPrefix_strip_hash (h : jstring) :
  ipfs_hash h = true -> replace_empty ipfsPrefixRegex h = h.
Proof.
  intros Hh. unfold replace_empty.
  rewrite (search_anchored ipfsPrefixRegex _
             (Opt (chr "@") +++ lit "ipfs://")%re eq_refl).
  change (ignoreCase ipfsPrefixRegex) with true.
  rewrite ipfsPrefix_hash_matcher by exact Hh. reflexivity.
Qed.

Lemma ipfsPrefix_strip_either (pre h : jstring) :
  pre = [] \/ same_ignoring_case pre (str "ipfs://") = true ->
  ipfs_hash h = true ->
  replace_empty ipfsPrefixRegex (pre ++ h) = h.
Proof.
  intros [-> | Hpre] Hh.
  - apply ipfsPrefix_strip_hash. exact Hh.
  - apply ipfsPrefix_strip_scheme. exact Hpre.
Qed.

Lemma scheme_hash_excludes (pre h : jstring) :
  pre = [] \/ same_ignoring_case pre (str "ipfs://") = true ->
  ipfs_hash h = true ->
  forall b, b ∈ [64; 35; 46; 10; 13; 8232; 8233] -> b ∉ pre ++ h.
Proof.
  intros Hpre Hh b Hb. apply ipfs_hash_alnum in Hh as [_ Hall].
  rewrite not_elem_of_app. split.
  - destruct Hpre as [-> | Hpre]; [apply not_elem_of_nil|].
    apply ipfs_scheme_excludes; assumption.
  - apply alnum_excludes; assumption.
Qed.

(** A hash, alone or after [ipfs://], has no [@], [#] or [.] and is on
    one line. *)
Lemma scheme_hash_plain (pre h : jstring) :
  pre = [] \/ same_ignoring_case pre (str "ipfs://") = true ->
  ipfs_hash h = true ->
  (64 ∉ pre ++ h) /\ (35 ∉ pre ++ h) /\ (46 ∉ pre ++ h) /\
  all_of false Dot (pre ++ h) = true.
Proof.
  intros Hpre Hh. pose proof (scheme_hash_excludes pre h Hpre Hh) as Hex.
  repeat split; try (apply Hex; repeat constructor).
  apply all_of_Dot. intros b Hb. apply Hex.
  rewrite !elem_of_cons in *. tauto.
Qed.

(** ** [hasGitPath] and [hasIPFSPath], exactly *)

Lemma search_inv re input :
  forall (s : jstring) s0 s1 c1,
    search re input s = Some (s0, s1, c1) ->
    s0 `suffix_of` s /\
    matcher (ignoreCase re) input (source re) s0
      (replicate (S (ngroups re)) None) (fun s1 c1 => Some (s1, c1))
    = Some (s1, c1).
Proof.
  induction s as [|ch s IH]; intros s0 s1 c1; cbn [search].
  - destruct (matcher _ _ _ _ _ _) as [[s1' c1']|] eqn:E; [|discriminate].
    intros [= <- <- <-]. split; [reflexivity|exact E].
  - destruct (matcher _ _ _ _ _ _) as [[s1' c1']|] eqn:E.
    + intros [= <- <- <-]. split; [reflexivity|exact E].
    + intros H. apply IH in H as [Hsuf H].
      split; [apply suffix_cons_r; exact Hsuf|exact H].
Qed.

Lemma search_some re input :
  forall (pre s0 : jstring) r,
    matcher (ignoreCase re) input (source re) s0
      (replicate (S (ngroups re)) None) (fun s1 c1 => Some (s1, c1)) = Some r ->
    search re input (pre ++ s0) <> None.
Proof.
  induction pre as [|ch pre IH]; intros s0 r H.
  - cbn [app]. destruct s0; cbn [search]; rewrite H; destruct r; discriminate.
  - change ((ch :: pre) ++ s0) with (ch :: (pre ++ s0)). cbn [search].
    match goal with
    | |- match ?m with Some _ => _ | None => _ end <> None =>
        destruct m as [[? ?]|]; [discriminate|]
    end.
    eapply IH. exact H.
Qed.

Lemma gitSuffixRegex_iff (p : jstring) :
  test gitSuffixRegex p = true <->
  exists q g, p = q ++ g /\ same_ignoring_case g (str ".git") = true.
Proof.
  unfold test. split.
  - destruct (search gitSuffixRegex _ _) as [[[s0 s1] c1]|] eqn:E;
      [|discriminate].
    intros _. apply search_inv in E as [[q Hq] E].
    change (source gitSuffixRegex) with (Seq (lit ".git") Eol) in E.
    rewrite matcher_Seq in E.
    apply lit_inv in E as (g & s2 & -> & Hg & E).
    destruct s2; [|discriminate].
    exists q, g. rewrite app_nil_r in Hq. split; [exact Hq|].
    apply bool_decide_eq_true. exact Hg.
  - intros (q & g & -> & Hg). apply bool_decide_eq_true in Hg.
    pose proof (search_some gitSuffixRegex (q ++ g) q g ([], [None])) as H.
    destruct (search gitSuffixRegex _ _); [reflexivity|].
    exfalso. apply H; [|reflexivity].
    change (source gitSuffixRegex) with (Seq (lit ".git") Eol).
    change (ignoreCase gitSuffixRegex) with true. rewrite matcher_Seq.
    pose proof (lit_matches true (q ++ g) ".git" g []) as L.
    rewrite app_nil_r in L. rewrite L by exact Hg. reflexivity.
Qed.

(** X7. [hasGitPath] holds exactly when the path ends in [.git], in either
    case of the letters. *)
Theorem hasGitPath_iff (this : Dependency) :
  hasGitPath this = true <->
  exists q g, path this = q ++ g /\ same_ignoring_case g (str ".git") = true.
Proof. apply gitSuffixRegex_iff. Qed.

Lemma ipfsPathRegex_iff (p : jstring) :
  test ipfsPathRegex p = true <->
  exists pre h, p = pre ++ h /\
    same_ignoring_case pre (str "ipfs://") = true /\
    h <> [] /\ all_of true alnum h = true.
Proof.
  unfold test.
  rewrite (search_anchored ipfsPathRegex _
             (lit "ipfs://" +++ Plus alnum +++ Eol)%re eq_refl).
  change (ignoreCase ipfsPathRegex) with true. split.
  - destruct (matcher _ _ _ _ _ _) as [[s1 c1]|] eqn:E; [|discriminate].
    intros _. rewrite matcher_Seq in E.
    apply lit_inv in E as (pre & h & Hp & Hpre & E).
    rewrite matcher_Seq, matcher_Plus in E.
    apply repeat_plus_inv in E as (n & Hn & Hall & E).
    destruct (drop n h) eqn:Hdrop; [|discriminate].
    apply drop_nil_take in Hdrop. rewrite Hdrop in Hall.
    exists pre, h. split; [exact Hp|].
    split; [apply bool_decide_eq_true; exact Hpre|].
    split; [|exact Hall]. intros ->. simpl in Hn. lia.
  - intros (pre & h & -> & Hpre & Hne & Hall).
    apply bool_decide_eq_true in Hpre.
    rewrite matcher_Seq, (lit_matches _ _ "ipfs://" pre h) by exact Hpre.
    rewrite matcher_Seq, matcher_Plus.
    erewrite repeat_plus_all; [|exact Hne|exact Hall|reflexivity].
    reflexivity.
Qed.

(** X8. [hasIPFSPath] holds exactly when the path is [ipfs://], in either
    case of the letters, followed by at least one letter or digit and
    nothing else. *)
Theorem hasIPFSPath_iff (this : Dependency) :
  hasIPFSPath this = true <->
  exists pre h, path this = pre ++ h /\
    same_ignoring_case pre (str "ipfs://") = true /\
    h <> [] /\ all_of true alnum h = true.
Proof. apply ipfsPathRegex_iff. Qed.

Lemma Canonicalize_dot ch : Canonicalize true ch = 46 -> ch = 46.
Proof.
  unfold Canonicalize. cbn [andb].
  destruct ((97 <=? ch) && (ch <=? 122)) eqn:E; [|auto].
  apply andb_prop in E as [E1 E2]. apply N.leb_le in E1, E2. lia.
Qed.

(** A path that ends in [.git] has a [.] in it. *)
Lemma git_suffix_has_dot (p : jstring) :
  test gitSuffixRegex p = true -> 46 ∈ p.
Proof.
  intros H.
  destruct (proj1 (gitSuffixRegex_iff p) H) as (q & g & -> & Hg).
  destruct (same_case_first g _ _ Hg) as (ch & g' & -> & Hch).
  apply Canonicalize_dot in Hch. subst ch.
  apply elem_of_app. right. left.
Qed.

Lemma ipfs_path_is_not_git (h : jstring) :
  all_of true alnum h = true ->
  test gitSuffixRegex (str "ipfs://" ++ h) = false.
Proof.
  intros Hall. destruct (test gitSuffixRegex _) eqn:E; [|reflexivity].
  apply git_suffix_has_dot in E. apply elem_of_app in E as [E|E].
  - exfalso. revert E. change (46 ∉ str "ipfs://").
    apply (bool_decide_unpack _). vm_compute. reflexivity.
  - exfalso. revert E. apply (alnum_excludes h Hall). repeat constructor.
Qed.

(** ** The forms of the parser *)

Lemma group_of_truthy (s : jstring) : s <> [] -> group_of s = Some s.
Proof. destruct s; [congruence|reflexivity]. Qed.

Lemma or_str_group_of (s : jstring) : or_str (group_of s) [] = s.
Proof. destruct s; reflexivity. Qed.

Lemma ipfs_descriptor (h : jstring) (n : jstring) :
  ipfs_hash h = true ->
  let d := {| name := n; path := str "ipfs://" ++ h; version := h;
              packagesDirectory := str "dapple_packages";
              installedAt := []; _tmpDir := None |} in
  hasIPFSPath d = true /\ hasGitPath d = false.
Proof.
  intros Hh d. apply ipfs_hash_alnum in Hh as [Hne Hall]. split.
  - apply (ipfsPathRegex_iff (str "ipfs://" ++ h)). exists (str "ipfs://"), h.
    repeat split; auto.
  - apply ipfs_path_is_not_git. exact Hall.
Qed.


(** X4. A hash alone, or after [ipfs://] in either case, is an IPFS
    specifier too: the descriptor has the path [ipfs://hash] and the
    version [hash]; the name is the one given, or empty. *)
Theorem ipfs_hash_alone_parses (pre h : jstring) (name : jvalue) :
  pre = [] \/ same_ignoring_case pre (str "ipfs://") = true ->
  ipfs_hash h = true ->
  let d := {| name := or_str name []; path := str "ipfs://" ++ h;
              version := h; packagesDirectory := str "dapple_packages";
              installedAt := []; _tmpDir := None |} in
  fromDependencyString (pre ++ h) name = Return d /\
  hasIPFSPath d = true /\ hasGitPath d = false.
Proof.
  intros Hpre Hh d. split; [|apply ipfs_descriptor; exact Hh].
  assert (Hne : pre ++ h <> []).
  { destruct (ipfs_hash_alnum h Hh) as [Hne _]. destruct pre, h; simpl; congruence. }
  destruct (scheme_hash_plain pre h Hpre Hh) as (H64 & H35 & _ & _).
  unfold fromDependencyString, test at 1.
  rewrite gitPathRegex_needs_at.
  2:{ apply Forall_forall. intros ch Hch ->. contradiction. }
  rewrite pathRegex_plain; [|exact Hne|].
  2:{ apply all_of_notAtHash. split; assumption. }
  change (piece [?a; ?b; ?c] 2) with c. change (piece [?a; ?b; ?c] 1) with b.
  rewrite (or_val_falsy None _ eq_refl). cbn [ToString].
  rewrite (ipfsHashRegex_matches pre h Hpre Hh).
  rewrite (ipfsPrefix_strip_either pre h Hpre Hh).
  rewrite new_Dependency_versioned by (apply ipfs_hash_alnum; exact Hh).
  unfold d. f_equal. f_equal.
  destruct name as [[|c s]|]; reflexivity.
Qed.

(** X2. The generic form.  A specifier [path@version] that is not of the
    git form, whose path holds neither [@] nor [#] and whose version is
    not empty, is on one line and does not pass the IPFS test, parses to
    that path and that version.  The name is the one given, or empty: it is
    not taken from the path. *)
Theorem generic_specifier_parses (p v : jstring) (name : jvalue) :
  all_of false notAtHash p = true ->
  v <> [] -> all_of false Dot v = true ->
  test gitPathRegex (p ++ 64 :: v) = false ->
  test ipfsHashRegex v = false ->
  fromDependencyString (p ++ 64 :: v) name =
  Return {| name := or_str name []; path := p; version := v;
            packagesDirectory := str "dapple_packages";
            installedAt := []; _tmpDir := None |}.
Proof.
  intros Hp Hne Hv Hgit Hipfs. unfold fromDependencyString.
  rewrite Hgit, pathRegex_exec_at by assumption.
  change (piece [?a; ?b; ?c] 2) with c. change (piece [?a; ?b; ?c] 1) with b.
  rewrite (group_of_truthy v Hne). unfold or_val.
  rewrite (truthy_Some v Hne). cbn [ToString]. rewrite Hipfs.
  unfold new_Dependency. rewrite (truthy_Some v Hne), andb_false_r.
  rewrite or_str_group_of, or_str_nil. reflexivity.
Qed.

(** ** Where the parser crashes *)

(** After the path of the generic form, with what the version is made of. *)
Lemma pathRegex_tail_inv input (s1 : jstring) caps1 res :
  matcher false input (Opt (chr "@" +++ Opt (Group 2 (Plus Dot))) +++ Eol)%re
    s1 caps1 (fun s2 c2 => Some (s2, c2)) = Some res ->
  s1 = [] \/ exists v, s1 = 64 :: v /\ all_of false Dot v = true.
Proof.
  intros E. rewrite matcher_Seq in E.
  apply matcher_Opt_inv in E as [E|E].
  - rewrite matcher_Seq in E.
    destruct s1 as [|ch s2]; [discriminate|].
    unfold chr in E. rewrite matcher_Char in E.
    destruct (cls_match _ _ ch) eqn:Ech; [|discriminate].
    apply at_inv in Ech. subst ch. right. exists s2. split; [reflexivity|].
    apply matcher_Opt_inv in E as [E|E].
    + rewrite matcher_Group, matcher_Plus in E.
      apply repeat_plus_inv in E as (n & Hn & Hall & E).
      destruct (length (drop n s2) =? length s2)%nat; [discriminate|].
      match type of E with
      | (if ?b then _ else _) = _ => destruct b; [discriminate|]
      end.
      destruct (drop n s2) eqn:Hdrop; [|discriminate].
      apply drop_nil_take in Hdrop. rewrite Hdrop in Hall. exact Hall.
    + match type of E with
      | (if ?b then _ else _) = _ => destruct b; [discriminate|]
      end.
      destruct s2; [reflexivity|discriminate].
  - destruct s1; [|discriminate]. left. reflexivity.
Qed.

Lemma pathRegex_exec_inv (s : jstring) pieces :
  exec pathRegex s = Some pieces ->
  exists p1 tail, s = p1 ++ tail /\ all_of false notAtHash p1 = true /\
    (tail = [] \/ exists v, tail = 64 :: v /\ all_of false Dot v = true).
Proof.
  unfold exec.
  rewrite (search_anchored pathRegex s
    (Opt (Group 1 (Plus notAtHash)) +++
     Opt (chr "@" +++ Opt (Group 2 (Plus Dot))) +++ Eol)%re eq_refl).
  destruct (matcher _ _ _ _ _ _) as [[s1 c1]|] eqn:E; [|discriminate].
  intros _. rewrite matcher_Seq in E. apply matcher_Opt_inv in E as [E|E].
  - apply Group_Plus_inv in E as (n & Hn & Hall & E).
    destruct (length (drop n s) =? length s)%nat; [discriminate|].
    apply pathRegex_tail_inv in E.
    exists (take n s), (drop n s). rewrite take_drop. auto.
  - apply pathRegex_tail_inv in E. exists [], s. auto.
Qed.

Lemma generic_form_spec (s : jstring) :
  generic_form s = true <->
  exists p1 tail, s = p1 ++ tail /\ all_of false notAtHash p1 = true /\
    (tail = [] \/ exists v, tail = 64 :: v /\ all_of false Dot v = true).
Proof.
  split.
  - induction s as [|ch s IH]; cbn [generic_form].
    + intros _. exists [], []. auto.
    + destruct (N.eqb_spec ch 35) as [->|H35]; [discriminate|].
      destruct (N.eqb_spec ch 64) as [->|H64].
      * intros Hv. exists [], (64 :: s). split; [reflexivity|].
        split; [reflexivity|]. right. eauto.
      * intros H. apply IH in H as (p1 & tail & -> & Hp1 & Htail).
        exists (ch :: p1), tail. split; [reflexivity|]. split; [|exact Htail].
        unfold all_of in *. cbn [forallb]. rewrite Hp1, andb_true_r.
        rewrite notAtHash_spec. apply negb_true_iff, orb_false_iff.
        split; apply N.eqb_neq; congruence.
  - intros (p1 & tail & -> & Hp1 & Htail).
    induction p1 as [|ch p1 IH].
    + cbn [app]. destruct Htail as [-> | (v & -> & Hv)]; [reflexivity|].
      exact Hv.
    + unfold all_of in Hp1. cbn [forallb] in Hp1.
      apply andb_prop in Hp1 as [Hch Hp1].
      rewrite notAtHash_spec in Hch. apply negb_true_iff, orb_false_iff in Hch.
      destruct Hch as [H64 H35]. apply N.eqb_neq in H64, H35.
      change ((ch :: p1) ++ tail) with (ch :: (p1 ++ tail)).
      cbn [generic_form].
      destruct (N.eqb_spec ch 35) as [->|_]; [congruence|].
      destruct (N.eqb_spec ch 64) as [->|_]; [congruence|].
      apply IH. exact Hp1.
Qed.

Lemma pathRegex_exec_iff (s : jstring) :
  (exists pieces, exec pathRegex s = Some pieces) <-> generic_form s = true.
Proof.
  rewrite generic_form_spec. split.
  - intros [pieces H]. eapply pathRegex_exec_inv. exact H.
  - intros (p1 & tail & -> & Hp1 & [-> | (v & -> & Hv)]).
    + rewrite app_nil_r. destruct p1 as [|ch p1].
      * eexists. vm_compute. reflexivity.
      * eexists. apply pathRegex_plain; [discriminate|exact Hp1].
    + eexists. apply pathRegex_exec_at; assumption.
Qed.

Lemma new_Dependency_no_TypeError p v n m :
  new_Dependency p v n <> Throw (TypeError m).
Proof.
  unfold new_Dependency. destruct (hasGitPath _ && _); discriminate.
Qed.

(** X6. Where the parser crashes.  [fromDependencyString] throws the
    TypeError of reading [pathPieces[2]] of [null] exactly on the
    specifiers that are neither of the git form nor of the generic form:
    those, not of the git form, with a [#] before any [@] or with a line
    terminator after the first [@]. *)
Theorem fromDependencyString_crashes_iff (s : jstring) (name : jvalue) :
  fromDependencyString s name = Throw NullPiecesError <->
  test gitPathRegex s = false /\ generic_form s = false.
Proof.
  unfold fromDependencyString. split.
  - destruct (test gitPathRegex s) eqn:Hgit.
    + apply test_exec in Hgit as [pieces ->]. intros H.
      apply new_Dependency_no_TypeError in H. destruct H.
    + destruct (exec pathRegex s) as [pieces|] eqn:Hexec.
      * destruct (test ipfsHashRegex _); intros H;
          apply new_Dependency_no_TypeError in H; destruct H.
      * intros _. split; [reflexivity|].
        destruct (generic_form s) eqn:Hg; [|reflexivity].
        apply pathRegex_exec_iff in Hg as [pieces Hg]. congruence.
  - intros [-> Hg].
    destruct (exec pathRegex s) as [pieces|] eqn:Hexec; [|reflexivity].
    assert (generic_form s = true) by (apply pathRegex_exec_iff; eauto).
    congruence.
Qed.

(** ** A git path without a commit *)

(** What passes the IPFS test has no [.] in it. *)
Lemma ipfsHashRegex_no_dot (x : jstring) :
  test ipfsHashRegex x = true -> 46 ∉ x.
Proof.
  unfold test.
  rewrite (search_anchored ipfsHashRegex x
    (Opt (chr "@") +++ Opt (Group 1 (lit "ipfs://")) +++
     lit "Qm" +++ Plus alnum +++ Eol)%re eq_refl).
  destruct (matcher _ _ _ _ _ _) as [[s1 c1]|] eqn:E; [|discriminate].
  intros _.
  change (Opt (chr "@") +++ Opt (Group 1 (lit "ipfs://")) +++
          lit "Qm" +++ Plus alnum +++ Eol)%re
    with (Seq (Opt (chr "@")) (Seq (Opt (Group 1 (lit "ipfs://")))
            (Seq (lit "Qm") (Seq (Plus alnum) Eol)))) in E.
  rewrite matcher_Seq in E.
  apply (matcher_consumed _ _ _ (fun ch => ch <> 46)) in E
    as (pre0 & r0 & k0 & -> & Hp0 & E & _).
  2:{ apply classes_reject. vm_compute. reflexivity. }
  rewrite matcher_Seq in E.
  apply (matcher_consumed _ _ _ (fun ch => ch <> 46)) in E
    as (pre1 & r1 & k1 & -> & Hp1 & E & _).
  2:{ apply classes_reject. vm_compute. reflexivity. }
  rewrite matcher_Seq in E.
  apply (matcher_consumed _ _ _ (fun ch => ch <> 46)) in E
    as (pre2 & r2 & k2 & -> & Hp2 & E & _).
  2:{ apply classes_reject. vm_compute. reflexivity. }
  rewrite matcher_Seq in E.
  apply (matcher_consumed _ _ _ (fun ch => ch <> 46)) in E
    as (pre3 & r3 & k3 & -> & Hp3 & E & _).
  2:{ apply classes_reject. vm_compute. reflexivity. }
  cbn [matcher] in E. destruct r3; [|discriminate].
  rewrite app_nil_r, !not_elem_of_app.
  rewrite !Forall_forall in *.
  repeat split; intros Hin;
    [eapply Hp0|eapply Hp1|eapply Hp2|eapply Hp3]; eauto.
Qed.

(** Without a version the specifier is not of the git form. *)
Lemma no_version_is_not_git (p tail : jstring) :
  64 ∉ p -> tail = [] \/ tail = [64] ->
  test gitPathRegex (p ++ tail) = false.
Proof.
  intros Hat Htail.
  destruct (test gitPathRegex _) eqn:E; [|reflexivity]. exfalso.
  apply test_exec in E as [pieces E].
  apply gitPathRegex_exec_inv in E as (p' & v' & _ & _ & Hs & Hv' & Hall).
  apply lower_alnum_no_at in Hall.
  destruct Htail as [-> | ->].
  - rewrite app_nil_r in Hs. apply Hat. rewrite Hs.
    apply elem_of_app. right. left.
  - apply (split_at_last_unique p p' [] v') in Hs as [_ <-];
      [congruence|apply not_elem_of_nil|exact Hall].
Qed.

(** Without a version the generic form gives the path alone. *)
Lemma pathRegex_no_version (p tail : jstring) :
  p <> [] -> all_of false notAtHash p = true ->
  tail = [] \/ tail = [64] ->
  exists whole, exec pathRegex (p ++ tail) = Some [whole; Some p; None].
Proof.
  intros Hne Hp [-> | ->].
  - rewrite app_nil_r. eexists. apply pathRegex_plain; assumption.
  - eexists. rewrite pathRegex_exec_at; [|exact Hp|reflexivity].
    rewrite (group_of_truthy p Hne). reflexivity.
Qed.

(** X5. A git path without a commit is rejected by the parser: a
    specifier that ends in [.git], in either case, holds neither [@] nor
    [#] and is followed by nothing or by [@] alone, throws
    MissingVersionError. *)
Theorem unpinned_git_is_rejected (p tail : jstring) (name : jvalue) :
  all_of false notAtHash p = true ->
  test gitSuffixRegex p = true ->
  tail = [] \/ tail = [64] ->
  fromDependencyString (p ++ tail) name = Throw MissingVersionError.
Proof.
  intros Hp Hgit Htail.
  pose proof (git_suffix_has_dot p Hgit) as Hdot.
  assert (Hne : p <> []) by (intros ->; inversion Hdot).
  assert (Hat : 64 ∉ p) by (apply all_of_notAtHash in Hp; tauto).
  destruct (pathRegex_no_version p tail Hne Hp Htail) as [whole Hexec].
  unfold fromDependencyString.
  rewrite (no_version_is_not_git p tail Hat Htail), Hexec.
  change (piece [?a; ?b; ?c] 2) with c. change (piece [?a; ?b; ?c] 1) with b.
  rewrite (or_val_falsy None _ eq_refl). cbn [ToString].
  destruct (test ipfsHashRegex p) eqn:Hipfs.
  { exfalso. apply ipfsHashRegex_no_dot in Hipfs. contradiction. }
  unfold new_Dependency, hasGitPath. cbn [path].
  rewrite or_str_nil, Hgit. reflexivity.
Qed.

(** X22. A specifier without a version: a path that holds neither [@] nor
    [#], does not end in [.git] and does not pass the IPFS test, followed by
    nothing or by [@] alone, parses to that path with an empty version; the
    name is the one given, or empty. *)
Theorem plain_specifier_parses (p tail : jstring) (name : jvalue) :
  p <> [] -> all_of false notAtHash p = true ->
  test gitSuffixRegex p = false ->
  test ipfsHashRegex p = false ->
  tail = [] \/ tail = [64] ->
  fromDependencyString (p ++ tail) name =
  Return {| name := or_str name []; path := p; version := [];
            packagesDirectory := str "dapple_packages";
            installedAt := []; _tmpDir := None |}.
Proof.
  intros Hne Hp Hgit Hipfs Htail.
  assert (Hat : 64 ∉ p) by (apply all_of_notAtHash in Hp; tauto).
  destruct (pathRegex_no_version p tail Hne Hp Htail) as [whole Hexec].
  unfold fromDependencyString.
  rewrite (no_version_is_not_git p tail Hat Htail), Hexec.
  change (piece [?a; ?b; ?c] 2) with c. change (piece [?a; ?b; ?c] 1) with b.
  rewrite (or_val_falsy None _ eq_refl). cbn [ToString].
  rewrite Hipfs. apply new_Dependency_plain. exact Hgit.
Qed.

(** ** More of the installer, in any environment *)

Section InstallerFurther.

Context {W : Type}.
Variable env : forall c : call, W -> reply (answer c) * W.
Variable depth : nat.

Notation "x <- m ;; k" := (bind m (fun x => k))
  (at level 100, m at next level, right associativity).
Notation "m ;; k" := (bind m (fun _ => k))
  (at level 100, right associativity).

Lemma quiet_ret P {A} (a : A) : quiet P (ret (W := W) a).
Proof.
  intros st r st' [= <- <-]. split; [reflexivity|].
  exists []. rewrite app_nil_r. auto.
Qed.

Lemma quiet_throw P {A} e : quiet P (throw (W := W) (A := A) e).
Proof.
  intros st r st' [= <- <-]. split; [reflexivity|].
  exists []. rewrite app_nil_r. auto.
Qed.

Lemma quiet_out_of_fuel P {A} : quiet P (out_of_fuel (W := W) (A := A)).
Proof.
  intros st r st' [= <- <-]. split; [reflexivity|].
  exists []. rewrite app_nil_r. auto.
Qed.

Lemma quiet_get_this P : quiet P (get_this (W := W)).
Proof.
  intros st r st' [= <- <-]. split; [reflexivity|].
  exists []. rewrite app_nil_r. auto.
Qed.

Lemma quiet_do P c : P c = true -> quiet P (do env c).
Proof.
  intros HP st r st'. unfold do.
  destruct (env c (world st)) as [[a|e] w]; intros [= <- <-];
    (split; [reflexivity|]); eexists; simpl; (split; [reflexivity|]);
    repeat constructor; exact HP.
Qed.

Lemma quiet_bind P {A B} (m : @M W A) (f : A -> @M W B) :
  quiet P m -> (forall a, quiet P (f a)) -> quiet P (bind m f).
Proof.
  intros Hm Hf st r st'. unfold bind.
  destruct (m st) as [[a|e|] st1] eqn:E.
  - intros Hfa. apply Hm in E as (T1 & new1 & E1 & H1).
    apply Hf in Hfa as (T2 & new2 & E2 & H2).
    split; [congruence|].
    exists (new1 ++ new2). rewrite E2, E1, app_assoc. split; [reflexivity|].
    apply Forall_app. auto.
  - intros [= <- <-]. apply Hm in E. exact E.
  - intros [= <- <-]. apply Hm in E. exact E.
Qed.

Lemma quiet_try_catch P {A} (m : @M W A) (h : exn -> @M W A) :
  quiet P m -> (forall e, quiet P (h e)) -> quiet P (try_catch m h).
Proof.
  intros Hm Hh st r st'. unfold try_catch.
  destruct (m st) as [[a|e|] st1] eqn:E.
  - intros [= <- <-]. apply Hm in E. exact E.
  - intros Hhe. apply Hm in E as (T1 & new1 & E1 & H1).
    apply Hh in Hhe as (T2 & new2 & E2 & H2).
    split; [congruence|].
    exists (new1 ++ new2). rewrite E2, E1, app_assoc. split; [reflexivity|].
    apply Forall_app. auto.
  - intros [= <- <-]. apply Hm in E. exact E.
Qed.

Lemma quiet_for_each P {A} (l : list A) (body : A -> @M W unit) :
  (forall x, quiet P (body x)) -> quiet P (for_each (W := W) l body).
Proof.
  intros Hbody. induction l as [|x l IH]; simpl.
  - apply quiet_ret.
  - apply quiet_bind; [apply Hbody|intros _; exact IH].
Qed.

Lemma quiet_weaken (P Q : call -> bool) {A} (m : @M W A) :
  (forall c, P c = true -> Q c = true) -> quiet P m -> quiet Q m.
Proof.
  intros HPQ Hm st r st' E. apply Hm in E as (T & new & E & H).
  split; [exact T|]. exists new. split; [exact E|].
  eapply Forall_impl; [exact H|]. intros x. apply HPQ.
Qed.

Ltac quietly :=
  repeat first
    [ apply quiet_ret | apply quiet_throw
    | apply quiet_out_of_fuel | apply quiet_get_this
    | match goal with
      | |- quiet ?P (do _ ?c) => apply (quiet_do P c); reflexivity
      end
    | apply quiet_bind; [|intros ?]
    | apply quiet_try_catch; [|intros ?]
    | apply quiet_for_each; intros ?
    | match goal with
      | |- quiet _ (if ?b then _ else _) => destruct b
      end ].

Lemma pullIPFS_quiet settings rootHash fuel :
  forall hash dest type,
    quiet ipfs_call (pullIPFS env settings rootHash fuel hash dest type).
Proof.
  induction fuel as [|fuel IH]; intros hash dest type; cbn [pullIPFS].
  - quietly.
  - quietly; apply IH.
Qed.

Lemma _pullIPFS_quiet target : quiet ipfs_call (_pullIPFS env depth target).
Proof. unfold _pullIPFS. quietly; apply pullIPFS_quiet. Qed.

Lemma _pullGit_quiet target : quiet is_execSync (_pullGit env target).
Proof. unfold _pullGit. quietly. Qed.

(** X9. [pull] keeps to one strategy, chosen by the path: for a git path
    every call it makes is [execSync]; otherwise every call is one of the
    IPFS strategy (the settings, [ls], [cat], [ensureDirSync],
    [writeFileSync]) and no process is spawned.  It leaves the object as it
    was. *)
Theorem pull_keeps_to_its_strategy (destination : jstring) (st : @State W) r st' :
  pull env depth destination st = (r, st') ->
  this st' = this st /\
  exists new,
    log st' = log st ++ new /\
    Forall (fun e : call * bool =>
              (if hasGitPath (this st) then is_execSync e.1 else ipfs_call e.1)
              = true) new.
Proof.
  unfold pull. unfold bind at 1, get_this at 1.
  destruct (hasGitPath (this st)).
  - apply _pullGit_quiet.
  - destruct (hasIPFSPath (this st)).
    + apply _pullIPFS_quiet.
    + apply quiet_throw.
Qed.

(** ** The world that the calls leave *)

Lemma world_after_app (calls1 calls2 : list call) (w : W) :
  world_after env (calls1 ++ calls2) w =
  world_after env calls2 (world_after env calls1 w).
Proof.
  revert w. induction calls1 as [|c calls1 IH]; intros w; [reflexivity|].
  cbn [app world_after]. apply IH.
Qed.

Lemma traced_silent {A} (m : @M W A) :
  (forall st, exists r st',
      m st = (r, st') /\ world st' = world st /\ log st' = log st) ->
  traced env m.
Proof.
  intros Hm st r st' E. destruct (Hm st) as (r' & st1 & E' & Hw & Hl).
  rewrite E' in E. injection E as <- <-. exists [].
  rewrite app_nil_r. split; [exact Hl|exact Hw].
Qed.

Lemma traced_ret {A} (a : A) : traced env (ret a).
Proof. apply traced_silent. intros st. eexists _, _. repeat split. Qed.

Lemma traced_throw {A} e : traced env (throw (A := A) e).
Proof. apply traced_silent. intros st. eexists _, _. repeat split. Qed.

Lemma traced_out_of_fuel {A} : traced env (out_of_fuel (A := A)).
Proof. apply traced_silent. intros st. eexists _, _. repeat split. Qed.

Lemma traced_get_this : traced env get_this.
Proof. apply traced_silent. intros st. eexists _, _. repeat split. Qed.

Lemma traced_update f : traced env (update f).
Proof. apply traced_silent. intros st. eexists _, _. repeat split. Qed.

Lemma traced_do c : traced env (do env c).
Proof.
  intros st r st'. unfold do.
  destruct (env c (world st)) as [[a|e] w] eqn:E; intros [= <- <-];
    eexists; (split; [reflexivity|]);
    cbn [map fst world_after world]; rewrite E; reflexivity.
Qed.

Lemma traced_bind {A B} (m : @M W A) (f : A -> @M W B) :
  traced env m -> (forall a, traced env (f a)) -> traced env (bind m f).
Proof.
  intros Hm Hf st r st'. unfold bind.
  destruct (m st) as [[a|e|] st1] eqn:E;
    apply Hm in E as (new1 & L1 & W1).
  - intros Hfa. apply Hf in Hfa as (new2 & L2 & W2).
    exists (new1 ++ new2). rewrite L2, L1, app_assoc. split; [reflexivity|].
    rewrite W2, W1, map_app, world_after_app. reflexivity.
  - intros [= <- <-]. eauto.
  - intros [= <- <-]. eauto.
Qed.

Lemma traced_try_catch {A} (m : @M W A) (h : exn -> @M W A) :
  traced env m -> (forall e, traced env (h e)) -> traced env (try_catch m h).
Proof.
  intros Hm Hh st r st'. unfold try_catch.
  destruct (m st) as [[a|e|] st1] eqn:E;
    apply Hm in E as (new1 & L1 & W1).
  - intros [= <- <-]. eauto.
  - intros Hhe. apply Hh in Hhe as (new2 & L2 & W2).
    exists (new1 ++ new2). rewrite L2, L1, app_assoc. split; [reflexivity|].
    rewrite W2, W1, map_app, world_after_app. reflexivity.
  - intros [= <- <-]. eauto.
Qed.

Lemma traced_for_each {A} (l : list A) (body : A -> @M W unit) :
  (forall x, traced env (body x)) -> traced env (for_each l body).
Proof.
  intros Hbody. induction l as [|x l IH]; simpl.
  - apply traced_ret.
  - apply traced_bind; [apply Hbody|intros _; exact IH].
Qed.

Ltac tracing :=
  repeat first
    [ apply traced_ret | apply traced_throw
    | apply traced_out_of_fuel | apply traced_get_this
    | apply traced_update
    | match goal with
      | |- traced _ (do _ ?c) => apply (traced_do c)
      end
    | apply traced_bind; [|intros ?]
    | apply traced_try_catch; [|intros ?]
    | apply traced_for_each; intros ?
    | match goal with
      | |- traced _ (if ?b then _ else _) => destruct b
      end ].

Lemma pullIPFS_traced settings rootHash fuel :
  forall hash dest type,
    traced env (pullIPFS env settings rootHash fuel hash dest type).
Proof.
  induction fuel as [|fuel IH]; intros hash dest type; cbn [pullIPFS].
  - tracing.
  - tracing; apply IH.
Qed.

Lemma pull_traced destination : traced env (pull env depth destination).
Proof.
  unfold pull, _pullGit, _pullIPFS. tracing; apply pullIPFS_traced.
Qed.

Lemma _throwIfInstalled_traced : traced env (_throwIfInstalled env).
Proof. unfold _throwIfInstalled. tracing. Qed.

Lemma _getTmpDir_traced : traced env (_getTmpDir env).
Proof. unfold _getTmpDir. tracing. Qed.

Lemma package_directory_traced pd :
  traced env
    (try_catch (do env (accessSync pd W_OK))
       (fun _ => try_catch (do env (mkdirSync pd))
                   (fun e => throw (PathAccessError pd e)))).
Proof. tracing. Qed.

(** The world a computation leaves, from what it has added to the log. *)
Lemma traced_world {A} (m : @M W A) (st : @State W) r st' new :
  traced env m -> m st = (r, st') -> log st' = log st ++ new ->
  world st' = world_after env (map fst new) (world st).
Proof.
  intros Hm E L. apply Hm in E as (new' & L' & W'). rewrite L' in L.
  apply app_inv_head in L. subst new'. exact W'.
Qed.

(** X10. For a git path with a hexadecimal commit, [pull] runs
    [git clone path target] and then, in the target,
    [git reset --hard commit], [git submodule init] and
    [git submodule update], in that order, the commit being the version
    without a leading [@].  It returns when all four have returned; when
    one throws, in the world the commands before it have left, [pull]
    throws the error that this command has thrown, and the commands after
    it are not run. *)
Theorem git_pull_runs_the_commands
    (destination : jstring) (st : @State W) r st' :
  hasGitPath (this st) = true ->
  test commitRegex (replace_empty atRegex (getVersion (this st))) = true ->
  pull env depth destination st = (r, st') ->
  let cmds :=
    git_commands (getPath (this st))
      (replace_empty atRegex (getVersion (this st))) destination in
  this st' = this st /\
  ((r = Return tt /\ log st' = log st ++ returned cmds /\
    world st' = world_after env cmds (world st)) \/
   (exists done c rest e,
      cmds = done ++ c :: rest /\
      env c (world_after env done (world st)) = (Raise e, world st') /\
      r = Throw e /\
      log st' = log st ++ returned done ++ [(c, false)])).
Proof.
  intros Hgit Hhex. cbv zeta.
  assert (Hv : hasVersion (this st) = true).
  { unfold hasVersion, getVersion in *.
    destruct (version (this st)); [|reflexivity].
    vm_compute in Hhex. discriminate. }
  unfold pull, _pullGit, bind, get_this. rewrite Hgit, Hv, Hhex.
  cbv beta iota. cbn [negb]. cbv iota. unfold git_commands, returned, do.
  set (c1 := execSync (str "git clone " ++ _) None).
  set (c2 := execSync (str "git reset --hard " ++ _) (Some destination)).
  set (c3 := execSync (str "git submodule init") (Some destination)).
  set (c4 := execSync (str "git submodule update") (Some destination)).
  destruct (env c1 (world st)) as [[[]|e1] w1] eqn:E1; cbn [this world log].
  2:{ intros [= <- <-]. split; [reflexivity|]. right.
      exists [], c1, [c2; c3; c4], e1. cbn [world_after world]. auto. }
  destruct (env c2 w1) as [[[]|e2] w2] eqn:E2; cbn [this world log].
  2:{ intros [= <- <-]. split; [reflexivity|]. right.
      exists [c1], c2, [c3; c4], e2. cbn [map app log world_after world].
      rewrite E1. cbn [snd]. rewrite <- !app_assoc. auto. }
  destruct (env c3 w2) as [[[]|e3] w3] eqn:E3; cbn [this world log].
  2:{ intros [= <- <-]. split; [reflexivity|]. right.
      exists [c1; c2], c3, [c4], e3. cbn [map app log world_after world].
      rewrite E1. cbn [snd]. rewrite E2. cbn [snd].
      rewrite <- !app_assoc. auto. }
  destruct (env c4 w3) as [[[]|e4] w4] eqn:E4; cbn [this world log].
  2:{ intros [= <- <-]. split; [reflexivity|]. right.
      exists [c1; c2; c3], c4, [], e4. cbn [map app log world_after world].
      rewrite E1. cbn [snd]. rewrite E2. cbn [snd]. rewrite E3. cbn [snd].
      rewrite <- !app_assoc. auto. }
  intros [= <- <-]. split; [reflexivity|]. left.
  cbn [map app log world_after world].
  rewrite E1. cbn [snd]. rewrite E2. cbn [snd]. rewrite E3. cbn [snd].
  rewrite E4. cbn [snd]. rewrite <- !app_assoc. auto.
Qed.

(** ** The scratch directory *)

Lemma path_join_nonempty (args : list jstring) : path_join args <> [].
Proof.
  unfold path_join. destruct (filter _ args) as [|a l]; [discriminate|].
  unfold normalize. destruct (join_slash (a :: l)) as [|c p]; [discriminate|].
  destruct (join_slash (normalize_segments _ _)) as [|b body].
  - destruct (c =? 47); [discriminate|].
    destruct (bool_decide _); discriminate.
  - destruct (c =? 47); discriminate.
Qed.

(** X13. [_getTmpDir] chooses the scratch directory once: after it has
    returned a directory, calling it again returns the same directory,
    makes no call and leaves the state as it is. *)
Theorem scratch_directory_is_chosen_once (st : @State W) d st' :
  _getTmpDir env st = (Return d, st') ->
  _getTmpDir env st' = (Return d, st').
Proof.
  unfold _getTmpDir, bind, get_this, update, do, ret.
  destruct (truthy (_tmpDir (this st))) eqn:T; cbn [negb].
  - intros [= <- <-]. rewrite T. reflexivity.
  - destruct (env tmpdir (world st)) as [[tmp|e1] w1]; [|discriminate].
    cbn [this world log].
    destruct (env random w1) as [[rnd|e2] w2]; [|discriminate].
    cbn [this world log].
    destruct (env (emptyDirSync _) w2) as [[[]|e3] w3]; [|discriminate].
    intros [= <- <-]. cbn [this world log set_tmpDir _tmpDir].
    rewrite truthy_Some by apply path_join_nonempty. reflexivity.
Qed.

(** X14. [_getTmpDir] stores the path before it creates the directory:
    when [emptyDirSync] throws, the path stays in [_tmpDir], and the next
    [_getTmpDir] returns it without another attempt to create it. *)
Theorem scratch_directory_after_failed_creation (st : @State W) e st' d :
  truthy (_tmpDir (this st)) = false ->
  _getTmpDir env st = (Throw e, st') ->
  last (log st') = Some (emptyDirSync d, false) ->
  _getTmpDir env st' = (Return d, st').
Proof.
  intros T. unfold _getTmpDir, bind, get_this, update, do, ret.
  rewrite T. cbn [negb].
  destruct (env tmpdir (world st)) as [[tmp|e1] w1]; cbn [this world log].
  2:{ intros [= <- <-]. cbn [log]. rewrite last_snoc. discriminate. }
  destruct (env random w1) as [[rnd|e2] w2]; cbn [this world log].
  2:{ intros [= <- <-]. cbn [log]. rewrite last_snoc. discriminate. }
  destruct (env (emptyDirSync _) w2) as [[[]|e3] w3]; [discriminate|].
  intros [= <- <-]. cbn [this world log set_tmpDir _tmpDir].
  rewrite last_snoc. intros [= <-].
  rewrite truthy_Some by apply path_join_nonempty. reflexivity.
Qed.

(** ** The package directory *)

Lemma pull_calls P destination :
  (forall c, ipfs_call c = true -> P c = true) ->
  (forall c, is_execSync c = true -> P c = true) ->
  calls_only P (pull env depth destination).
Proof.
  intros HP1 HP2 st r st'. unfold pull, bind at 1, get_this at 1.
  intros E.
  assert (this st' = this st /\
          exists new, log st' = log st ++ new /\
            Forall (fun e => ipfs_call e.1 || is_execSync e.1 = true) new)
    as (_ & new & Hlog & H).
  { destruct (hasGitPath (this st)).
    - assert (Hq : quiet (fun c => ipfs_call c || is_execSync c)
                     (_pullGit env destination)).
      { apply (quiet_weaken is_execSync); [|apply _pullGit_quiet].
        intros c ->. apply orb_true_r. }
      exact (Hq _ _ _ E).
    - destruct (hasIPFSPath (this st)).
      + assert (Hq : quiet (fun c => ipfs_call c || is_execSync c)
                       (_pullIPFS env depth destination)).
        { apply (quiet_weaken ipfs_call); [|apply _pullIPFS_quiet].
          intros c ->. reflexivity. }
        exact (Hq _ _ _ E).
      + exact (quiet_throw (fun c => ipfs_call c || is_execSync c) _ _ _ _ E). }
  exists new. split; [exact Hlog|].
  eapply Forall_impl; [exact H|]. intros x Hx.
  apply orb_true_iff in Hx as [Hx|Hx]; auto.
Qed.

(** What follows the package directory in [install]. *)
Lemma install_rest_calls P :
  (forall c, ipfs_call c = true -> P c = true) ->
  (forall c, is_execSync c = true -> P c = true) ->
  (forall c, scratch_call c = true -> P c = true) ->
  calls_only P
    (this <- get_this (W := W) ;;
     if truthy (Some (getName this)) then
       let installedAt := path_join [packagesDirectory this; getName this] in
       pull env depth installedAt ;;
       update (set_installedAt installedAt)
     else
       tmpDir <- _getTmpDir env ;;
       pull env depth tmpDir ;;
       n <- do env (dappfile_name tmpDir) ;;
       update (setName n) ;;
       this <- get_this ;;
       let installedAt := path_join [packagesDirectory this; getName this] in
       do env (copySync tmpDir installedAt) ;;
       update (set_installedAt installedAt) ;;
       try_catch (do env (removeSync tmpDir))
         (fun e => throw (CleanupError (getName this) installedAt tmpDir))).
Proof.
  intros HP1 HP2 HP3.
  assert (Hdo : forall c, scratch_call c = true -> calls_only P (do env c)).
  { intros c Hc. apply calls_only_do. apply HP3. exact Hc. }
  apply calls_only_bind; [apply calls_only_get_this|intros this].
  destruct (truthy _).
  - apply calls_only_bind; [apply pull_calls; assumption|intros _].
    apply calls_only_update.
  - unfold _getTmpDir.
    repeat first
      [ apply calls_only_ret | apply calls_only_throw
      | apply calls_only_get_this | apply calls_only_update
      | apply pull_calls; assumption
      | apply Hdo; reflexivity
      | apply calls_only_bind; [|intros ?]
      | apply calls_only_try_catch; [|intros ?]
      | match goal with
        | |- calls_only _ (if ?b then _ else _) => destruct b
        end ].
Qed.

Lemma quiet_then P {A B} (m : @M W A) (f : A -> @M W B) (st : @State W) r st' :
  quiet P m -> bind m f st = (r, st') ->
  (exists a st1 new1,
     this st1 = this st /\ log st1 = log st ++ new1 /\
     Forall (fun e => P e.1 = true) new1 /\ f a st1 = (r, st')) \/
  (this st' = this st /\ (forall b, r <> Return b) /\
   exists new1, log st' = log st ++ new1 /\
                Forall (fun e => P e.1 = true) new1).
Proof.
  intros Hm. unfold bind. destruct (m st) as [[a|e|] st1] eqn:E;
    apply Hm in E as (T & new1 & E & H).
  - intros Hf. left. exists a, st1, new1. auto.
  - intros [= <- <-]. right. split; [exact T|]. split; [discriminate|eauto].
  - intros [= <- <-]. right. split; [exact T|]. split; [discriminate|eauto].
Qed.

Lemma _throwIfInstalled_quiet P :
  (forall p m, P (accessSync p m) = true) -> quiet P (_throwIfInstalled env).
Proof.
  intros HP. unfold _throwIfInstalled.
  apply quiet_bind; [apply quiet_get_this|intros this].
  apply quiet_bind.
  - apply quiet_try_catch; [|intros e; apply quiet_ret].
    apply quiet_bind; [apply quiet_do; apply HP|intros _; apply quiet_ret].
  - intros []; [apply quiet_throw|apply quiet_ret].
Qed.

Lemma not_mkdirSync_failed (new : list (call * bool)) p :
  Forall (fun e => negb (is_mkdirSync e.1) = true) new ->
  (mkdirSync p, false) ∈ new -> False.
Proof.
  intros Hall Hin. rewrite Forall_forall in Hall.
  apply Hall in Hin. discriminate.
Qed.

(** The check of the package directory, and its creation when the check
    fails. *)
Lemma package_directory_cases pd (st1 : @State W) r1 st2 :
  try_catch (do env (accessSync pd W_OK))
    (fun _ => try_catch (do env (mkdirSync pd))
                (fun e => throw (PathAccessError pd e))) st1 = (r1, st2) ->
  this st2 = this st1 /\
  ((r1 = Return tt /\
    (log st2 = log st1 ++ [(accessSync pd W_OK, true)] \/
     log st2 = log st1 ++ [(accessSync pd W_OK, false); (mkdirSync pd, true)]))
   \/
   (exists e, r1 = Throw (PathAccessError pd e) /\
      log st2 = log st1 ++ [(accessSync pd W_OK, false);
                            (mkdirSync pd, false)])).
Proof.
  unfold try_catch, do, throw.
  destruct (env (accessSync pd W_OK) (world st1)) as [[[]|e1] w1].
  - intros [= <- <-]. split; [reflexivity|]. left. auto.
  - cbn [this world log].
    destruct (env (mkdirSync pd) w1) as [[[]|e2] w2]; intros [= <- <-];
      cbn [this log]; rewrite <- app_assoc; (split; [reflexivity|]).
    + left. auto.
    + right. eauto.
Qed.

Lemma quiet_traced_then P {A B} (m : @M W A) (f : A -> @M W B)
    (st : @State W) r st' :
  quiet P m -> traced env m -> bind m f st = (r, st') ->
  (exists a st1 new1,
     this st1 = this st /\ log st1 = log st ++ new1 /\
     world st1 = world_after env (map fst new1) (world st) /\
     Forall (fun e => P e.1 = true) new1 /\ f a st1 = (r, st')) \/
  (this st' = this st /\ (forall b, r <> Return b) /\
   exists new1, log st' = log st ++ new1 /\
                Forall (fun e => P e.1 = true) new1).
Proof.
  intros Hq Ht. unfold bind. destruct (m st) as [[a|e|] st1] eqn:E;
    destruct (Hq _ _ _ E) as (T & new1 & L & H).
  - intros Hf. left. exists a, st1, new1.
    pose proof (traced_world m st _ st1 new1 Ht E L) as Hw. auto.
  - intros [= <- <-]. right. split; [exact T|]. split; [discriminate|eauto].
  - intros [= <- <-]. right. split; [exact T|]. split; [discriminate|eauto].
Qed.

(** The error of a package directory that can be neither written to nor
    created is made of the error [mkdirSync] has thrown. *)
Lemma package_directory_Throw pd (st1 : @State W) e0 st2 :
  try_catch (do env (accessSync pd W_OK))
    (fun _ => try_catch (do env (mkdirSync pd))
                (fun e => throw (PathAccessError pd e))) st1
  = (Throw e0, st2) ->
  exists e,
    e0 = PathAccessError pd e /\
    env (mkdirSync pd) (env (accessSync pd W_OK) (world st1)).2
    = (Raise e, world st2).
Proof.
  unfold try_catch, do, throw.
  destruct (env (accessSync pd W_OK) (world st1)) as [[[]|e1] w1];
    [discriminate|].
  cbn [this world log snd].
  destruct (env (mkdirSync pd) w1) as [[[]|e2] w2] eqn:E; [discriminate|].
  intros [= <- <-]. exists e2. auto.
Qed.

(** X15. When the package directory can be neither written to nor
    created, [install] throws PathAccessError, which names the directory
    and carries the error that [mkdirSync] has thrown: a [mkdirSync] that
    has failed in a run of [install] is of the package directory, comes
    right after the failed check [accessSync(packagesDirectory, W_OK)] and
    is the last call; the error [e] it has thrown, in the world the calls
    before it have left, is the one in the message; the object is as it
    was, nothing has been fetched. *)
Theorem unusable_package_directory (st : @State W) r st' new p :
  install env depth st = (r, st') ->
  log st' = log st ++ new ->
  (mkdirSync p, false) ∈ new ->
  p = packagesDirectory (this st) /\
  this st' = this st /\
  exists before e,
    new = before ++ [(accessSync p W_OK, false); (mkdirSync p, false)] /\
    env (mkdirSync p)
      (world_after env (map fst before ++ [accessSync p W_OK]) (world st))
    = (Raise e, world st') /\
    r = Throw (PathAccessError p e).
Proof.
  intros Hrun Hnew Hin. unfold install in Hrun.
  unfold bind at 1, get_this at 1 in Hrun.
  apply (quiet_traced_then (fun c => negb (is_mkdirSync c))) in Hrun.
  2:{ destruct (truthy _); [|apply quiet_ret].
      apply _throwIfInstalled_quiet. reflexivity. }
  2:{ destruct (truthy _); [|apply traced_ret].
      apply _throwIfInstalled_traced. }
  destruct Hrun as [([] & st1 & new1 & T1 & L1 & W1 & H1 & Hrun)
                   |(_ & _ & new1 & L1 & H1)].
  2:{ exfalso. rewrite L1 in Hnew. apply app_inv_head in Hnew. subst new1.
      exact (not_mkdirSync_failed _ _ H1 Hin). }
  unfold bind at 1 in Hrun.
  destruct (try_catch _ _ st1) as [[[]|e|] st2] eqn:E2;
    pose proof E2 as E2';
    apply package_directory_cases in E2 as [T2 [[E2 L2]|(e2 & E2 & L2)]];
    try discriminate.
  - exfalso.
    apply (install_rest_calls (fun c => negb (is_mkdirSync c))) in Hrun
      as (new3 & L3 & H3);
      [|intros [] H; try reflexivity; discriminate H..].
    cbv beta in H3.
    assert (exists mid, log st2 = log st1 ++ mid /\ (mkdirSync p, false) ∉ mid)
      as (mid & Lmid & Hmid).
    { destruct L2 as [L2|L2]; eexists; (split; [exact L2|]);
        rewrite ?not_elem_of_cons; repeat split;
        try discriminate; apply not_elem_of_nil. }
    rewrite L3, Lmid, L1, <- !app_assoc in Hnew. apply app_inv_head in Hnew.
    subst new. rewrite !elem_of_app in Hin.
    destruct Hin as [Hin|[Hin|Hin]]; [|contradiction|].
    + exact (not_mkdirSync_failed _ _ H1 Hin).
    + exact (not_mkdirSync_failed _ _ H3 Hin).
  - injection Hrun as <- <-. clear E2.
    apply package_directory_Throw in E2' as (e3 & -> & Henv).
    rewrite L2, L1, <- !app_assoc in Hnew. apply app_inv_head in Hnew.
    subst new. rewrite elem_of_app, !elem_of_cons, elem_of_nil in Hin.
    destruct Hin as [Hin|[Hin|[Hin|[]]]].
    + exfalso. exact (not_mkdirSync_failed _ _ H1 Hin).
    + discriminate.
    + injection Hin as ->. rewrite T2, T1.
      split; [reflexivity|]. split; [reflexivity|].
      exists new1, e3. split; [reflexivity|].
      split; [|reflexivity].
      rewrite world_after_app, <- W1. exact Henv.
Qed.

(** ** Installing under a name that is known *)

Lemma package_directory_quiet P pd :
  (forall p m, P (accessSync p m) = true) ->
  (forall p, P (mkdirSync p) = true) ->
  quiet P
    (try_catch (do env (accessSync pd W_OK))
       (fun _ => try_catch (do env (mkdirSync pd))
                   (fun e => throw (PathAccessError pd e)))).
Proof.
  intros HP1 HP2.
  apply quiet_try_catch; [apply quiet_do; apply HP1|intros _].
  apply quiet_try_catch; [apply quiet_do; apply HP2|intros e].
  apply quiet_throw.
Qed.

Lemma pull_quiet P destination :
  (forall c, ipfs_call c = true -> P c = true) ->
  (forall c, is_execSync c = true -> P c = true) ->
  quiet P (pull env depth destination).
Proof.
  intros HP1 HP2 st r st'. unfold pull, bind at 1, get_this at 1. intros E.
  destruct (hasGitPath (this st)).
  - exact (quiet_weaken is_execSync P _ HP2 (_pullGit_quiet destination) _ _ _ E).
  - destruct (hasIPFSPath (this st)).
    + exact (quiet_weaken ipfs_call P _ HP1 (_pullIPFS_quiet destination) _ _ _ E).
    + exact (quiet_throw P _ _ _ _ E).
Qed.

(** X16. When the name is known, [install] uses no scratch directory:
    whatever the outcome, none of its calls is [os.tmpdir], [Math.random],
    [emptyDirSync], the manifest reader, [copySync] or [removeSync], and
    the name and [_tmpDir] are as they were. *)
Theorem named_install_needs_no_scratch (st : @State W) r st' :
  getName (this st) <> [] ->
  install env depth st = (r, st') ->
  getName (this st') = getName (this st) /\
  _tmpDir (this st') = _tmpDir (this st) /\
  exists new,
    log st' = log st ++ new /\
    Forall (fun e : call * bool => scratch_call e.1 = false) new.
Proof.
  intros Hname Hrun.
  assert (Ht : truthy (Some (getName (this st))) = true)
    by (apply truthy_Some; exact Hname).
  set (P := fun c => negb (scratch_call c)).
  assert (Hgoal :
    getName (this st') = getName (this st) /\
    _tmpDir (this st') = _tmpDir (this st) /\
    exists new, log st' = log st ++ new /\ Forall (fun e => P e.1 = true) new).
  2:{ destruct Hgoal as (Hn & Ht' & new & L & H). repeat split; auto.
      exists new. split; [exact L|]. eapply Forall_impl; [exact H|].
      intros x Hx. apply negb_true_iff in Hx. exact Hx. }
  unfold install in Hrun. unfold bind at 1, get_this at 1 in Hrun.
  rewrite Ht in Hrun.
  apply (quiet_then P) in Hrun;
    [|apply _throwIfInstalled_quiet; reflexivity].
  destruct Hrun as [([] & st1 & new1 & T1 & L1 & H1 & Hrun)
                   |(T1 & _ & new1 & L1 & H1)].
  2:{ rewrite T1. eauto. }
  apply (quiet_then P) in Hrun;
    [|apply package_directory_quiet; reflexivity].
  destruct Hrun as [([] & st2 & new2 & T2 & L2 & H2 & Hrun)
                   |(T2 & _ & new2 & L2 & H2)].
  2:{ rewrite T2, T1. split; [reflexivity|]. split; [reflexivity|].
      exists (new1 ++ new2). rewrite L2, L1, app_assoc.
      split; [reflexivity|]. apply Forall_app. auto. }
  unfold bind at 1, get_this at 1 in Hrun. rewrite T2, T1, Ht in Hrun.
  cbv zeta in Hrun.
  apply (quiet_then P) in Hrun;
    [|apply pull_quiet; intros [] H; try reflexivity; discriminate H].
  destruct Hrun as [([] & st3 & new3 & T3 & L3 & H3 & Hrun)
                   |(T3 & _ & new3 & L3 & H3)].
  - unfold update in Hrun. injection Hrun as _ <-. cbn [this log].
    rewrite T3, T2, T1. split; [reflexivity|]. split; [reflexivity|].
    exists (new1 ++ new2 ++ new3). rewrite L3, L2, L1, <- !app_assoc.
    split; [reflexivity|]. rewrite !Forall_app. auto.
  - rewrite T3, T2, T1. split; [reflexivity|]. split; [reflexivity|].
    exists (new1 ++ new2 ++ new3). rewrite L3, L2, L1, <- !app_assoc.
    split; [reflexivity|]. rewrite !Forall_app. auto.
Qed.

(** ** What a failed install leaves *)

(** One statement of a body: when a call that the statement does not make
    is in the log at the end, the statement has returned and the rest of
    the body has run. *)
Lemma step_on (P : call -> bool) (x : call * bool) {A B}
    (m : @M W A) (f : A -> @M W B) (st0 st : @State W) acc r st' new :
  P x.1 = false ->
  calls_only P m ->
  log st = log st0 ++ acc ->
  Forall (fun e : call * bool => P e.1 = true) acc ->
  bind m f st = (r, st') ->
  log st' = log st0 ++ new ->
  x ∈ new ->
  exists a st1 acc1,
    m st = (Return a, st1) /\ f a st1 = (r, st') /\
    log st1 = log st0 ++ acc1 /\
    Forall (fun e : call * bool => P e.1 = true) acc1.
Proof.
  intros Hx Hm Hlog Hacc Hbind Hnew Hin. unfold bind in Hbind.
  assert (Hno : forall l, Forall (fun e : call * bool => P e.1 = true) l ->
                          x ∉ l).
  { intros l Hl Hxl. rewrite Forall_forall in Hl. apply Hl in Hxl. congruence. }
  destruct (m st) as [[a|e|] st1] eqn:E;
    destruct (Hm _ _ _ E) as (new1 & Hlog1 & Hnew1).
  - exists a, st1, (acc ++ new1). split; [reflexivity|]. split; [exact Hbind|].
    split; [rewrite Hlog1, Hlog, app_assoc; reflexivity|].
    apply Forall_app. auto.
  - injection Hbind as <- <-. exfalso.
    rewrite Hlog1, Hlog, <- app_assoc in Hnew. apply app_inv_head in Hnew.
    apply (Hno new); [|exact Hin]. rewrite <- Hnew. apply Forall_app. auto.
  - injection Hbind as <- <-. exfalso.
    rewrite Hlog1, Hlog, <- app_assoc in Hnew. apply app_inv_head in Hnew.
    apply (Hno new); [|exact Hin]. rewrite <- Hnew. apply Forall_app. auto.
Qed.

(** X19. An [install] that throws has not removed the scratch directory:
    no [removeSync] has returned in its run.  What was fetched before the
    failure is left where it is. *)
Theorem failed_install_removes_nothing (st : @State W) e st' new t :
  install env depth st = (Throw e, st') ->
  log st' = log st ++ new ->
  (removeSync t, true) ∉ new.
Proof.
  intros Hrun Hnew Hin. unfold install in Hrun.
  assert (Hx : not_removeSync (removeSync t, true).1 = false) by reflexivity.
  eapply (step_on _ _ _ _ st st []) in Hrun
    as (this0 & st1 & acc1 & E1 & Hrun & Hlog1 & Hacc1);
    [|exact Hx|apply calls_only_get_this|symmetry; apply app_nil_r
     |constructor|exact Hnew|exact Hin].
  clear E1.
  eapply step_on in Hrun
    as ([] & st2 & acc2 & _ & Hrun & Hlog2 & Hacc2);
    [|exact Hx
     |destruct (truthy _);
        [apply _throwIfInstalled_never_removes|apply calls_only_ret]
     |exact Hlog1|exact Hacc1|exact Hnew|exact Hin].
  eapply step_on in Hrun
    as ([] & st3' & acc3' & _ & Hrun & Hlog3' & Hacc3');
    [|exact Hx|apply install_prelude_never_removes
     |exact Hlog2|exact Hacc2|exact Hnew|exact Hin].
  clear this0.
  eapply step_on in Hrun
    as (this0 & st3 & acc3 & _ & Hrun & Hlog3 & Hacc3);
    [|exact Hx|apply calls_only_get_this
     |exact Hlog3'|exact Hacc3'|exact Hnew|exact Hin].
  assert (Hno : forall l, Forall (fun e : call * bool => not_removeSync e.1 = true) l ->
                          (removeSync t, true) ∉ l).
  { intros l Hl Hxl. rewrite Forall_forall in Hl. apply Hl in Hxl.
    discriminate. }
  destruct (truthy (Some (getName this0))).
  { assert (Hdirect : calls_only not_removeSync
              (bind (pull env depth
                       (path_join [packagesDirectory this0; getName this0]))
                 (fun _ => update (set_installedAt
                       (path_join [packagesDirectory this0; getName this0]))))).
    { apply calls_only_bind;
        [apply pull_never_removes|intros _; apply calls_only_update]. }
    apply Hdirect in Hrun as (new4 & Hlog4 & Hnew4).
    rewrite Hlog4, Hlog3, <- app_assoc in Hnew. apply app_inv_head in Hnew.
    apply (Hno new); [|exact Hin].
    rewrite <- Hnew. apply Forall_app. auto. }
  eapply step_on in Hrun
    as (tmpDir & st4 & acc4 & _ & Hrun & Hlog4 & Hacc4);
    [|exact Hx|apply _getTmpDir_never_removes
     |exact Hlog3|exact Hacc3|exact Hnew|exact Hin].
  eapply step_on in Hrun
    as ([] & st5 & acc5 & _ & Hrun & Hlog5 & Hacc5);
    [|exact Hx|apply pull_never_removes
     |exact Hlog4|exact Hacc4|exact Hnew|exact Hin].
  eapply step_on in Hrun
    as (n & st6 & acc6 & _ & Hrun & Hlog6 & Hacc6);
    [|exact Hx|apply calls_only_do; reflexivity
     |exact Hlog5|exact Hacc5|exact Hnew|exact Hin].
  unfold bind at 1 2, update at 1, get_this in Hrun.
  cbn [this world log] in Hrun.
  eapply (step_on _ _ _ _ st _ acc6) in Hrun
    as ([] & st7 & acc7 & E7 & Hrun & Hlog7 & Hacc7);
    [|exact Hx|apply calls_only_do; reflexivity
     |exact Hlog6|exact Hacc6|exact Hnew|exact Hin].
  unfold bind, update, try_catch, do in Hrun. cbn [this world log] in Hrun.
  destruct (env (removeSync tmpDir) (world st7)) as [[[]|e8] w8];
    [discriminate|].
  unfold throw in Hrun. injection Hrun as _ <-. cbn [log] in Hnew.
  rewrite Hlog7, <- app_assoc in Hnew. apply app_inv_head in Hnew.
  rewrite <- Hnew in Hin. apply elem_of_app in Hin as [Hin|Hin].
  - exact (Hno _ Hacc7 Hin).
  - apply list_elem_of_singleton in Hin. discriminate.
Qed.

(** ** What an install that returns has done *)

Lemma bind_Return {A B} (m : @M W A) (f : A -> @M W B) (st : @State W) b st' :
  bind m f st = (Return b, st') ->
  exists a st1, m st = (Return a, st1) /\ f a st1 = (Return b, st').
Proof.
  unfold bind. destruct (m st) as [[a|e|] st1]; try discriminate. eauto.
Qed.

Lemma do_Return c (st : @State W) a st' :
  do env c st = (Return a, st') ->
  this st' = this st /\ log st' = log st ++ [(c, true)] /\
  (env c (world st)).1 = Answer a /\ world st' = (env c (world st)).2.
Proof.
  unfold do. destruct (env c (world st)) as [[a'|e] w]; [|discriminate].
  intros [= <- <-]. auto.
Qed.

Lemma _throwIfInstalled_Return (st : @State W) u st' :
  _throwIfInstalled env st = (Return u, st') ->
  this st' = this st /\
  log st' = log st ++
    [(accessSync (path_join [packagesDirectory (this st); getName (this st)])
        R_OK, false)].
Proof.
  unfold _throwIfInstalled, bind, try_catch, get_this, do, ret, throw.
  destruct (env (accessSync _ R_OK) (world st)) as [[[]|e] w]; [discriminate|].
  intros [= _ <-]. auto.
Qed.

Lemma _pullGit_Return target (st : @State W) u st' :
  _pullGit env target st = (Return u, st') ->
  this st' = this st /\
  log st' = log st ++
    returned (git_commands (getPath (this st))
                (replace_empty atRegex (getVersion (this st))) target).
Proof.
  unfold _pullGit, bind, get_this, throw.
  destruct (negb (hasVersion (this st))); [discriminate|].
  destruct (negb (test commitRegex _)); [discriminate|].
  unfold git_commands, returned, do.
  destruct (env (execSync (str "git clone " ++ _) None) (world st))
    as [[[]|e1] w1]; [|discriminate]. cbn [this world log].
  destruct (env (execSync (str "git reset --hard " ++ _) (Some target)) w1)
    as [[[]|e2] w2]; [|discriminate]. cbn [this world log].
  destruct (env (execSync (str "git submodule init") (Some target)) w2)
    as [[[]|e3] w3]; [|discriminate]. cbn [this world log].
  destruct (env (execSync (str "git submodule update") (Some target)) w3)
    as [[[]|e4] w4]; [|discriminate].
  intros [= _ <-]. cbn [this log map]. rewrite <- !app_assoc. auto.
Qed.

Lemma pull_Return destination (st : @State W) u st' :
  pull env depth destination st = (Return u, st') ->
  this st' = this st /\
  exists fetched,
    log st' = log st ++ fetched /\ fetched_by (this st) destination fetched.
Proof.
  unfold pull, bind at 1, get_this at 1, fetched_by.
  destruct (hasGitPath (this st)).
  - intros H. apply _pullGit_Return in H as [T L]. eauto.
  - destruct (hasIPFSPath (this st)); [|discriminate].
    intros H. apply _pullIPFS_quiet in H as (T & new & L & H). eauto.
Qed.

Lemma _getTmpDir_Return (st : @State W) d st' :
  truthy (_tmpDir (this st)) = false ->
  _getTmpDir env st = (Return d, st') ->
  exists tmp rnd : jstring,
    (env tmpdir (world st)).1 = Answer tmp /\
    (env random (env tmpdir (world st)).2).1 = Answer rnd /\
    d = path_join [tmp; str "dapple"; str "packages"; drop 2 rnd] /\
    this st' = set_tmpDir d (this st) /\
    log st' = log st ++ returned [tmpdir; random; emptyDirSync d].
Proof.
  intros T. unfold _getTmpDir, bind, get_this, update, do, ret.
  rewrite T. cbn [negb].
  destruct (env tmpdir (world st)) as [[tmp|e1] w1]; [|discriminate].
  cbn [this world log fst snd].
  destruct (env random w1) as [[rnd|e2] w2]; [|discriminate].
  cbn [this world log fst snd].
  destruct (env (emptyDirSync _) w2) as [[[]|e3] w3]; [|discriminate].
  intros [= <- <-]. exists tmp, rnd. cbn [this log returned map].
  rewrite <- !app_assoc. auto.
Qed.

Lemma package_directory_Return pd (st : @State W) u st' :
  try_catch (do env (accessSync pd W_OK))
    (fun _ => try_catch (do env (mkdirSync pd))
                (fun e => throw (PathAccessError pd e))) st = (Return u, st') ->
  this st' = this st /\
  exists made, log st' = log st ++ made /\ made_ready pd made.
Proof.
  intros H. apply package_directory_cases in H as [T [[_ L]|(e & E & _)]];
    [|discriminate].
  split; [exact T|]. unfold made_ready. destruct L as [L|L]; eauto.
Qed.

(** X17. What an install under a known name has done when it returns: the
    check that [<packagesDirectory>/<name>] is readable has failed, the
    package directory has been checked, and created when the check failed,
    and [pull] has fetched to [<packagesDirectory>/<name>], in that order.
    [installedAt] is that path; nothing else of the object has changed. *)
Theorem named_install_returns (st : @State W) st' :
  getName (this st) <> [] ->
  install env depth st = (Return tt, st') ->
  let pd := packagesDirectory (this st) in
  let target := path_join [pd; getName (this st)] in
  this st' = set_installedAt target (this st) /\
  exists made fetched,
    log st' = log st ++ [(accessSync target R_OK, false)] ++ made ++ fetched /\
    made_ready pd made /\ fetched_by (this st) target fetched.
Proof.
  intros Hname Hrun. cbv zeta.
  assert (Ht : truthy (Some (getName (this st))) = true)
    by (apply truthy_Some; exact Hname).
  unfold install in Hrun. unfold bind at 1, get_this at 1 in Hrun.
  rewrite Ht in Hrun.
  apply bind_Return in Hrun as ([] & st1 & E1 & Hrun).
  apply _throwIfInstalled_Return in E1 as [T1 L1].
  apply bind_Return in Hrun as ([] & st2 & E2 & Hrun).
  apply package_directory_Return in E2 as (T2 & made & L2 & Hmade).
  unfold bind at 1, get_this at 1 in Hrun. rewrite T2, T1, Ht in Hrun.
  cbv zeta in Hrun.
  apply bind_Return in Hrun as ([] & st3 & E3 & Hrun).
  apply pull_Return in E3 as (T3 & fetched & L3 & Hfetched).
  unfold update in Hrun. injection Hrun as <-. cbn [this log].
  rewrite T3, T2, T1. split; [reflexivity|].
  exists made, fetched. rewrite L3, L2, L1, <- !app_assoc.
  rewrite T2, T1 in Hfetched. auto.
Qed.

(** X18. What an install without a name has done when it returns, in
    order: the package directory has been checked, and created when the
    check failed; [os.tmpdir()] has answered [tmp] and [Math.random()] has
    answered [rnd], and the scratch directory
    [tmp/dapple/packages/String(rnd).slice(2)] has been emptied; a run of
    [pull] into the scratch directory has returned; the manifest reader has
    answered the name [n] for the scratch directory; the scratch directory
    has been copied to [<packagesDirectory>/n] and removed.  The object
    has that name, that path as [installedAt], and the scratch path as
    [_tmpDir]. *)
Theorem scratch_install_returns (st : @State W) st' :
  getName (this st) = [] ->
  truthy (_tmpDir (this st)) = false ->
  install env depth st = (Return tt, st') ->
  exists tmp rnd n made fetched,
    let pd := packagesDirectory (this st) in
    let scratch := path_join [tmp; str "dapple"; str "packages"; drop 2 rnd] in
    let target := path_join [pd; n] in
    let ready := made ++ returned [tmpdir; random; emptyDirSync scratch] in
    let w1 := world_after env (map fst made) (world st) in
    let w2 := world_after env (map fst ready) (world st) in
    let w3 := world_after env (map fst (ready ++ fetched)) (world st) in
    made_ready pd made /\
    (env tmpdir w1).1 = Answer tmp /\
    (env random (env tmpdir w1).2).1 = Answer rnd /\
    pull env depth scratch
      {| this := set_tmpDir scratch (this st); world := w2;
         log := log st ++ ready |}
    = (Return tt,
       {| this := set_tmpDir scratch (this st); world := w3;
          log := log st ++ ready ++ fetched |}) /\
    fetched_by (this st) scratch fetched /\
    (env (dappfile_name scratch) w3).1 = Answer n /\
    this st' =
      set_installedAt target (setName n (set_tmpDir scratch (this st))) /\
    log st' =
      log st ++ ready ++ fetched ++
      returned [dappfile_name scratch; copySync scratch target;
                removeSync scratch].
Proof.
  intros Hname Htmp Hrun.
  assert (Ht : truthy (Some (getName (this st))) = false)
    by (rewrite Hname; reflexivity).
  unfold install in Hrun. unfold bind at 1, get_this at 1 in Hrun.
  rewrite Ht in Hrun.
  apply bind_Return in Hrun as ([] & st1 & E1 & Hrun).
  injection E1 as <-.
  apply bind_Return in Hrun as ([] & st2 & E2 & Hrun).
  pose proof E2 as W2.
  apply package_directory_Return in E2 as (T2 & made & L2 & Hmade).
  apply (traced_world _ _ _ _ made (package_directory_traced _)) in W2;
    [|exact L2].
  unfold bind at 1, get_this at 1 in Hrun. rewrite T2, Ht in Hrun.
  apply bind_Return in Hrun as (d & st3 & E3 & Hrun).
  pose proof E3 as W3.
  apply _getTmpDir_Return in E3 as (tmp & rnd & A1 & A2 & Hd & T3 & L3);
    [|rewrite T2; exact Htmp].
  apply (traced_world _ _ _ _ (returned [tmpdir; random; emptyDirSync d])
           _getTmpDir_traced) in W3; [|exact L3].
  apply bind_Return in Hrun as ([] & st4 & E4 & Hrun).
  pose proof E4 as W4. pose proof E4 as R4.
  apply pull_Return in E4 as (T4 & fetched & L4 & Hfetched).
  apply (traced_world _ _ _ _ fetched (pull_traced _)) in W4; [|exact L4].
  apply bind_Return in Hrun as (n & st5 & E5 & Hrun).
  apply do_Return in E5 as (T5 & L5 & A5 & _).
  unfold bind at 1 2, update at 1, get_this in Hrun.
  cbn [this world log] in Hrun.
  apply bind_Return in Hrun as ([] & st6 & E6 & Hrun).
  apply do_Return in E6 as (T6 & L6 & _ & _). cbn [this log] in T6, L6.
  unfold bind, update, try_catch, do, throw in Hrun.
  cbn [this world log] in Hrun.
  destruct (env (removeSync d) (world st6)) as [[[]|e7] w7]; [|discriminate].
  injection Hrun as <-. cbn [this log].
  exists tmp, rnd, n, made, fetched. cbv zeta.
  rewrite <- Hd.
  assert (HW3 : world st3 =
                world_after env
                  (map fst (made ++ returned [tmpdir; random; emptyDirSync d]))
                  (world st)).
  { rewrite W3, W2, map_app, world_after_app. reflexivity. }
  assert (HW4 : world st4 =
                world_after env
                  (map fst ((made ++ returned [tmpdir; random; emptyDirSync d])
                            ++ fetched))
                  (world st)).
  { rewrite W4, HW3, (map_app _ (made ++ _)), world_after_app. reflexivity. }
  split; [exact Hmade|].
  split; [rewrite <- W2; exact A1|].
  split; [rewrite <- W2; exact A2|].
  split.
  { rewrite <- HW3, <- HW4.
    destruct st3 as [t3 w3 l3], st4 as [t4 w4 l4].
    cbn [this world log] in *. subst t4 t3 l4 l3. rewrite T2, L2 in R4.
    rewrite <- !app_assoc in R4. rewrite <- !app_assoc. exact R4. }
  split; [rewrite T3, T2 in Hfetched; exact Hfetched|].
  split; [rewrite <- HW4; exact A5|].
  rewrite T6, T5, T4, T3, T2.
  cbn [getName name setName packagesDirectory set_tmpDir].
  split; [reflexivity|].
  rewrite L6, L5, L4, L3, L2. cbn [returned map getName name setName
                                   packagesDirectory set_tmpDir].
  rewrite T5, T4, T3, T2.
  cbn [getName name setName packagesDirectory set_tmpDir].
  rewrite <- !app_assoc. reflexivity.
Qed.

(** ** The hash that is asked for *)

Lemma ipfsScheme_strip (pre h : jstring) :
  same_ignoring_case pre (str "ipfs://") = true ->
  replace_empty ipfsSchemeRegex (pre ++ h) = h.
Proof.
  intros Hpre. apply bool_decide_eq_true in Hpre. unfold replace_empty.
  rewrite (search_anchored ipfsSchemeRegex _ (lit "ipfs://") eq_refl).
  change (ignoreCase ipfsSchemeRegex) with true.
  rewrite (lit_matches true _ "ipfs://" pre h) by exact Hpre.
  rewrite Nat.sub_diag. reflexivity.
Qed.

Lemma ipfs_path_shape (pre h : jstring) :
  same_ignoring_case pre (str "ipfs://") = true ->
  h <> [] -> all_of true alnum h = true ->
  test gitSuffixRegex (pre ++ h) = false /\
  test ipfsPathRegex (pre ++ h) = true.
Proof.
  intros Hpre Hne Hall. split.
  - destruct (test gitSuffixRegex _) eqn:E; [|reflexivity]. exfalso.
    apply git_suffix_has_dot in E. apply elem_of_app in E as [E|E]; revert E.
    + apply (ipfs_scheme_excludes pre Hpre). repeat constructor.
    + apply (alnum_excludes h Hall). repeat constructor.
  - apply (ipfsPathRegex_iff (pre ++ h)). exists pre, h. auto.
Qed.

(** X12. For an IPFS path [ipfs://hash], whatever the case of the scheme,
    [pull] reads the settings and then probes [ls(hash)], the hash without
    the scheme; when the probe throws, [pull] throws IPFSConnectionError
    and calls nothing else. *)
Theorem ipfs_pull_asks_for_the_hash
    (pre h destination : jstring) (st : @State W) settings w1 r st' :
  path (this st) = pre ++ h ->
  same_ignoring_case pre (str "ipfs://") = true ->
  h <> [] -> all_of true alnum h = true ->
  env ipfs_settings (world st) = (Answer settings, w1) ->
  pull env depth destination st = (r, st') ->
  exists ok rest,
    log st' = log st ++ (ipfs_settings, true) :: (ls settings h, ok) :: rest /\
    (ok = false -> r = Throw IPFSConnectionError /\ rest = []).
Proof.
  intros Hpath Hpre Hne Hall Hrc.
  destruct (ipfs_path_shape pre h Hpre Hne Hall) as [Hgit Hipfs].
  rewrite <- Hpath in Hgit, Hipfs.
  unfold pull. unfold bind at 1, get_this at 1.
  change (test gitSuffixRegex (path (this st)))
    with (hasGitPath (this st)) in Hgit.
  change (test ipfsPathRegex (path (this st)))
    with (hasIPFSPath (this st)) in Hipfs.
  rewrite Hgit, Hipfs.
  unfold _pullIPFS. unfold bind at 1, do at 1. rewrite Hrc.
  cbn [this world log]. unfold bind at 1, get_this at 1.
  cbn [this world log]. unfold getPath.
  rewrite Hpath, (ipfsScheme_strip pre h Hpre).
  unfold bind at 1, try_catch, bind at 1, do at 1. cbn [this world log].
  destruct (env (ls settings h) w1) as [[links|e] w2].
  - unfold ret. intros H.
    apply pullIPFS_quiet in H as (_ & new & L & _). cbn [log] in L.
    exists true, new. rewrite L, <- !app_assoc. split; [reflexivity|].
    discriminate.
  - unfold throw. intros [= <- <-]. exists false, []. cbn [log].
    rewrite <- !app_assoc. auto.
Qed.

(** ** No call after a call that has failed *)

Lemma Forall_removelast {A} (P : A -> Prop) (l : list A) :
  Forall P l -> Forall P (removelast l).
Proof.
  induction 1 as [|x l Hx Hl IH]; [constructor|].
  cbn [removelast]. destruct l; [constructor|]. constructor; assumption.
Qed.

Lemma strict_silent {A} (m : @M W A) :
  (forall st, exists r, m st = (r, st)) -> strict m.
Proof.
  intros Hm st r st' E. destruct (Hm st) as [r' E']. rewrite E' in E.
  injection E as <- <-. exists []. rewrite app_nil_r.
  split; [reflexivity|]. split; [constructor|]. intros; constructor.
Qed.

Lemma strict_ret {A} (a : A) : strict (ret (W := W) a).
Proof. apply strict_silent. intros st. eexists. reflexivity. Qed.

Lemma strict_throw {A} e : strict (throw (W := W) (A := A) e).
Proof. apply strict_silent. intros st. eexists. reflexivity. Qed.

Lemma strict_out_of_fuel {A} : strict (out_of_fuel (W := W) (A := A)).
Proof. apply strict_silent. intros st. eexists. reflexivity. Qed.

Lemma strict_get_this : strict (get_this (W := W)).
Proof. apply strict_silent. intros st. eexists. reflexivity. Qed.

Lemma strict_do c : strict (do env c).
Proof.
  intros st r st'. unfold do.
  destruct (env c (world st)) as [[a|e] w]; intros [= <- <-];
    eexists; (split; [reflexivity|]); (split; [constructor|]).
  - intros _ _. repeat constructor.
  - intros a' [=].
Qed.

Lemma strict_bind {A B} (m : @M W A) (f : A -> @M W B) :
  strict m -> (forall a, strict (f a)) -> strict (bind m f).
Proof.
  intros Hm Hf st r st'. unfold bind.
  destruct (m st) as [[a|e|] st1] eqn:E;
    apply Hm in E as (new1 & L1 & H1 & R1).
  - intros Hfa. apply Hf in Hfa as (new2 & L2 & H2 & R2).
    specialize (R1 a eq_refl).
    exists (new1 ++ new2). rewrite L2, L1, app_assoc. split; [reflexivity|].
    split.
    + destruct new2 as [|x new2].
      * rewrite app_nil_r. apply Forall_removelast. exact R1.
      * rewrite removelast_app by discriminate. apply Forall_app. auto.
    + intros b Hb. apply Forall_app. split; [exact R1|exact (R2 b Hb)].
  - intros [= <- <-]. exists new1. split; [exact L1|].
    split; [exact H1|]. intros a [=].
  - intros [= <- <-]. exists new1. split; [exact L1|].
    split; [exact H1|]. intros a [=].
Qed.

(** [try { body } catch (e) { throw ... }] *)
Lemma strict_rethrow {A} (m : @M W A) e' :
  strict m -> strict (try_catch m (fun _ => throw e')).
Proof.
  intros Hm st r st'. unfold try_catch, throw.
  destruct (m st) as [[a|e|] st1] eqn:E;
    apply Hm in E as (new1 & L1 & H1 & R1); intros [= <- <-];
    exists new1; (split; [exact L1|]); (split; [exact H1|]).
  - exact R1.
  - intros a' [=].
  - intros a' [=].
Qed.

Lemma strict_for_each {A} (l : list A) (body : A -> @M W unit) :
  (forall x, strict (body x)) -> strict (for_each (W := W) l body).
Proof.
  intros Hbody. induction l as [|x l IH]; simpl.
  - apply strict_ret.
  - apply strict_bind; [apply Hbody|intros _; exact IH].
Qed.

Ltac strictly :=
  repeat first
    [ apply strict_ret | apply strict_throw
    | apply strict_out_of_fuel | apply strict_get_this
    | match goal with
      | |- strict (do _ ?c) => apply (strict_do c)
      end
    | apply strict_bind; [|intros ?]
    | apply strict_rethrow
    | apply strict_for_each; intros ?
    | match goal with
      | |- strict (if ?b then _ else _) => destruct b
      end ].

Lemma pullIPFS_strict settings rootHash fuel :
  forall hash dest type,
    strict (pullIPFS env settings rootHash fuel hash dest type).
Proof.
  induction fuel as [|fuel IH]; intros hash dest type; cbn [pullIPFS].
  - strictly.
  - strictly; apply IH.
Qed.

(** X11. [pull] does not go on after a call that has failed: of the calls
    of a run every one but the last has returned, and the last too when
    [pull] returns. *)
Theorem pull_stops_at_the_first_failure
    (destination : jstring) (st : @State W) r st' :
  pull env depth destination st = (r, st') ->
  exists new,
    log st' = log st ++ new /\
    Forall (fun e : call * bool => e.2 = true) (removelast new) /\
    (r = Return tt -> Forall (fun e : call * bool => e.2 = true) new).
Proof.
  intros H.
  assert (Hs : strict (pull env depth destination)).
  { unfold pull, _pullGit, _pullIPFS. strictly; apply pullIPFS_strict. }
  apply Hs in H as (new & L & H1 & H2). exists new. split; [exact L|].
  split; [exact H1|]. intros ->. apply (H2 tt). reflexivity.
Qed.

End InstallerFurther.

(** ** More of the simulated environment *)

(** ** Link names *)

Lemma rev_tail_rev {A} (q : list A) : rev (tail (rev q)) = removelast q.
Proof.
  induction q as [|a l _] using rev_ind; [reflexivity|].
  rewrite rev_app_distr. cbn [rev app tail].
  rewrite rev_involutive, removelast_last. reflexivity.
Qed.

Lemma resolve_step_up res : resolve_step res (str "..") = tail res.
Proof. reflexivity. Qed.

(** [path.join(dest, '../' + name)] is beside [dest], not below it. *)
Lemma resolve_sibling cwd (dest n : jstring) :
  dest <> [] -> valid_name n = true ->
  resolve cwd (path_join [dest; str "../" ++ n]) =
  parent (resolve cwd dest) ++ [n].
Proof.
  intros Hdest Hn. apply valid_name_spec in Hn as (Hne & Hslash & Hdot & Hdd).
  unfold path_join. destruct dest as [|cd dest']; [congruence|].
  rewrite !filter_cons_True, filter_nil by discriminate.
  cbn [join_slash].
  rewrite resolve_normalize, !resolve_eq.
  change (resolve_base cwd ((cd :: dest') ++ 47 :: str "../" ++ n))
    with (resolve_base cwd (cd :: dest')).
  change (str "../" ++ n) with (str ".." ++ 47 :: n).
  rewrite !split_slash_app, (split_slash_segment n) by exact Hslash.
  change (split_slash (str "..")) with [str ".."].
  rewrite !fold_left_app. cbn [fold_left].
  rewrite resolve_step_up, resolve_step_name by assumption.
  cbn [rev]. unfold parent. rewrite <- rev_tail_rev, rev_involutive.
  reflexivity.
Qed.

Lemma is_dir_insert_Dir fs (q p : fpath) :
  is_dir fs p = true -> is_dir (<[q := Dir]> fs) p = true.
Proof.
  destruct p as [|a p]; [reflexivity|]. intros H.
  apply is_dir_Some in H; [|discriminate].
  apply is_dir_of_Some.
  destruct (decide (q = a :: p)) as [->|Hne].
  - apply lookup_insert_eq.
  - rewrite lookup_insert_ne by exact Hne. exact H.
Qed.

Lemma parent_snoc (q : fpath) (n : jstring) : parent (q ++ [n]) = q.
Proof. apply removelast_last. Qed.

Lemma parent_is_dir fs (q : fpath) :
  q <> [] -> anc fs q -> is_dir fs (parent q) = true.
Proof.
  intros Hne Hanc. rewrite parent_take. apply Hanc.
  destruct q; [congruence|]. simpl. lia.
Qed.

(** X20. The names of the links are joined to the destination as they
    come.  In the simulated environment, a directory whose listing holds a
    file under the name [../n] is pulled by writing the content of that
    file at [n] beside the destination, not below it. *)
Theorem link_names_are_not_confined
    settings rootHash fuel (hash dest h n data : jstring) (st : SimState) :
  let q := resolve (cwd (world st)) dest in
  dest <> [] -> valid_name n = true ->
  q <> [] ->
  ancestors_are_dirs (files (world st)) q = true ->
  is_file (files (world st)) q = false ->
  is_dir (<[q := Dir]> (files (world st))) (parent q ++ [n]) = false ->
  ipfs_links (world st) !! hash =
    Some [{| Hash := h; Name := str "../" ++ n; Type_ := types_file |}] ->
  ipfs_data (world st) !! h = Some data ->
  pullIPFS sim settings rootHash (S (S fuel)) hash dest types_dir st =
  (Return tt,
   {| this := this st;
      world := with_files (world st)
                 (<[parent q ++ [n] := File data]>
                    (<[q := Dir]> (files (world st))));
      log := log st ++
        returned [ensureDirSync dest; ls settings hash; cat settings h;
                  writeFileSync (path_join [dest; str "../" ++ n]) data] |}) /\
  ~ q `prefix_of` (parent q ++ [n]).
Proof.
  intros q Hdest Hn Hq Hanc Hfile Hnodir Hls Hcat.
  apply ancestors_are_dirs_spec in Hanc. split.
  - cbn [pullIPFS]. change (types_dir =? types_dir) with true. cbv iota.
    unfold bind at 1. rewrite do_sim_ensureDirSync by assumption.
    unfold bind at 1. erewrite do_sim_ls by exact Hls.
    cbn [for_each]. unfold bind at 1.
    cbn [pullIPFS Hash Name Type_ this world log].
    change (types_file =? types_dir) with false.
    change (types_file =? types_file) with true. cbv iota.
    unfold bind at 1. erewrite do_sim_cat by exact Hcat.
    rewrite do_sim_writeFileSync; cbn [world files cwd with_files this log];
      rewrite ?(resolve_sibling _ dest n Hdest Hn); fold q.
    + unfold ret, returned. cbn [map]. rewrite <- !app_assoc. reflexivity.
    + exact Hnodir.
    + rewrite parent_snoc. apply is_dir_insert_Dir, parent_is_dir; assumption.
  - intros Hpre.
    assert (Hlen : length (parent q ++ [n]) = length q).
    { rewrite length_app, parent_take, length_take. cbn [length].
      destruct q; [congruence|]. simpl. lia. }
    destruct Hpre as [k Hk].
    assert (k = []) as ->.
    { apply (f_equal length) in Hk. rewrite Hlen, length_app in Hk.
      destruct k; [reflexivity|]. simpl in Hk. lia. }
    rewrite app_nil_r in Hk. rewrite Hk in Hnodir.
    assert (is_dir (<[q := Dir]> (files (world st))) q = true).
    { apply is_dir_of_Some, lookup_insert_eq. }
    congruence.
Qed.

(** ** What a fetch that fails leaves *)

Lemma built_refl (st : SimState) : built st st.
Proof.
  repeat split; auto. exists []. rewrite app_nil_r.
  split; [reflexivity|]. intros p Hp. inversion Hp.
Qed.

Lemma built_trans (st st1 st' : SimState) :
  built st st1 -> built st1 st' -> built st st'.
Proof.
  intros (T1 & C1 & M1 & new1 & L1 & E1) (T2 & C2 & M2 & new2 & L2 & E2).
  split; [congruence|]. split; [congruence|]. split; [auto|].
  exists (new1 ++ new2). rewrite L2, L1, app_assoc. split; [reflexivity|].
  intros p Hp. apply elem_of_app in Hp as [Hp|Hp].
  - rewrite C2. apply M2, E1. exact Hp.
  - apply E2. exact Hp.
Qed.

Lemma builds_ret {A} (a : A) : builds (ret a).
Proof. intros st r st' [= <- <-]. apply built_refl. Qed.

Lemma builds_throw {A} e : builds (throw (A := A) e).
Proof. intros st r st' [= <- <-]. apply built_refl. Qed.

Lemma builds_out_of_fuel {A} : builds (out_of_fuel (A := A)).
Proof. intros st r st' [= <- <-]. apply built_refl. Qed.

Lemma builds_get_this : builds get_this.
Proof. intros st r st' [= <- <-]. apply built_refl. Qed.

Lemma builds_bind {A B} (m : @M Sim A) (f : A -> @M Sim B) :
  builds m -> (forall a, builds (f a)) -> builds (bind m f).
Proof.
  intros Hm Hf st r st'. unfold bind.
  destruct (m st) as [[a|e|] st1] eqn:E.
  - intros Hfa. eapply built_trans; [eapply Hm|eapply Hf]; eassumption.
  - intros [= <- <-]. eapply Hm. exact E.
  - intros [= <- <-]. eapply Hm. exact E.
Qed.

Lemma builds_try_catch {A} (m : @M Sim A) (h : exn -> @M Sim A) :
  builds m -> (forall e, builds (h e)) -> builds (try_catch m h).
Proof.
  intros Hm Hh st r st'. unfold try_catch.
  destruct (m st) as [[a|e|] st1] eqn:E.
  - intros [= <- <-]. eapply Hm. exact E.
  - intros Hhe. eapply built_trans; [eapply Hm|eapply Hh]; eassumption.
  - intros [= <- <-]. eapply Hm. exact E.
Qed.

Lemma builds_for_each {A} (l : list A) (body : A -> @M Sim unit) :
  (forall x, builds (body x)) -> builds (for_each l body).
Proof.
  intros Hbody. induction l as [|x l IH]; simpl.
  - apply builds_ret.
  - apply builds_bind; [apply Hbody|intros _; exact IH].
Qed.

Lemma present_insert fs (k q : fpath) v :
  present fs q = true -> present (<[k := v]> fs) q = true.
Proof.
  unfold present. destruct q as [|a q]; [reflexivity|].
  destruct (decide (k = a :: q)) as [->|Hne].
  - rewrite lookup_insert_eq. reflexivity.
  - rewrite lookup_insert_ne by exact Hne. auto.
Qed.

Lemma present_inserted fs (k : fpath) v : present (<[k := v]> fs) k = true.
Proof.
  unfold present. destruct k; [reflexivity|].
  rewrite lookup_insert_eq. reflexivity.
Qed.

Lemma mkdirs_keeps (segs : list jstring) :
  forall fs base fs', mkdirs fs base segs = Some fs' ->
  forall q, present fs q = true -> present fs' q = true.
Proof.
  induction segs as [|seg segs IH]; intros fs base fs'; cbn [mkdirs].
  - intros [= <-]. auto.
  - destruct (is_file fs (base ++ [seg])); [discriminate|].
    intros H q Hq. eapply IH; [exact H|]. apply present_insert. exact Hq.
Qed.

Lemma mkdirs_makes (segs : list jstring) :
  forall fs base fs', mkdirs fs base segs = Some fs' ->
  present fs base = true -> present fs' (base ++ segs) = true.
Proof.
  induction segs as [|seg segs IH]; intros fs base fs'; cbn [mkdirs].
  - intros [= <-]. rewrite app_nil_r. auto.
  - destruct (is_file fs (base ++ [seg])); [discriminate|].
    intros H _. apply IH in H; [|apply present_inserted].
    rewrite <- app_assoc in H. exact H.
Qed.

Lemma one_call_built (st st' : SimState) c ok :
  this st' = this st ->
  cwd (world st') = cwd (world st) ->
  (forall q, present (files (world st)) q = true ->
             present (files (world st')) q = true) ->
  log st' = log st ++ [(c, ok)] ->
  (forall p, c = ensureDirSync p -> ok = true ->
     present (files (world st')) (resolve (cwd (world st')) p) = true) ->
  built st st'.
Proof.
  intros T C M L E. split; [exact T|]. split; [exact C|]. split; [exact M|].
  exists [(c, ok)]. split; [exact L|].
  intros p Hp. apply list_elem_of_singleton in Hp. injection Hp as <- <-.
  apply E; reflexivity.
Qed.

Lemma builds_do c : scratch_call c = false -> builds (do sim c).
Proof.
  intros Hc st r st'. unfold do.
  destruct c; try discriminate; cbn [sim].
  - unfold sim_accessSync. destruct (present _ _); intros [= <- <-];
      eapply one_call_built; cbn [this world log]; try reflexivity; auto;
      discriminate.
  - unfold sim_mkdirSync. cbv zeta.
    destruct (present _ _); [|destruct (is_dir _ _)]; intros [= <- <-];
      eapply one_call_built; cbn [this world log files cwd with_files];
      try reflexivity; auto; try discriminate.
    intros q. apply present_insert.
  - unfold sim_ensureDirSync, sim_files.
    destruct (mkdirs _ _ _) as [fs'|] eqn:E; intros [= <- <-];
      eapply one_call_built; cbn [this world log files cwd with_files];
      try reflexivity; auto; try discriminate.
    + apply (mkdirs_keeps _ _ _ _ E).
    + intros p0 [= <-] _. apply (mkdirs_makes _ _ _ _ E). reflexivity.
  - unfold sim_writeFileSync. cbv zeta.
    destruct (is_dir _ _); [|destruct (is_dir _ _)]; intros [= <- <-];
      eapply one_call_built; cbn [this world log files cwd with_files];
      try reflexivity; auto; try discriminate.
    intros q. apply present_insert.
  - intros [= <- <-].
    eapply one_call_built; cbn [this world log]; try reflexivity; auto;
      discriminate.
  - unfold sim_ipfs_settings. destruct (dapplerc _); intros [= <- <-];
      eapply one_call_built; cbn [this world log]; try reflexivity; auto;
      discriminate.
  - unfold sim_ls. destruct (_ !! _); intros [= <- <-];
      eapply one_call_built; cbn [this world log]; try reflexivity; auto;
      discriminate.
  - unfold sim_cat. destruct (_ !! _); intros [= <- <-];
      eapply one_call_built; cbn [this world log]; try reflexivity; auto;
      discriminate.
Qed.

Ltac building :=
  repeat first
    [ apply builds_ret | apply builds_throw
    | apply builds_out_of_fuel | apply builds_get_this
    | match goal with
      | |- builds (do _ ?c) => apply (builds_do c); reflexivity
      end
    | apply builds_bind; [|intros ?]
    | apply builds_try_catch; [|intros ?]
    | apply builds_for_each; intros ?
    | match goal with
      | |- builds (if ?b then _ else _) => destruct b
      end ].

Lemma pullIPFS_builds settings rootHash fuel :
  forall hash dest type,
    builds (pullIPFS sim settings rootHash fuel hash dest type).
Proof.
  induction fuel as [|fuel IH]; intros hash dest type; cbn [pullIPFS].
  - building.
  - building; apply IH.
Qed.

Lemma pull_builds depth destination : builds (pull sim depth destination).
Proof.
  unfold pull, _pullGit, _pullIPFS. building; apply pullIPFS_builds.
Qed.

Lemma builds_then {A B} (m : @M Sim A) (f : A -> @M Sim B)
    (st : SimState) r st' :
  builds m -> bind m f st = (r, st') ->
  (exists a st1, built st st1 /\ f a st1 = (r, st')) \/
  (built st st' /\ forall b, r <> Return b).
Proof.
  intros Hm. unfold bind. destruct (m st) as [[a|e|] st1] eqn:E;
    apply Hm in E.
  - intros Hf. left. eauto.
  - intros [= <- <-]. right. split; [exact E|discriminate].
  - intros [= <- <-]. right. split; [exact E|discriminate].
Qed.

(** A named install that throws has only built. *)
Lemma named_install_built depth (st : SimState) e st' :
  getName (this st) <> [] ->
  install sim depth st = (Throw e, st') -> built st st'.
Proof.
  intros Hname Hrun.
  assert (Ht : truthy (Some (getName (this st))) = true)
    by (apply truthy_Some; exact Hname).
  unfold install in Hrun. unfold bind at 1, get_this at 1 in Hrun.
  rewrite Ht in Hrun.
  apply builds_then in Hrun; [|unfold _throwIfInstalled; building].
  destruct Hrun as [([] & st1 & B1 & Hrun)|[B1 _]]; [|exact B1].
  apply builds_then in Hrun; [|building].
  destruct Hrun as [([] & st2 & B2 & Hrun)|[B2 _]];
    [|eapply built_trans; eassumption].
  unfold bind at 1, get_this at 1 in Hrun.
  destruct B1 as (T1 & B1'). destruct B2 as (T2 & B2').
  rewrite T2, T1, Ht in Hrun. cbv zeta in Hrun.
  apply builds_then in Hrun; [|apply pull_builds].
  destruct Hrun as [([] & st3 & B3 & Hrun)|[B3 _]].
  - discriminate.
  - eapply built_trans; [|exact B3].
    eapply built_trans; split; eassumption.
Qed.

(** X21. In the simulated environment, an install under a known name that
    throws after [pull] has made the destination directory leaves that
    directory in place: the same install, tried again, throws
    AlreadyInstalledError at its first check and fetches nothing. *)
Theorem failed_fetch_blocks_the_retry depth (st : SimState) e st' new :
  getName (this st) <> [] ->
  install sim depth st = (Throw e, st') ->
  log st' = log st ++ new ->
  (ensureDirSync
     (path_join [packagesDirectory (this st); getName (this st)]), true)
  ∈ new ->
  install sim depth st' =
  (Throw (AlreadyInstalledError (getName (this st))),
   {| this := this st; world := world st';
      log := log st' ++
        [(accessSync
            (path_join [packagesDirectory (this st); getName (this st)])
            R_OK, true)] |}).
Proof.
  intros Hname Hrun Hnew Hin.
  apply named_install_built in Hrun as (T & _ & _ & new' & L & E);
    [|exact Hname].
  rewrite L in Hnew. apply app_inv_head in Hnew. subst new'.
  apply E in Hin.
  assert (Ht : truthy (Some (getName (this st))) = true)
    by (apply truthy_Some; exact Hname).
  unfold install, _throwIfInstalled, bind, try_catch, get_this, do at 1.
  cbv beta. rewrite T, Ht. cbn [sim]. unfold sim_accessSync.
  rewrite !T, Hin. reflexivity.
Qed.

(** ** Examples of the further properties *)

Lemma git_form_parses_witness :
  fromDependencyString (str "git@github.com:nexusdev/dapple.git@abc123") None
  = Return (descriptor "" "git@github.com:nexusdev/dapple.git" "abc123").
Proof.
  apply (git_form_parses (str "git@github.com:nexusdev/dapple") (str "git")
           (str "abc123") 46 None);
    vm_compute; (reflexivity || discriminate).
Defined.

Lemma generic_specifier_parses_witness :
  fromDependencyString (str "dapple-core@1.0.0") None
  = Return (descriptor "" "dapple-core" "1.0.0").
Proof.
  apply (generic_specifier_parses (str "dapple-core") (str "1.0.0") None);
    vm_compute; (reflexivity || discriminate).
Defined.


Lemma ipfs_hash_alone_parses_witness :
  fromDependencyString (str "QmXYZabc123") (Some (str "pkg"))
  = Return (descriptor "pkg" "ipfs://QmXYZabc123" "QmXYZabc123") /\
  hasIPFSPath (descriptor "pkg" "ipfs://QmXYZabc123" "QmXYZabc123") = true /\
  hasGitPath (descriptor "pkg" "ipfs://QmXYZabc123" "QmXYZabc123") = false.
Proof.
  apply (ipfs_hash_alone_parses [] (str "QmXYZabc123") (Some (str "pkg")));
    [left; reflexivity|vm_compute; reflexivity].
Defined.

Lemma unpinned_git_is_rejected_witness :
  fromDependencyString (str "https://github.com/nexusdev/dapple.git") None
  = Throw MissingVersionError.
Proof.
  apply (unpinned_git_is_rejected
           (str "https://github.com/nexusdev/dapple.git") [] None);
    [vm_compute; reflexivity|vm_compute; reflexivity|left; reflexivity].
Defined.

Lemma plain_specifier_parses_witness :
  fromDependencyString (str "github.com/nexusdev/dapple@") (Some (str "dapple"))
  = Return (descriptor "dapple" "github.com/nexusdev/dapple" "").
Proof.
  apply (plain_specifier_parses (str "github.com/nexusdev/dapple") [64]
           (Some (str "dapple")));
    [discriminate|vm_compute; reflexivity|vm_compute; reflexivity
    |vm_compute; reflexivity|right; reflexivity].
Defined.

Lemma pull_keeps_to_its_strategy_witness :
  let st := start (descriptor "pkg" "ipfs://QmPkg" "QmPkg") example_world in
  let run := pull sim 3 (str "dapple_packages/pkg") st in
  this (snd run) = this st /\
  exists new,
    log (snd run) = log st ++ new /\
    Forall (fun e : call * bool =>
              (if hasGitPath (this st) then is_execSync e.1 else ipfs_call e.1)
              = true) new.
Proof.
  cbv zeta.
  apply (pull_keeps_to_its_strategy sim 3 (str "dapple_packages/pkg")
           (start (descriptor "pkg" "ipfs://QmPkg" "QmPkg") example_world)
           (fst (pull sim 3 (str "dapple_packages/pkg")
                   (start (descriptor "pkg" "ipfs://QmPkg" "QmPkg")
                      example_world)))).
  apply surjective_pairing.
Defined.

Lemma git_pull_runs_the_commands_witness :
  let d := descriptor "" "https://github.com/nexusdev/dapple.git" "@abc123" in
  let target := str "dapple_packages/dapple" in
  let cmds :=
    git_commands (str "https://github.com/nexusdev/dapple.git") (str "abc123")
      target in
  let st4 := {| this := d; world := 4%nat; log := [] |} in
  let st2 := {| this := d; world := 2%nat; log := [] |} in
  let all := pull running 3 target st4 in
  let two := pull running 3 target st2 in
  (fst all = Return tt /\
   this (snd all) = this st4 /\
   ((fst all = Return tt /\ log (snd all) = log st4 ++ returned cmds /\
     world (snd all) = world_after running cmds (world st4)) \/
    (exists done c rest e,
       cmds = done ++ c :: rest /\
       running c (world_after running done (world st4))
       = (Raise e, world (snd all)) /\
       fst all = Throw e /\
       log (snd all) = log st4 ++ returned done ++ [(c, false)]))) /\
  (fst two =
   Throw (Foreign (str "Error: Command failed: git submodule init")) /\
   this (snd two) = this st2 /\
   ((fst two = Return tt /\ log (snd two) = log st2 ++ returned cmds /\
     world (snd two) = world_after running cmds (world st2)) \/
    (exists done c rest e,
       cmds = done ++ c :: rest /\
       running c (world_after running done (world st2))
       = (Raise e, world (snd two)) /\
       fst two = Throw e /\
       log (snd two) = log st2 ++ returned done ++ [(c, false)]))).
Proof.
  cbv zeta. split; (split; [vm_compute; reflexivity|]).
  - apply (git_pull_runs_the_commands running 3 (str "dapple_packages/dapple")
             {| this := descriptor ""
                          "https://github.com/nexusdev/dapple.git" "@abc123";
                world := 4%nat; log := [] |}).
    + vm_compute. reflexivity.
    + vm_compute. reflexivity.
    + apply surjective_pairing.
  - apply (git_pull_runs_the_commands running 3 (str "dapple_packages/dapple")
             {| this := descriptor ""
                          "https://github.com/nexusdev/dapple.git" "@abc123";
                world := 2%nat; log := [] |}).
    + vm_compute. reflexivity.
    + vm_compute. reflexivity.
    + apply surjective_pairing.
Defined.

Lemma pull_stops_at_the_first_failure_witness :
  let st := start (descriptor "pkg" "ipfs://QmPkg" "QmPkg") example_world in
  let fetched := pull sim 3 (str "dapple_packages/pkg") st in
  let st2 :=
    {| this := descriptor "" "https://github.com/nexusdev/dapple.git"
                 "@abc123";
       world := 2%nat; log := [] |} in
  let failed := pull running 3 (str "dapple_packages/dapple") st2 in
  (fst fetched = Return tt /\
   length (log (snd fetched)) = 8%nat /\
   exists new,
     log (snd fetched) = log st ++ new /\
     Forall (fun e : call * bool => e.2 = true) (removelast new) /\
     (fst fetched = Return tt ->
      Forall (fun e : call * bool => e.2 = true) new)) /\
  (fst failed =
   Throw (Foreign (str "Error: Command failed: git submodule init")) /\
   map snd (log (snd failed)) = [true; true; false] /\
   exists new,
     log (snd failed) = log st2 ++ new /\
     Forall (fun e : call * bool => e.2 = true) (removelast new) /\
     (fst failed = Return tt ->
      Forall (fun e : call * bool => e.2 = true) new)).
Proof.
  cbv zeta. split;
    (split; [vm_compute; reflexivity|]); (split; [vm_compute; reflexivity|]).
  - apply (pull_stops_at_the_first_failure sim 3 (str "dapple_packages/pkg")
             (start (descriptor "pkg" "ipfs://QmPkg" "QmPkg") example_world)).
    apply surjective_pairing.
  - apply (pull_stops_at_the_first_failure running 3
             (str "dapple_packages/dapple")
             {| this := descriptor ""
                          "https://github.com/nexusdev/dapple.git" "@abc123";
                world := 2%nat; log := [] |}).
    apply surjective_pairing.
Defined.

Lemma ipfs_pull_asks_for_the_hash_witness :
  let st := start (descriptor "pkg" "IPFS://QmPkg" "QmPkg") example_world in
  let run := pull sim 3 (str "dapple_packages/pkg") st in
  exists ok rest,
    log (snd run) =
    log st ++ (ipfs_settings, true) ::
              (ls example_settings (str "QmPkg"), ok) :: rest /\
    (ok = false -> fst run = Throw IPFSConnectionError /\ rest = []).
Proof.
  cbv zeta.
  apply (ipfs_pull_asks_for_the_hash sim 3 (str "IPFS://") (str "QmPkg")
           (str "dapple_packages/pkg")
           (start (descriptor "pkg" "IPFS://QmPkg" "QmPkg") example_world)
           example_settings example_world).
  - reflexivity.
  - vm_compute. reflexivity.
  - discriminate.
  - vm_compute. reflexivity.
  - reflexivity.
  - apply surjective_pairing.
Defined.

Lemma scratch_directory_is_chosen_once_witness :
  let run := _getTmpDir sim (start example_dependency example_world) in
  fst run = Return (str "/tmp/dapple/packages/12345") /\
  _getTmpDir sim (snd run) = (Return (str "/tmp/dapple/packages/12345"), snd run).
Proof.
  cbv zeta. split; [vm_compute; reflexivity|].
  apply (scratch_directory_is_chosen_once sim
           (start example_dependency example_world)).
  vm_compute. reflexivity.
Defined.

Lemma scratch_directory_after_failed_creation_witness :
  let run := _getTmpDir sim (start example_dependency blocked_world) in
  fst run = Throw ENOTDIR /\
  files (world (snd run)) !! scratch_path = None /\
  _getTmpDir sim (snd run) = (Return (str "/tmp/dapple/packages/12345"), snd run).
Proof.
  cbv zeta. split; [vm_compute; reflexivity|].
  split; [vm_compute; reflexivity|].
  apply (scratch_directory_after_failed_creation sim
           (start example_dependency blocked_world) ENOTDIR).
  - reflexivity.
  - vm_compute. reflexivity.
  - vm_compute. reflexivity.
Defined.

Lemma unusable_package_directory_witness :
  let st := start example_dependency lost_world in
  let run := install sim 3 st in
  let p := str "dapple_packages" in
  fst run = Throw (PathAccessError p ENOENT) /\
  sim (mkdirSync p) (world st) = (Raise ENOENT, world st) /\
  p = packagesDirectory (this st) /\
  this (snd run) = this st /\
  exists before e,
    log (snd run) =
      before ++ [(accessSync p W_OK, false); (mkdirSync p, false)] /\
    sim (mkdirSync p)
      (world_after sim (map fst before ++ [accessSync p W_OK]) (world st))
    = (Raise e, world (snd run)) /\
    fst run = Throw (PathAccessError p e).
Proof.
  cbv zeta. split; [vm_compute; reflexivity|].
  split; [vm_compute; reflexivity|].
  apply (unusable_package_directory sim 3
           (start example_dependency lost_world)
           (fst (install sim 3 (start example_dependency lost_world)))
           (snd (install sim 3 (start example_dependency lost_world)))
           (log (snd (install sim 3 (start example_dependency lost_world))))
           (str "dapple_packages")).
  - apply surjective_pairing.
  - reflexivity.
  - vm_compute. apply list_elem_of_In. simpl. tauto.
Defined.

Lemma named_install_needs_no_scratch_witness :
  let st := start (descriptor "pkg" "ipfs://QmPkg" "QmPkg") example_world in
  let run := install sim 3 st in
  fst run = Return tt /\
  getName (this (snd run)) = str "pkg" /\
  _tmpDir (this (snd run)) = None /\
  exists new,
    log (snd run) = log st ++ new /\
    Forall (fun e : call * bool => scratch_call e.1 = false) new.
Proof.
  cbv zeta. split; [vm_compute; reflexivity|].
  apply (named_install_needs_no_scratch sim 3
           (start (descriptor "pkg" "ipfs://QmPkg" "QmPkg") example_world)
           (fst (install sim 3
                   (start (descriptor "pkg" "ipfs://QmPkg" "QmPkg")
                      example_world)))).
  - vm_compute. discriminate.
  - apply surjective_pairing.
Defined.

Lemma named_install_returns_witness :
  let st := start (descriptor "pkg" "ipfs://QmPkg" "QmPkg") example_world in
  let run := install sim 3 st in
  this (snd run) = set_installedAt (str "dapple_packages/pkg") (this st) /\
  exists made fetched,
    log (snd run) =
    log st ++ [(accessSync (str "dapple_packages/pkg") R_OK, false)] ++
    made ++ fetched /\
    made_ready (str "dapple_packages") made /\
    fetched_by (this st) (str "dapple_packages/pkg") fetched.
Proof.
  cbv zeta.
  apply (named_install_returns sim 3
           (start (descriptor "pkg" "ipfs://QmPkg" "QmPkg") example_world)).
  - vm_compute. discriminate.
  - vm_compute. reflexivity.
Defined.

Lemma scratch_install_returns_witness :
  let st := start example_dependency example_world in
  let run := install sim 3 st in
  fst run = Return tt /\
  sim tmpdir example_world = (Answer (str "/tmp"), example_world) /\
  (sim random example_world).1 = Answer (str "0.12345") /\
  _tmpDir (this (snd run)) = Some (str "/tmp/dapple/packages/12345") /\
  installedAt (this (snd run)) = str "dapple_packages/pkg" /\
  exists tmp rnd n made fetched,
    let pd := str "dapple_packages" in
    let scratch := path_join [tmp; str "dapple"; str "packages"; drop 2 rnd] in
    let target := path_join [pd; n] in
    let ready := made ++ returned [tmpdir; random; emptyDirSync scratch] in
    let w1 := world_after sim (map fst made) (world st) in
    let w2 := world_after sim (map fst ready) (world st) in
    let w3 := world_after sim (map fst (ready ++ fetched)) (world st) in
    made_ready pd made /\
    (sim tmpdir w1).1 = Answer tmp /\
    (sim random (sim tmpdir w1).2).1 = Answer rnd /\
    pull sim 3 scratch
      {| this := set_tmpDir scratch (this st); world := w2;
         log := log st ++ ready |}
    = (Return tt,
       {| this := set_tmpDir scratch (this st); world := w3;
          log := log st ++ ready ++ fetched |}) /\
    fetched_by (this st) scratch fetched /\
    (sim (dappfile_name scratch) w3).1 = Answer n /\
    this (snd run) =
      set_installedAt target (setName n (set_tmpDir scratch (this st))) /\
    log (snd run) =
      log st ++ ready ++ fetched ++
      returned [dappfile_name scratch; copySync scratch target;
                removeSync scratch].
Proof.
  cbv zeta. do 5 (split; [vm_compute; reflexivity|]).
  apply (scratch_install_returns sim 3 (start example_dependency example_world)).
  - reflexivity.
  - reflexivity.
  - vm_compute. reflexivity.
Defined.

Lemma failed_install_removes_nothing_witness :
  let run :=
    install sim 3
      (start (with_path "ipfs://QmGone" example_dependency) example_world) in
  fst run = Throw IPFSConnectionError /\
  (emptyDirSync (str "/tmp/dapple/packages/12345"), true) ∈ log (snd run) /\
  (removeSync (str "/tmp/dapple/packages/12345"), true) ∉ log (snd run).
Proof.
  cbv zeta. split; [vm_compute; reflexivity|].
  split; [vm_compute; apply list_elem_of_In; simpl; tauto|].
  apply (failed_install_removes_nothing sim 3
           (start (with_path "ipfs://QmGone" example_dependency) example_world)
           IPFSConnectionError
           (snd (install sim 3
                   (start (with_path "ipfs://QmGone" example_dependency)
                      example_world)))).
  - vm_compute. reflexivity.
  - reflexivity.
Defined.

Lemma link_names_are_not_confined_witness :
  let st := start (descriptor "pkg" "ipfs://QmEvil" "QmEvil") hostile_world in
  let run :=
    pullIPFS sim example_settings (str "QmEvil") 2 (str "QmEvil")
      (str "dapple_packages/pkg") types_dir st in
  fst run = Return tt /\
  files (world (snd run))
    !! [str "home"; str "project"; str "dapple_packages"; str "evil.txt"]
  = Some (File (str "X")).
Proof.
  destruct (link_names_are_not_confined example_settings (str "QmEvil") 0
              (str "QmEvil") (str "dapple_packages/pkg") (str "QmA")
              (str "evil.txt") (str "X")
              (start (descriptor "pkg" "ipfs://QmEvil" "QmEvil") hostile_world))
    as [Hrun _]; try (vm_compute; reflexivity); try discriminate.
  cbv zeta. rewrite Hrun. split; [reflexivity|]. vm_compute. reflexivity.
Defined.

Lemma failed_fetch_blocks_the_retry_witness :
  let st := start (descriptor "pkg" "ipfs://QmOdd" "QmOdd") example_world in
  let first := install sim 3 st in
  fst first = Throw (UnknownNodeTypeError 4 (str "QmL") (str "QmOdd")) /\
  fst (install sim 3 (snd first)) = Throw (AlreadyInstalledError (str "pkg")).
Proof.
  cbv zeta. split; [vm_compute; reflexivity|].
  rewrite (failed_fetch_blocks_the_retry 3
             (start (descriptor "pkg" "ipfs://QmOdd" "QmOdd") example_world)
             (UnknownNodeTypeError 4 (str "QmL") (str "QmOdd"))
             (snd (install sim 3
                     (start (descriptor "pkg" "ipfs://QmOdd" "QmOdd")
                        example_world)))
             (log (snd (install sim 3
                          (start (descriptor "pkg" "ipfs://QmOdd" "QmOdd")
                             example_world))))).
  - reflexivity.
  - vm_compute. discriminate.
  - vm_compute. reflexivity.
  - reflexivity.
  - vm_compute. apply list_elem_of_In. simpl. tauto.
Defined.
